(** * chain: a shallow embedding of the stream engine of [chain.go]

    The Go package builds pipelines of goroutines connected by channels.
    The embedding keeps that structure: a channel is a bounded FIFO buffer
    with a closed flag, every goroutine of the package is a small state
    machine whose steps are the channel operations of its body, and a
    pipeline is the product of its goroutines and channels, driven by a
    schedule (a list of goroutine identifiers) chosen by an adversary. *)

From Stdlib Require Import ZArith List Lia Bool String Permutation.
From stdpp Require Import base option list gmap.

Unset Default Proof Using.

(** ** Errors

    [type Error string], the sentinel [ErrEmptyStream], and the two errors
    [ctx.Err()] can report.  A Go [error] that is [nil] is [None]. *)

Inductive error : Type :=
| Error (msg : string)
| Canceled
| DeadlineExceeded.

Definition ErrEmptyStream : error := Error "empty stream"%string.

Definition is_ctx_error (e : error) : bool :=
  match e with
  | Canceled | DeadlineExceeded => true
  | Error _ => false
  end.

(** ** Channels

    [make(chan T, n)], [c <- x], [<-c] and [close(c)].  A send proceeds
    when the buffer has room; a receive proceeds when the buffer is not
    empty or the channel is closed.  Sending on, or closing, a closed
    channel panics in Go: [send] does not proceed there, and the
    invariants [source_ok] and [stage_ok] below show that no goroutine of
    the package is ever about to send on, or to close, a closed channel.  The only channel of capacity 0 the package makes is
    that of [NewSliceStream] on an empty slice, on which nothing is sent,
    so the rendezvous of unbuffered channels is not modelled. *)

Module Chan.
Section Chan.
Context {T : Type}.

Record chan : Type := mk { buf : list T; cap : nat; closed : bool }.

Definition make (n : nat) : chan := {| buf := []; cap := n; closed := false |}.

Definition send (c : chan) (x : T) : option chan :=
  if closed c then None
  else if Nat.ltb (length (buf c)) (cap c)
       then Some {| buf := buf c ++ [x]; cap := cap c; closed := closed c |}
       else None.

Inductive recv_result : Type :=
| Item (item : T) (c' : chan)   (* item, ok := <-c with ok = true *)
| Closed                        (* ok = false *)
| Blocked.                      (* nothing to receive yet *)

Definition recv (c : chan) : recv_result :=
  match buf c with
  | item :: rest => Item item {| buf := rest; cap := cap c; closed := closed c |}
  | [] => if closed c then Closed else Blocked
  end.

Definition close (c : chan) : chan :=
  {| buf := buf c; cap := cap c; closed := true |}.
End Chan.
Arguments chan : clear implicits.
End Chan.

Abbreviation chan := Chan.chan.

(** ** Schedules

    A system of goroutines is a function [step] that runs one step of the
    goroutine named by a [pid]; a goroutine that is blocked or finished
    leaves the state as it is.  [run] executes a schedule.  A round is fair
    when it names every goroutine, and a system whose every step either
    does nothing or lowers a measure returns under every sequence of fair
    rounds at least as long as the measure. *)

Section Scheduler.
Context {state pid : Type}.
Variable step : pid -> state -> state.

Definition run (sched : list pid) (s : state) : state :=
  fold_left (fun s p => step p s) sched s.

Definition fair (pids round : list pid) : Prop :=
  forall p, In p pids -> In p round.

(** The schedule that runs the goroutines [pids] in turn, [k] times. *)
Definition round_robin (pids : list pid) (k : nat) : list pid :=
  concat (repeat pids k).
End Scheduler.

(** ** The stream handle and its sources

    [type stream struct { source chan T; workers int }].  The record is
    parametric in how the channel is held: by value in the pipelines below
    (the field is then the current state of the channel), by reference in
    [Module Handle]. *)

Record stream (C : Type) : Type := Stream { source : C; workers : Z }.
Arguments Stream {C}.
Arguments source {C}.
Arguments workers {C}.

(** [Parallel]: a non-positive count becomes 1; the channel is the one the
    stream already has.  ([Handle.Parallel] is the update in place.) *)
Definition Parallel {C : Type} (s : stream C) (workers : Z) : stream C :=
  let workers := if (workers <=? 0)%Z then 1%Z else workers in
  {| source := source s; workers := workers |}.

Inductive pid2 : Type := GSource | GMain.

Section Sources.
Context {T : Type}.

(** The goroutine of [NewSliceStream]:
    [defer close(source); for _, item := range data { source <- item }].
    [Sending rest] stands before the send of the head of [rest] (or, when
    [rest] is empty, before the deferred close); [Finished] is after it.
    Seen from its channel, every source of the package (a slice, a relayed
    channel, a generator, the output of a stage) does the same: the sends
    of the elements it yields, in the order of arrival, then one close.
    The terminal operations are therefore verified against [Sending xs]
    on a channel of any capacity, the schedule deciding when each send
    happens. *)
Inductive producer : Type :=
| Sending (rest : list T)
| Finished.

Definition producer_step (g : producer) (c : chan T) : producer * chan T :=
  match g with
  | Sending (item :: rest) =>
      match Chan.send c item with
      | Some c' => (Sending rest, c')
      | None => (g, c)
      end
  | Sending [] => (Finished, Chan.close c)
  | Finished => (g, c)
  end.

Definition NewSliceStream (data : list T) : producer * stream (chan T) :=
  (Sending data, {| source := Chan.make (length data); workers := 1 |}).

(** What a source still has to deliver, and its weight in the measures. *)
Definition pending (g : producer) : list T :=
  match g with Sending rest => rest | Finished => [] end.

Definition producer_mu (g : producer) : nat :=
  match g with Sending rest => S (2 * length rest) | Finished => 0 end.

(** The channel of a running source: closed exactly when the goroutine
    has finished, and never over capacity. *)
Definition finished (g : producer) : bool :=
  match g with Sending _ => false | Finished => true end.

Definition source_ok (g : producer) (c : chan T) : Prop :=
  Chan.closed c = finished g /\ length (Chan.buf c) <= Chan.cap c.
End Sources.
Arguments producer : clear implicits.

(** ** Reduce

    The loop [for item := range s.source] of [Reduce] receives once per
    step; [calls] counts the applications of [fn]. *)

Section Reduce.
Context {T : Type}.
Variable zero : T.            (* the zero value of T: [var result T] *)
Variable fn : T -> T -> T.

Inductive reduce_state : Type :=
| RLoop (result : T) (first : bool) (calls : nat)
| RReturn (result : T) (err : option error) (calls : nat).

Definition Reduce_init : reduce_state := RLoop zero true 0.

Definition Reduce_step (st : reduce_state) (c : chan T) : reduce_state * chan T :=
  match st with
  | RLoop result first calls =>
      match Chan.recv c with
      | Chan.Item item c' =>
          if first then (RLoop item false calls, c')
          else (RLoop (fn result item) false (S calls), c')
      | Chan.Closed =>
          if first then (RReturn result (Some ErrEmptyStream) calls, c)
          else (RReturn result None calls, c)
      | Chan.Blocked => (st, c)
      end
  | RReturn _ _ _ => (st, c)
  end.

(** A source goroutine and the caller of [Reduce]. *)
Record reduce_sys : Type :=
  { r_src : producer T; r_chan : chan T; r_main : reduce_state }.

Definition reduce_step (p : pid2) (s : reduce_sys) : reduce_sys :=
  match p with
  | GSource =>
      let '(g, c) := producer_step (r_src s) (r_chan s) in
      {| r_src := g; r_chan := c; r_main := r_main s |}
  | GMain =>
      let '(m, c) := Reduce_step (r_main s) (r_chan s) in
      {| r_src := r_src s; r_chan := c; r_main := m |}
  end.

(** A source that yields [xs] through a channel of capacity [n]. *)
Definition reduce_start (xs : list T) (n : nat) : reduce_sys :=
  {| r_src := Sending xs; r_chan := Chan.make n; r_main := Reduce_init |}.

(** [Reduce] on [NewSliceStream data]. *)
Definition reduce_slice (data : list T) : reduce_sys :=
  let '(g, s) := NewSliceStream data in
  {| r_src := g; r_chan := source s; r_main := Reduce_init |}.

Definition reduce_returned (s : reduce_sys) : bool :=
  match r_main s with RReturn _ _ _ => true | RLoop _ _ _ => false end.

(** The left fold of the elements seen so far, with the number of
    applications of [fn] it takes. *)
Definition fold_seen (seen : list T) : T * nat :=
  match seen with
  | [] => (zero, 0)
  | x :: rest => (fold_left fn rest x, length rest)
  end.

Definition is_nil (l : list T) : bool :=
  match l with [] => true | _ :: _ => false end.

Definition reduce_inv (xs : list T) (n : nat) (s : reduce_sys) : Prop :=
  source_ok (r_src s) (r_chan s) /\ Chan.cap (r_chan s) = n /\
  exists seen, seen ++ Chan.buf (r_chan s) ++ pending (r_src s) = xs /\
    match r_main s with
    | RLoop result first calls =>
        first = is_nil seen /\ (result, calls) = fold_seen seen
    | RReturn result err calls =>
        seen = xs /\ (result, calls) = fold_seen xs /\
        err = (if is_nil xs then Some ErrEmptyStream else None)
    end.

Definition reduce_mu (s : reduce_sys) : nat :=
  producer_mu (r_src s) + length (Chan.buf (r_chan s)) +
  (if reduce_returned s then 0 else 1).
End Reduce.


(** ** ForEach

    [fn] is a side-effecting function: it acts on a state [W] of the
    caller's environment.  [f_calls] logs the arguments of its invocations
    in order. *)

Section ForEach.
Context {T W : Type}.
Variable fn : T -> W -> W.

Inductive foreach_state : Type :=
| FLoop
| FReturn (err : option error).

Definition ForEach_step (st : foreach_state) (c : chan T) (env : W) (calls : list T)
  : foreach_state * chan T * W * list T :=
  match st with
  | FLoop =>
      match Chan.recv c with
      | Chan.Item item c' => (FLoop, c', fn item env, calls ++ [item])
      | Chan.Closed => (FReturn None, c, env, calls)
      | Chan.Blocked => (st, c, env, calls)
      end
  | FReturn _ => (st, c, env, calls)
  end.

Record foreach_sys : Type :=
  { f_src : producer T; f_chan : chan T; f_env : W; f_calls : list T;
    f_main : foreach_state }.

Definition foreach_step (p : pid2) (s : foreach_sys) : foreach_sys :=
  match p with
  | GSource =>
      let '(g, c) := producer_step (f_src s) (f_chan s) in
      {| f_src := g; f_chan := c; f_env := f_env s; f_calls := f_calls s;
         f_main := f_main s |}
  | GMain =>
      let '(m, c, env, calls) := ForEach_step (f_main s) (f_chan s) (f_env s) (f_calls s) in
      {| f_src := f_src s; f_chan := c; f_env := env; f_calls := calls; f_main := m |}
  end.

(** A source that yields [xs] through a channel of capacity [n], and the
    caller of [ForEach] in the environment [env]. *)
Definition foreach_start (xs : list T) (n : nat) (env : W) : foreach_sys :=
  {| f_src := Sending xs; f_chan := Chan.make n; f_env := env; f_calls := [];
     f_main := FLoop |}.

Definition foreach_returned (s : foreach_sys) : bool :=
  match f_main s with FReturn _ => true | FLoop => false end.

Definition foreach_inv (xs : list T) (n : nat) (env : W) (s : foreach_sys) : Prop :=
  source_ok (f_src s) (f_chan s) /\ Chan.cap (f_chan s) = n /\
  f_calls s ++ Chan.buf (f_chan s) ++ pending (f_src s) = xs /\
  f_env s = fold_left (fun w item => fn item w) (f_calls s) env /\
  match f_main s with
  | FLoop => True
  | FReturn err => err = None /\ f_calls s = xs
  end.

Definition foreach_mu (s : foreach_sys) : nat :=
  producer_mu (f_src s) + length (Chan.buf (f_chan s)) +
  (if foreach_returned s then 0 else 1).
End ForEach.


(** ** Collect

    A Go slice is [nil] or holds elements; [append] on [nil] allocates.
    A context is [None] until its [Done()] channel is closed, then it holds
    the cause, which [ctx.Err()] reports.  [context.Background()] is never
    done. *)

Inductive cause : Type := Cancel | Deadline.

Definition context : Type := option cause.

Definition Background : context := None.

Definition ctx_Err (ctx : context) : option error :=
  match ctx with
  | None => None
  | Some Cancel => Some Canceled
  | Some Deadline => Some DeadlineExceeded
  end.

(** When several cases of a [select] are ready the Go runtime takes one of
    them at random: the choice is an input of the step. *)
Inductive pick : Type := PickRecv | PickDone.

Inductive pid3 : Type :=
| CSource                 (* the source goroutine *)
| CMain (pk : pick)       (* the caller of Collect, with the choice of its select *)
| CFire (e : cause).      (* the caller's cancel function or deadline *)

Section Collect.
Context {T : Type}.

Definition slice : Type := option (list T).

Definition elems (s : slice) : list T :=
  match s with None => [] | Some l => l end.

Definition append (s : slice) (item : T) : slice := Some (elems s ++ [item]).

Inductive collect_state : Type :=
| CLoop (result : slice)
| CReturn (result : slice) (err : option error).

Definition Collect_init : collect_state := CLoop None.

(** [case item, ok := <-s.source] *)
Definition Collect_case_recv (result : slice) (c : chan T) : collect_state * chan T :=
  match Chan.recv c with
  | Chan.Item item c' => (CLoop (append result item), c')
  | Chan.Closed => (CReturn result None, c)
  | Chan.Blocked => (CLoop result, c)
  end.

(** [case <-ctx.Done()] *)
Definition Collect_case_done (ctx : context) (c : chan T) : collect_state * chan T :=
  (CReturn None (ctx_Err ctx), c).

Definition recv_ready (c : chan T) : bool :=
  match Chan.recv c with Chan.Blocked => false | _ => true end.

Definition done_ready (ctx : context) : bool :=
  match ctx with None => false | Some _ => true end.

(** One iteration of [for { select { ... } }]. *)
Definition Collect_step (ctx : context) (pk : pick) (st : collect_state) (c : chan T)
  : collect_state * chan T :=
  match st with
  | CLoop result =>
      match recv_ready c, done_ready ctx with
      | true, false => Collect_case_recv result c
      | false, true => Collect_case_done ctx c
      | true, true =>
          match pk with
          | PickRecv => Collect_case_recv result c
          | PickDone => Collect_case_done ctx c
          end
      | false, false => (st, c)          (* default: time.Sleep(1 * time.Millisecond) *)
      end
  | CReturn _ _ => (st, c)
  end.

Record collect_sys : Type :=
  { c_src : producer T; c_chan : chan T; c_ctx : context; c_main : collect_state }.

Definition collect_step (p : pid3) (s : collect_sys) : collect_sys :=
  match p with
  | CSource =>
      let '(g, c) := producer_step (c_src s) (c_chan s) in
      {| c_src := g; c_chan := c; c_ctx := c_ctx s; c_main := c_main s |}
  | CMain pk =>
      let '(m, c) := Collect_step (c_ctx s) pk (c_main s) (c_chan s) in
      {| c_src := c_src s; c_chan := c; c_ctx := c_ctx s; c_main := m |}
  | CFire e =>
      {| c_src := c_src s; c_chan := c_chan s;
         c_ctx := match c_ctx s with None => Some e | Some e0 => Some e0 end;
         c_main := c_main s |}
  end.

(** The system in which the signal never fires. *)
Definition quiet (p : pid2) : pid3 :=
  match p with GSource => CSource | GMain => CMain PickRecv end.

Definition collect_quiet_step (p : pid2) (s : collect_sys) : collect_sys :=
  collect_step (quiet p) s.

(** A source that yields [xs] through a channel of capacity [n], and the
    caller of [Collect(ctx)]. *)
Definition collect_start (xs : list T) (n : nat) (ctx : context) : collect_sys :=
  {| c_src := Sending xs; c_chan := Chan.make n; c_ctx := ctx; c_main := Collect_init |}.

Definition collect_returned (s : collect_sys) : bool :=
  match c_main s with CReturn _ _ => true | CLoop _ => false end.

Definition collect_inv (xs : list T) (n : nat) (s : collect_sys) : Prop :=
  source_ok (c_src s) (c_chan s) /\ Chan.cap (c_chan s) = n /\
  match c_main s with
  | CLoop result =>
      elems result ++ Chan.buf (c_chan s) ++ pending (c_src s) = xs /\ result <> Some []
  | CReturn result err =>
      (err = None /\ elems result = xs /\ result <> Some []) \/
      (done_ready (c_ctx s) = true /\ err = ctx_Err (c_ctx s) /\ result = None)
  end.

Definition collect_quiet_inv (xs : list T) (n : nat) (s : collect_sys) : Prop :=
  collect_inv xs n s /\ c_ctx s = None.

Definition collect_mu (s : collect_sys) : nat :=
  producer_mu (c_src s) + length (Chan.buf (c_chan s)) +
  (if collect_returned s then 0 else 1).
End Collect.


(** ** Map and Filter

    Both methods make the downstream channel, start one goroutine and
    return the new stream.  The goroutine is the same for both up to the
    body of its loops, [out <- fn(item)] for [Map] and
    [if fn(item) { out <- item }] for [Filter]: [loop_body] gives what an
    iteration sends downstream, if anything. *)

Inductive pidN : Type :=
| PSource               (* the goroutine of the source *)
| PStage                (* the goroutine started by Map or Filter *)
| PWorker (i : nat)     (* the i-th goroutine of its parallel loop *)
| PMain.                (* the caller of Collect *)

Section Stage.
Context {T R : Type}.

(** A loop [for item := range s.source { ... }]: before the receive, before
    the send of [r], after the loop, and (for a parallel worker) after the
    deferred [wg.Done()]. *)
Inductive worker : Type :=
| WRecv
| WSend (r : R)
| WExit
| WDone.

Definition worker_step (body : T -> option R) (w : worker) (up : chan T) (out : chan R)
  : worker * chan T * chan R :=
  match w with
  | WRecv =>
      match Chan.recv up with
      | Chan.Item item up' =>
          match body item with
          | Some r => (WSend r, up', out)
          | None => (WRecv, up', out)
          end
      | Chan.Closed => (WExit, up, out)
      | Chan.Blocked => (w, up, out)
      end
  | WSend r =>
      match Chan.send out r with
      | Some out' => (WRecv, up, out')
      | None => (w, up, out)
      end
  | WExit | WDone => (w, up, out)
  end.

(** The goroutine [go func() { defer close(out); ... }()]: before the test
    [s.workers == 1], in the sequential loop, in the loop
    [for i := 0; i < s.workers; i++], at [wg.Wait()], and after the
    deferred [close(out)]. *)
Inductive stage : Type :=
| Starting
| Sequential (w : worker)
| Spawning (i : Z)
| Waiting
| Returned.

Record goroutine : Type := Go { loop_body : T -> option R; control : stage }.

(** The receiver [s] of [Map]/[Filter] (its channel and its worker count,
    which the goroutine reads), the goroutine, the workers it has started
    and their wait group, the stream [m] that the method returned, and
    the caller of [m.Collect(context.Background())]. *)
Record pipe_sys : Type :=
  { p_src : producer T;
    p_s : stream (chan T);
    p_go : goroutine;
    p_pool : list worker;
    p_wg : nat;
    p_m : stream (chan R);
    p_main : @collect_state R }.

Definition with_stage (s : pipe_sys) (up : chan T) (st : stage) (pool : list worker)
           (wg : nat) (out : chan R) : pipe_sys :=
  {| p_src := p_src s;
     p_s := {| source := up; workers := workers (p_s s) |};
     p_go := {| loop_body := loop_body (p_go s); control := st |};
     p_pool := pool; p_wg := wg;
     p_m := {| source := out; workers := workers (p_m s) |};
     p_main := p_main s |}.

Definition stage_step (s : pipe_sys) : pipe_sys :=
  let up := source (p_s s) in
  let out := source (p_m s) in
  match control (p_go s) with
  | Starting =>
      if (workers (p_s s) =? 1)%Z
      then with_stage s up (Sequential WRecv) (p_pool s) (p_wg s) out
      else with_stage s up (Spawning 0) (p_pool s) (p_wg s) out
  | Sequential WExit =>                     (* return; deferred close(out) *)
      with_stage s up Returned (p_pool s) (p_wg s) (Chan.close out)
  | Sequential w =>
      let '(w', up', out') := worker_step (loop_body (p_go s)) w up out in
      with_stage s up' (Sequential w') (p_pool s) (p_wg s) out'
  | Spawning i =>
      if (i <? workers (p_s s))%Z
      then                                  (* wg.Add(1); go func() { ... }() *)
        with_stage s up (Spawning (i + 1)) (p_pool s ++ [WRecv]) (S (p_wg s)) out
      else with_stage s up Waiting (p_pool s) (p_wg s) out
  | Waiting =>                              (* wg.Wait(); deferred close(out) *)
      if Nat.eqb (p_wg s) 0
      then with_stage s up Returned (p_pool s) (p_wg s) (Chan.close out)
      else s
  | Returned => s
  end.

Definition pool_step (i : nat) (s : pipe_sys) : pipe_sys :=
  let up := source (p_s s) in
  let out := source (p_m s) in
  match p_pool s !! i with
  | Some WExit =>                           (* deferred wg.Done() *)
      with_stage s up (control (p_go s)) (<[i := WDone]> (p_pool s)) (Nat.pred (p_wg s)) out
  | Some w =>
      let '(w', up', out') := worker_step (loop_body (p_go s)) w up out in
      with_stage s up' (control (p_go s)) (<[i := w']> (p_pool s)) (p_wg s) out'
  | None => s
  end.

Definition pipe_step (p : pidN) (s : pipe_sys) : pipe_sys :=
  match p with
  | PSource =>
      let '(g, up) := producer_step (p_src s) (source (p_s s)) in
      {| p_src := g; p_s := {| source := up; workers := workers (p_s s) |};
         p_go := p_go s; p_pool := p_pool s; p_wg := p_wg s; p_m := p_m s;
         p_main := p_main s |}
  | PStage => stage_step s
  | PWorker i => pool_step i s
  | PMain =>
      let '(m, out) := Collect_step Background PickRecv (p_main s) (source (p_m s)) in
      {| p_src := p_src s; p_s := p_s s; p_go := p_go s; p_pool := p_pool s;
         p_wg := p_wg s; p_m := {| source := out; workers := workers (p_m s) |};
         p_main := m |}
  end.

(** [src.stage(fn).Collect(context.Background())], where [src] is a source
    with its goroutine and [stage] is [Map] or [Filter]. *)
Definition pipeline (src : producer T * stream (chan T))
           (method : stream (chan T) -> goroutine * stream (chan R)) : pipe_sys :=
  let '(g, s) := src in
  let '(go, m) := method s in
  {| p_src := g; p_s := s; p_go := go; p_pool := []; p_wg := 0; p_m := m;
     p_main := Collect_init |}.

Definition pipe_returned (s : pipe_sys) : bool :=
  match p_main s with CReturn _ _ => true | CLoop _ => false end.

(** The goroutines of a pipeline whose stage has [n] workers. *)
Definition pipe_pids (n : Z) : list pidN :=
  [PSource; PStage; PMain] ++
  (if (n =? 1)%Z then [] else map PWorker (seq 0 (Z.to_nat n))).
End Stage.
Arguments worker : clear implicits.
Arguments stage : clear implicits.
Arguments goroutine : clear implicits.
Arguments pipe_sys : clear implicits.

Definition Map {T R : Type} (s : stream (chan T)) (fn : T -> R)
  : goroutine T R * stream (chan R) :=
  let out := Chan.make (Z.to_nat (workers s)) in
  ({| loop_body := fun item => Some (fn item); control := Starting |},
   {| source := out; workers := workers s |}).

Definition Filter {T : Type} (s : stream (chan T)) (fn : T -> bool)
  : goroutine T T * stream (chan T) :=
  let out := Chan.make (Z.to_nat (workers s)) in
  ({| loop_body := fun item => if fn item then Some item else None; control := Starting |},
   {| source := out; workers := workers s |}).

(** [NewSliceStream(data).Parallel(n)] *)
Definition parallel_slice {T : Type} (data : list T) (n : Z) : producer T * stream (chan T) :=
  let '(g, s) := NewSliceStream data in (g, Parallel s n).


(** *** Invariants and measure of a pipeline

    [body] is the loop body of the stage, [n] its worker count, [xs] the
    data of the source and [k] the capacity of the source's channel. *)

Section StageInv.
Context {T R : Type}.
Variable body : T -> option R.
Variable n : Z.
Variable xs : list T.
Variable k : nat.

Definition held (w : worker R) : list R :=
  match w with WSend r => [r] | _ => [] end.

Definition stage_held (st : stage R) : list R :=
  match st with Sequential w => held w | _ => [] end.

Definition holds (pool : list (worker R)) : list R := flat_map held pool.

Definition exited (w : worker R) : bool :=
  match w with WExit | WDone => true | _ => false end.

Definition running (w : worker R) : bool :=
  match w with WDone => false | _ => true end.

Definition drained (c : chan T) : Prop :=
  Chan.closed c = true /\ Chan.buf c = [].

Definition result_of (m : @collect_state R) : slice :=
  match m with CLoop result => result | CReturn result _ => result end.

(** Everything downstream of the data still to be sent, in order: what the
    caller has collected, the downstream buffer, what the stage holds, and
    what the loop body will make of the elements still upstream. *)
Definition contents (s : pipe_sys T R) : list R :=
  elems (result_of (p_main s)) ++ Chan.buf (source (p_m s)) ++
  stage_held (control (p_go s)) ++ holds (p_pool s) ++
  omap body (Chan.buf (source (p_s s)) ++ pending (p_src s)).

Definition stage_ok (s : pipe_sys T R) : Prop :=
  let up := source (p_s s) in
  let out := source (p_m s) in
  let pool := p_pool s in
  p_wg s = length (List.filter running pool) /\
  Forall (fun w => exited w = true -> drained up) pool /\
  (n = 1%Z -> pool = []) /\
  match control (p_go s) with
  | Starting => pool = [] /\ Chan.closed out = false
  | Sequential w =>
      n = 1%Z /\ Chan.closed out = false /\ w <> WDone /\ (w = WExit -> drained up)
  | Spawning i =>
      n <> 1%Z /\ (0 <= i <= n)%Z /\ Z.of_nat (length pool) = i /\
      Chan.closed out = false
  | Waiting =>
      n <> 1%Z /\ Z.of_nat (length pool) = n /\ Chan.closed out = false
  | Returned =>
      Chan.closed out = true /\ drained up /\ Forall (eq WDone) pool /\
      (n <> 1%Z -> Z.of_nat (length pool) = n)
  end.

Definition main_ok (s : pipe_sys T R) : Prop :=
  match p_main s with
  | CLoop result => True
  | CReturn result err =>
      err = None /\ Chan.closed (source (p_m s)) = true /\ Chan.buf (source (p_m s)) = []
  end.

Definition pipe_inv (s : pipe_sys T R) : Prop :=
  (loop_body (p_go s) = body /\ workers (p_s s) = n /\
   Chan.cap (source (p_s s)) = k /\ Chan.cap (source (p_m s)) = Z.to_nat n) /\
  source_ok (p_src s) (source (p_s s)) /\
  stage_ok s /\
  main_ok s /\
  Permutation (contents s) (omap body xs) /\
  (p_pool s = [] -> contents s = omap body xs).

Definition worker_mu (w : worker R) : nat :=
  match w with WRecv => 2 | WSend _ => 4 | WExit => 1 | WDone => 0 end.

Definition stage_mu (workers : Z) (st : stage R) : nat :=
  match st with
  | Starting => 3 + 3 * Z.to_nat workers
  | Sequential w => worker_mu w
  | Spawning i => 2 + 3 * Z.to_nat (workers - i)
  | Waiting => 1
  | Returned => 0
  end.

Definition pool_mu (pool : list (worker R)) : nat :=
  list_sum (map worker_mu pool).

Definition source_mu (g : producer T) : nat :=
  match g with Sending rest => S (4 * length rest) | Finished => 0 end.

Definition pipe_mu (s : pipe_sys T R) : nat :=
  source_mu (p_src s) + 3 * length (Chan.buf (source (p_s s))) +
  stage_mu (workers (p_s s)) (control (p_go s)) + pool_mu (p_pool s) +
  length (Chan.buf (source (p_m s))) +
  (if pipe_returned s then 0 else 1).
End StageInv.


(** The invariant used for progress: the source never has more left to send
    than it was given. *)
Definition pipe_live_inv {T R : Type} (body : T -> option R) (n : Z) (xs : list T) (k : nat)
           (s : pipe_sys T R) : Prop :=
  pipe_inv body n xs k s /\ length (pending (p_src s)) <= length xs.

(** The state in which a pipeline starts. *)
Definition pipe_start {T R : Type} (body : T -> option R) (n : Z) (xs : list T) (k : nat)
  : pipe_sys T R :=
  {| p_src := Sending xs;
     p_s := {| source := Chan.make k; workers := n |};
     p_go := {| loop_body := body; control := Starting |};
     p_pool := []; p_wg := 0;
     p_m := {| source := Chan.make (Z.to_nat n); workers := n |};
     p_main := Collect_init |}.


(** ** Generator

    A generator [func() (T, bool)] is a closure: [gen] maps the state [G]
    of what it captures to the item, the has-more flag and the next state.
    The goroutine of [Generator] is before a call of [gen], before the
    send of the item it returned, returning (before the deferred
    [close(source)]), or finished.  [n_calls] counts the calls of [gen]. *)

Section Generator.
Context {T G : Type}.
Variable gen : G -> T * bool * G.

Inductive generating : Type :=
| GCall
| GSend (item : T)
| GReturn
| GFinished.

Definition Generator : generating * stream (chan T) :=
  (GCall, {| source := Chan.make 1; workers := 1 |}).

Record gen_sys : Type :=
  { n_gen : G; n_calls : nat; n_go : generating; n_chan : chan T;
    n_main : @collect_state T }.

Definition generator_step (s : gen_sys) : gen_sys :=
  match n_go s with
  | GCall =>
      let '(item, ok, g') := gen (n_gen s) in
      {| n_gen := g'; n_calls := S (n_calls s);
         n_go := if ok then GSend item else GReturn;
         n_chan := n_chan s; n_main := n_main s |}
  | GSend item =>
      match Chan.send (n_chan s) item with
      | Some c' =>
          {| n_gen := n_gen s; n_calls := n_calls s; n_go := GCall; n_chan := c';
             n_main := n_main s |}
      | None => s
      end
  | GReturn =>
      {| n_gen := n_gen s; n_calls := n_calls s; n_go := GFinished;
         n_chan := Chan.close (n_chan s); n_main := n_main s |}
  | GFinished => s
  end.

Definition gen_step (p : pid2) (s : gen_sys) : gen_sys :=
  match p with
  | GSource => generator_step s
  | GMain =>
      let '(m, c) := Collect_step Background PickRecv (n_main s) (n_chan s) in
      {| n_gen := n_gen s; n_calls := n_calls s; n_go := n_go s; n_chan := c;
         n_main := m |}
  end.

(** [Generator(gen).Collect(context.Background())], the closure starting
    in the state [g]. *)
Definition gen_start (g : G) : gen_sys :=
  let '(go, s) := Generator in
  {| n_gen := g; n_calls := 0; n_go := go; n_chan := source s; n_main := Collect_init |}.

Definition gen_returned (s : gen_sys) : bool :=
  match n_main s with CReturn _ _ => true | CLoop _ => false end.

(** From the state [g], [gen] returns the values [vs] with has-more true,
    one per call, and has-more false at the next call. *)
Fixpoint yields (g : G) (vs : list T) : Prop :=
  match vs with
  | [] => (gen g).1.2 = false
  | v :: vs' => (gen g).1 = (v, true) /\ yields (gen g).2 vs'
  end.

Definition gen_held (go : generating) : list T :=
  match go with GSend item => [item] | _ => [] end.

Definition gen_inv (vs : list T) (s : gen_sys) : Prop :=
  Chan.cap (n_chan s) = 1 /\
  (exists todo,
     elems (result_of (n_main s)) ++ Chan.buf (n_chan s) ++ gen_held (n_go s) ++ todo = vs /\
     match n_go s with
     | GCall | GSend _ =>
         yields (n_gen s) todo /\ n_calls s + length todo = length vs /\
         Chan.closed (n_chan s) = false
     | GReturn =>
         todo = [] /\ n_calls s = S (length vs) /\ Chan.closed (n_chan s) = false
     | GFinished =>
         todo = [] /\ n_calls s = S (length vs) /\ Chan.closed (n_chan s) = true
     end) /\
  match n_main s with
  | CLoop _ => True
  | CReturn _ err =>
      err = None /\ Chan.closed (n_chan s) = true /\ Chan.buf (n_chan s) = []
  end.

Definition gen_mu (vs : list T) (s : gen_sys) : nat :=
  3 * (S (length vs) - n_calls s) +
  match n_go s with GCall => 0 | GSend _ => 2 | GReturn => 1 | GFinished => 0 end +
  length (Chan.buf (n_chan s)) +
  (if gen_returned s then 0 else 1).
End Generator.


(** The generator of [TestGenerator] in [chain_test.go]: it captures
    [count], and returns [count + 1] three times. *)
Definition count_to_three (count : Z) : Z * bool * Z :=
  if (3 <=? count)%Z then (0%Z, false, count) else ((count + 1)%Z, true, (count + 1)%Z).


(** ** Stream handles

    The methods take and return pointers to [stream] structs, and a
    channel is a reference.  A heap records how many channels [make] has
    returned so far (the next one is fresh) and the structs allocated so
    far, a pointer being an index.  The goroutines that the constructors
    and [Map]/[Filter] start are those of the pipelines above. *)

Module Handle.

Definition chan_ref : Type := nat.
Definition ptr : Type := nat.

Record heap : Type := { chans : nat; objs : list (stream chan_ref) }.

(** [make(chan T, n)] *)
Definition make (h : heap) : chan_ref * heap :=
  (chans h, {| chans := S (chans h); objs := objs h |}).

(** [&stream{source: source, workers: workers}] *)
Definition new (st : stream chan_ref) (h : heap) : ptr * heap :=
  (length (objs h), {| chans := chans h; objs := objs h ++ [st] |}).

Definition NewSliceStream (h : heap) : ptr * heap :=
  let '(source, h) := make h in
  new {| source := source; workers := 1 |} h.

(** [s.workers = workers; return s], on the struct [s] points to. *)
Definition Parallel (s : ptr) (workers : Z) (h : heap) : option (ptr * heap) :=
  match objs h !! s with
  | Some st => Some (s, {| chans := chans h; objs := <[s := Parallel st workers]> (objs h) |})
  | None => None
  end.

(** [out := make(chan R, s.workers); go ...; return &stream{source: out, workers: s.workers}] *)
Definition Map (s : ptr) (h : heap) : option (ptr * heap) :=
  match objs h !! s with
  | Some st =>
      let '(out, h) := make h in
      Some (new {| source := out; workers := workers st |} h)
  | None => None
  end.

Definition Filter (s : ptr) (h : heap) : option (ptr * heap) :=
  match objs h !! s with
  | Some st =>
      let '(out, h) := make h in
      Some (new {| source := out; workers := workers st |} h)
  | None => None
  end.

(** Every struct holds a channel that has been made. *)
Definition wf (h : heap) : Prop :=
  Forall (fun st => source st < chans h) (objs h).

End Handle.


(** ** Pipelines with any worker count *)

(** The worker count [Parallel(w)] stores. *)
Definition coerced (w : Z) : Z := if (w <=? 0)%Z then 1%Z else w.

(** [NewSliceStream(S).Parallel(w).Map(f).Collect(context.Background())] *)
Definition Map_Collect {T R : Type} (S : list T) (w : Z) (f : T -> R) : pipe_sys T R :=
  pipeline (parallel_slice S w) (fun s => Map s f).

(** [NewSliceStream(S).Parallel(w).Filter(p).Collect(context.Background())] *)
Definition Filter_Collect {T : Type} (S : list T) (w : Z) (p : T -> bool) : pipe_sys T T :=
  pipeline (parallel_slice S w) (fun s => Filter s p).

(** A state in which no goroutine is about to panic: whoever is about to
    send on a channel or to close it finds it open, and a worker about to
    call [wg.Done()] finds a positive counter. *)
Definition disciplined {T R : Type} (s : pipe_sys T R) : Prop :=
  (p_src s <> Finished -> Chan.closed (source (p_s s)) = false) /\
  match control (p_go s) with
  | Sequential (WSend _) | Sequential WExit | Waiting =>
      Chan.closed (source (p_m s)) = false
  | _ => True
  end /\
  (forall i r, p_pool s !! i = Some (WSend r) -> Chan.closed (source (p_m s)) = false) /\
  (forall i, p_pool s !! i = Some WExit -> 0 < p_wg s).

(** The workers started so far: none when the count is 1, never more than
    the count, and all of them once the stage waits or has returned. *)
Definition pool_bounded {T R : Type} (n : Z) (s : pipe_sys T R) : Prop :=
  (n = 1%Z -> p_pool s = []) /\
  (Z.of_nat (length (p_pool s)) <= n)%Z /\
  (n <> 1%Z -> control (p_go s) = Waiting \/ control (p_go s) = Returned ->
   Z.of_nat (length (p_pool s)) = n).


(** ** Sequences of calls on stream handles

    A program calls the constructors and the methods one after the other.
    On handles the three constructors [NewSliceStream], [NewChanStream]
    and [Generator] do the same: they make a channel and return a new
    struct with worker count 1.  A method called on a pointer that holds
    no stream leaves the heap as it is. *)

Definition NewChanStream_handle (h : Handle.heap) : Handle.ptr * Handle.heap :=
  let '(source, h) := Handle.make h in
  Handle.new {| source := source; workers := 1 |} h.

Definition Generator_handle (h : Handle.heap) : Handle.ptr * Handle.heap :=
  let '(source, h) := Handle.make h in
  Handle.new {| source := source; workers := 1 |} h.

Inductive api_call : Type :=
| CallNewSlice
| CallNewChan
| CallGenerator
| CallParallel (s : Handle.ptr) (w : Z)
| CallMap (s : Handle.ptr)
| CallFilter (s : Handle.ptr).

Definition heap_of (r : option (Handle.ptr * Handle.heap)) (h : Handle.heap) : Handle.heap :=
  match r with Some (_, h') => h' | None => h end.

Definition api_step (h : Handle.heap) (c : api_call) : Handle.heap :=
  match c with
  | CallNewSlice => (Handle.NewSliceStream h).2
  | CallNewChan => (NewChanStream_handle h).2
  | CallGenerator => (Generator_handle h).2
  | CallParallel s w => heap_of (Handle.Parallel s w h) h
  | CallMap s => heap_of (Handle.Map s h) h
  | CallFilter s => heap_of (Handle.Filter s h) h
  end.

Definition api_exec (calls : list api_call) : Handle.heap :=
  fold_left api_step calls {| Handle.chans := 0; Handle.objs := [] |}.

(** The [i]-th struct allocated holds the [i]-th channel made, and every
    worker count is at least 1. *)
Definition api_ok (h : Handle.heap) : Prop :=
  map source (Handle.objs h) = seq 0 (Handle.chans h) /\
  Forall (fun st => (1 <= workers st)%Z) (Handle.objs h).

(** A chain [s.m1(..).m2(..)...] of [Map] and [Filter] calls, each on the
    stream the one before returned. *)
Inductive stage_kind : Type := KMap | KFilter.

Fixpoint chain (ks : list stage_kind) (s : Handle.ptr) (h : Handle.heap)
  : option (Handle.ptr * Handle.heap) :=
  match ks with
  | [] => Some (s, h)
  | k :: ks' =>
      match (match k with KMap => Handle.Map s h | KFilter => Handle.Filter s h end) with
      | Some (m, h') => chain ks' m h'
      | None => None
      end
  end.


(** ** NewChanStream

    [source := make(chan T, 1)] and the goroutine
    [defer close(source); for item := range ch { source <- item }], which
    is the loop of a sequential stage whose body sends the item as it is,
    entered at once. *)
Definition NewChanStream {T : Type} : goroutine T T * stream (chan T) :=
  ({| loop_body := fun item => Some item; control := Sequential WRecv |},
   {| source := Chan.make 1; workers := 1 |}).

(** [NewChanStream(ch).Collect(context.Background())], where the channel
    [ch] of the caller has capacity [k] and a goroutine of the caller sends
    [xs] on it and closes it.  ([p_s] holds [ch]; the relay does not read
    its worker count.) *)
Definition relay_start {T : Type} (xs : list T) (k : nat) : pipe_sys T T :=
  let '(go, s) := NewChanStream in
  {| p_src := Sending xs; p_s := {| source := Chan.make k; workers := 1 |};
     p_go := go; p_pool := []; p_wg := 0; p_m := s; p_main := Collect_init |}.


(** ** Chains of sequential stages

    With the worker count 1 that the constructors give, a stream is fed by
    a line of goroutines: the goroutine of the source, then one goroutine
    per [Map] or [Filter] stage.  A [network] is such a line seen from the
    channel it feeds: the state of its goroutines and inner channels, one
    step function per goroutine, and the channel as it was made. *)

Record network (T : Type) : Type := Network
  { net_state : Type;
    net_pid : Type;
    net_step : net_pid -> net_state -> chan T -> net_state * chan T;
    net_init : net_state;
    net_chan : chan T;
    net_pids : list net_pid }.
Arguments net_state {T}.
Arguments net_pid {T}.
Arguments net_step {T}.
Arguments net_init {T}.
Arguments net_chan {T}.
Arguments net_pids {T}.

(** The goroutine and the stream of [NewSliceStream(data)]. *)
Definition slice_net {T : Type} (data : list T) : network T :=
  let '(g, s) := NewSliceStream data in
  {| net_state := producer T; net_pid := unit;
     net_step := fun _ => producer_step;
     net_init := g; net_chan := source s; net_pids := [tt] |}.

(** The goroutine of [Generator(gen)] on its own: the state of the closure,
    the number of calls, and where the goroutine stands. *)
Definition generating_step {T G : Type} (gen : G -> T * bool * G)
           (x : G * nat * generating) (c : chan T) : (G * nat * generating) * chan T :=
  let '(g, calls, go) := x in
  match go with
  | GCall =>
      let '(item, ok, g') := gen g in
      ((g', S calls, if ok then GSend item else GReturn), c)
  | GSend item =>
      match Chan.send c item with
      | Some c' => ((g, calls, GCall), c')
      | None => (x, c)
      end
  | GReturn => ((g, calls, GFinished), Chan.close c)
  | GFinished => (x, c)
  end.

Definition generator_net {T G : Type} (gen : G -> T * bool * G) (g : G) : network T :=
  let '(go, s) := @Generator T in
  {| net_state := G * nat * generating; net_pid := unit;
     net_step := fun _ => generating_step gen;
     net_init := (g, 0, go); net_chan := source s; net_pids := [tt] |}.

(** The goroutine of [Map]/[Filter] on its own, for a receiver whose worker
    count is 1: the test [s.workers == 1] succeeds and the goroutine runs
    the sequential loop, then the deferred [close(out)]. *)
Definition sequential_step {T R : Type} (body : T -> option R) (st : stage R)
           (up : chan T) (out : chan R) : stage R * chan T * chan R :=
  match st with
  | Starting => (Sequential WRecv, up, out)
  | Sequential WExit => (Returned, up, Chan.close out)
  | Sequential w =>
      let '(w', up', out') := worker_step body w up out in (Sequential w', up', out')
  | Spawning _ | Waiting | Returned => (st, up, out)
  end.

(** A stage after a network: the goroutines of the network act on the
    channel [up] between them and the stage; [None] is the goroutine of
    the stage. *)
Definition stage_net_step {T R : Type} (N : network T) (body : T -> option R)
           (p : option (net_pid N)) (x : net_state N * chan T * stage R) (out : chan R)
  : (net_state N * chan T * stage R) * chan R :=
  let '(y, up, st) := x in
  match p with
  | Some q => let '(y', up') := net_step N q y up in ((y', up', st), out)
  | None => let '(st', up', out') := sequential_step body st up out in ((y, up', st'), out')
  end.

Definition stage_net {T R : Type} (N : network T)
           (method : stream (chan T) -> goroutine T R * stream (chan R)) : network R :=
  let called := method {| source := net_chan N; workers := 1 |} in
  {| net_state := net_state N * chan T * stage R;
     net_pid := option (net_pid N);
     net_step := stage_net_step N (loop_body called.1);
     net_init := (net_init N, net_chan N, control called.1);
     net_chan := source called.2;
     net_pids := None :: map Some (net_pids N) |}.

(** [N.Map(f)] and [N.Filter(p)] *)
Definition Map_net {T R : Type} (N : network T) (f : T -> R) : network R :=
  stage_net N (fun s => Map s f).

Definition Filter_net {T : Type} (N : network T) (p : T -> bool) : network T :=
  stage_net N (fun s => Filter s p).

(** The caller of a terminal operation, as a machine on the channel of the
    stream. *)
Record consumer (T : Type) : Type := Consumer
  { con_state : Type;
    con_step : con_state -> chan T -> con_state * chan T;
    con_init : con_state;
    con_returned : con_state -> bool }.
Arguments con_state {T}.
Arguments con_step {T}.
Arguments con_init {T}.
Arguments con_returned {T}.

Definition Collect_con {T : Type} : consumer T :=
  {| con_state := @collect_state T;
     con_step := Collect_step Background PickRecv;
     con_init := Collect_init;
     con_returned := fun m => match m with CReturn _ _ => true | CLoop _ => false end |}.

Definition Reduce_con {T : Type} (zero : T) (fn : T -> T -> T) : consumer T :=
  {| con_state := @reduce_state T;
     con_step := Reduce_step fn;
     con_init := Reduce_init zero;
     con_returned := fun m => match m with RReturn _ _ _ => true | RLoop _ _ _ => false end |}.

Definition ForEach_con {T W : Type} (fn : T -> W -> W) (env : W) : consumer T :=
  {| con_state := foreach_state * W * list T;
     con_step := fun d c =>
       let '(st, env, calls) := d in
       let '(st', c', env', calls') := ForEach_step fn st c env calls in
       ((st', env', calls'), c');
     con_init := (FLoop, env, []);
     con_returned := fun d => match d.1.1 with FReturn _ => true | FLoop => false end |}.

(** A network and the caller of a terminal operation on its stream:
    [Some q] is a goroutine of the network, [None] the caller. *)
Definition sys_step {T : Type} (N : network T) (D : consumer T) (p : option (net_pid N))
           (s : net_state N * chan T * con_state D) : net_state N * chan T * con_state D :=
  let '(x, c, d) := s in
  match p with
  | Some q => let '(x', c') := net_step N q x c in (x', c', d)
  | None => let '(d', c') := con_step D d c in (x, c', d')
  end.

Definition sys_start {T : Type} (N : network T) (D : consumer T)
  : net_state N * chan T * con_state D :=
  (net_init N, net_chan N, con_init D).

Definition sys_pids {T : Type} (N : network T) : list (option (net_pid N)) :=
  None :: map Some (net_pids N).

Definition sys_returned {T : Type} (N : network T) (D : consumer T)
           (s : net_state N * chan T * con_state D) : bool :=
  con_returned D s.2.

(** A chain of stages on elements of one type, each given by its method. *)
Inductive method (T : Type) : Type :=
| MMap (f : T -> T)
| MFilter (p : T -> bool).
Arguments MMap {T}.
Arguments MFilter {T}.

Fixpoint chain_net {T : Type} (N : network T) (ms : list (method T)) : network T :=
  match ms with
  | [] => N
  | MMap f :: ms' => chain_net (Map_net N f) ms'
  | MFilter p :: ms' => chain_net (Filter_net N p) ms'
  end.

(** What a chain makes of a sequence. *)
Fixpoint chain_spec {T : Type} (ms : list (method T)) (xs : list T) : list T :=
  match ms with
  | [] => xs
  | MMap f :: ms' => chain_spec ms' (map f xs)
  | MFilter p :: ms' => chain_spec ms' (List.filter p xs)
  end.

(** *** What a network delivers and what a caller has seen

    The view of a network gives, for a state, what it still has to send on
    its channel, in order, a measure, and an invariant.  [delivers] says
    that the network, whatever is received from its channel meanwhile,
    sends exactly [ys] and then closes the channel, and can always move
    while the channel is open and empty. *)

Record net_view {T : Type} (N : network T) : Type := NetView
  { v_pend : net_state N -> list T;
    v_mu : net_state N -> nat;
    v_inv : net_state N -> chan T -> Prop }.
Arguments v_pend {T N}.
Arguments v_mu {T N}.
Arguments v_inv {T N}.

Definition net_step_ok {T : Type} {N : network T} (V : net_view N)
           (x : net_state N) (c : chan T) (x' : net_state N) (c' : chan T) : Prop :=
  (x' = x /\ c' = c) \/
  (v_mu V x' + length (Chan.buf c') < v_mu V x + length (Chan.buf c) /\
   ((c' = c /\ v_pend V x' = v_pend V x) \/
    (exists item,
       v_pend V x = item :: v_pend V x' /\ Chan.closed c = false /\
       c' = {| Chan.buf := Chan.buf c ++ [item]; Chan.cap := Chan.cap c;
               Chan.closed := false |}) \/
    (v_pend V x = [] /\ v_pend V x' = [] /\ Chan.closed c = false /\ c' = Chan.close c))).

Definition delivers {T : Type} (N : network T) (V : net_view N) (ys : list T) : Prop :=
  (v_inv V (net_init N) (net_chan N) /\ Chan.buf (net_chan N) = [] /\
   v_pend V (net_init N) = ys) /\
  (forall p x c, v_inv V x c ->
     v_inv V (net_step N p x c).1 (net_step N p x c).2 /\
     net_step_ok V x c (net_step N p x c).1 (net_step N p x c).2) /\
  (forall x c item rest, v_inv V x c -> Chan.buf c = item :: rest ->
     v_inv V x {| Chan.buf := rest; Chan.cap := Chan.cap c; Chan.closed := Chan.closed c |}) /\
  (forall x c, v_inv V x c -> Chan.closed c = true -> v_pend V x = []) /\
  (forall x c, v_inv V x c -> Chan.closed c = false -> Chan.buf c = [] ->
     exists p, In p (net_pids N) /\ net_step N p x c <> (x, c)).

(** [consumes D w_inv]: a step of the caller does nothing (and then only
    because it has returned or the channel is open and empty), or receives
    the head of the buffer, or finds the channel closed and empty and
    returns; [w_inv seen d] relates its state to what it has received. *)
Definition consumes {T : Type} (D : consumer T) (w_inv : list T -> con_state D -> Prop)
  : Prop :=
  (w_inv [] (con_init D) /\ con_returned D (con_init D) = false) /\
  (forall d c, con_returned D d = true -> con_step D d c = (d, c)) /\
  (forall seen d c, w_inv seen d ->
     ((con_step D d c = (d, c)) /\
      (con_returned D d = true \/ (Chan.buf c = [] /\ Chan.closed c = false))) \/
     (con_returned D d = false /\
      exists item rest,
        Chan.buf c = item :: rest /\
        (con_step D d c).2 = {| Chan.buf := rest; Chan.cap := Chan.cap c;
                                Chan.closed := Chan.closed c |} /\
        w_inv (seen ++ [item]) (con_step D d c).1 /\
        con_returned D (con_step D d c).1 = false) \/
     (con_returned D d = false /\ Chan.buf c = [] /\ Chan.closed c = true /\
      (con_step D d c).2 = c /\ con_returned D (con_step D d c).1 = true /\
      w_inv seen (con_step D d c).1)).

(** The invariant and the measure of a network with a caller. *)
Definition sys_inv {T : Type} {N : network T} {D : consumer T} (V : net_view N)
           (w_inv : list T -> con_state D -> Prop) (ys : list T)
           (s : net_state N * chan T * con_state D) : Prop :=
  let '(x, c, d) := s in
  v_inv V x c /\
  exists seen, w_inv seen d /\ seen ++ Chan.buf c ++ v_pend V x = ys /\
    (con_returned D d = true -> seen = ys).

Definition sys_mu {T : Type} {N : network T} {D : consumer T} (V : net_view N)
           (s : net_state N * chan T * con_state D) : nat :=
  let '(x, c, d) := s in
  v_mu V x + length (Chan.buf c) + (if con_returned D d then 0 else 1).

(** The views of the sources and of a stage. *)
Definition slice_view {T : Type} (data : list T) : net_view (slice_net data) :=
  {| v_pend := (pending : net_state (slice_net data) -> list T);
     v_mu := (producer_mu : net_state (slice_net data) -> nat);
     v_inv := fun (g : net_state (slice_net data)) c =>
       Chan.closed c = finished g /\ (pending g = [] \/ 0 < Chan.cap c) |}.

Definition stage_control_mu {R : Type} (st : stage R) : nat :=
  match st with
  | Starting => 3
  | Sequential w => worker_mu w
  | _ => 0
  end.

Definition stage_view {T R : Type} (N : network T)
           (method : stream (chan T) -> goroutine T R * stream (chan R))
           (V : net_view N) : net_view (stage_net N method) :=
  let body := loop_body (method {| source := net_chan N; workers := 1 |}).1 in
  {| v_pend := fun (x : net_state (stage_net N method)) =>
       let '(y, up, st) := x in
       stage_held st ++ omap body (Chan.buf up ++ v_pend V y);
     v_mu := fun (x : net_state (stage_net N method)) =>
       let '(y, up, st) := x in
       3 * (v_mu V y + length (Chan.buf up)) + stage_control_mu st;
     v_inv := fun (x : net_state (stage_net N method)) out =>
       let '(y, up, st) := x in
       v_inv V y up /\ 0 < Chan.cap out /\
       match st with
       | Starting | Sequential WRecv | Sequential (WSend _) => Chan.closed out = false
       | Sequential WExit => Chan.closed out = false /\ drained up
       | Returned => Chan.closed out = true /\ drained up
       | _ => False
       end |}.


(** The view of a chain, stage by stage, and the measure at its start. *)
Fixpoint chain_view {T : Type} (N : network T) (V : net_view N) (ms : list (method T))
  : net_view (chain_net N ms) :=
  match ms return net_view (chain_net N ms) with
  | [] => V
  | MMap f :: ms' => chain_view (Map_net N f) (stage_view N (fun s => Map s f) V) ms'
  | MFilter p :: ms' => chain_view (Filter_net N p) (stage_view N (fun s => Filter s p) V) ms'
  end.

Fixpoint chain_bound {T : Type} (ms : list (method T)) (m : nat) : nat :=
  match ms with
  | [] => m
  | _ :: ms' => chain_bound ms' (3 * m + 3)
  end.

(** What the caller of each terminal operation has made of the elements
    [seen] it has received. *)
Definition collect_seen {T : Type} (seen : list T) (m : @collect_state T) : Prop :=
  match m with
  | CLoop result => elems result = seen /\ result <> Some []
  | CReturn result err => elems result = seen /\ result <> Some [] /\ err = None
  end.

Definition reduce_seen {T : Type} (zero : T) (fn : T -> T -> T) (seen : list T)
           (m : @reduce_state T) : Prop :=
  match m with
  | RLoop result first calls =>
      first = is_nil seen /\ (result, calls) = fold_seen zero fn seen
  | RReturn result err calls =>
      (result, calls) = fold_seen zero fn seen /\
      err = (if is_nil seen then Some ErrEmptyStream else None)
  end.

Definition foreach_seen {T W : Type} (fn : T -> W -> W) (env : W) (seen : list T)
           (d : foreach_state * W * list T) : Prop :=
  let '(st, w, calls) := d in
  calls = seen /\ w = fold_left (fun w item => fn item w) seen env /\
  match st with FLoop => True | FReturn err => err = None end.

(** The view of the goroutine of [Generator(gen)], for a closure that
    yields [vs]: what it holds and what [gen] has not returned yet. *)
Definition generator_todo {T : Type} (vs : list T) (calls : nat) (go : @generating T)
  : list T :=
  match go with
  | GCall | GSend _ => drop calls vs
  | GReturn | GFinished => []
  end.

Definition generator_view {T G : Type} (gen : G -> T * bool * G) (g : G) (vs : list T)
  : net_view (generator_net gen g) :=
  {| v_pend := (fun x => gen_held x.2 ++ generator_todo vs x.1.2 x.2)
               : net_state (generator_net gen g) -> list T;
     v_mu := (fun x =>
                3 * (S (length vs) - x.1.2) +
                match x.2 with GCall => 0 | GSend _ => 2 | GReturn => 1 | GFinished => 0 end)
             : net_state (generator_net gen g) -> nat;
     v_inv := fun (x : net_state (generator_net gen g)) c =>
       Chan.cap c = 1 /\
       match x.2 with
       | GCall | GSend _ =>
           yields gen x.1.1 (drop x.1.2 vs) /\ x.1.2 <= length vs /\ Chan.closed c = false
       | GReturn => x.1.2 = S (length vs) /\ Chan.closed c = false
       | GFinished => Chan.closed c = true
       end |}.

(** * Proofs *)

(** ** Schedules *)

Section SchedulerFacts.
Context {state pid : Type}.
Variable step : pid -> state -> state.

Lemma run_app (a b : list pid) (s : state) :
  run step (a ++ b) s = run step b (run step a s).
Proof. apply fold_left_app. Qed.

Variable inv : state -> Prop.
Hypothesis inv_step : forall p s, inv s -> inv (step p s).

Lemma run_inv (sched : list pid) (s : state) : inv s -> inv (run step sched s).
Proof. revert s. induction sched as [|p sched IH]; simpl; auto. Qed.

Variable mu : state -> nat.
Variable returned : state -> bool.
Variable pids : list pid.
Hypothesis step_mu : forall p s, inv s -> step p s = s \/ mu (step p s) < mu s.
Hypothesis progress :
  forall s, inv s -> returned s = false -> exists p, In p pids /\ step p s <> s.
Hypothesis returned_step : forall p s, returned s = true -> returned (step p s) = true.

Lemma run_mu_le (sched : list pid) (s : state) : inv s -> mu (run step sched s) <= mu s.
Proof.
  revert s. induction sched as [|p sched IH]; simpl; intros s Hs; [lia|].
  specialize (IH (step p s) (inv_step p s Hs)).
  destruct (step_mu p s Hs) as [E|L]; [rewrite E in *|]; lia.
Qed.

Lemma run_returned (sched : list pid) (s : state) :
  returned s = true -> returned (run step sched s) = true.
Proof. revert s. induction sched as [|p sched IH]; simpl; auto. Qed.

Lemma round_mu (round : list pid) (s : state) (p : pid) :
  inv s -> In p round -> step p s <> s -> mu (run step round s) < mu s.
Proof.
  revert s. induction round as [|q round IH]; simpl; intros s Hs Hin Hp; [tauto|].
  pose proof (run_mu_le round (step q s) (inv_step q s Hs)) as Hle.
  destruct (step_mu q s Hs) as [E|L]; [|lia].
  destruct Hin as [->|Hin]; [congruence|].
  rewrite E. apply IH; auto.
Qed.

(** Every sequence of fair rounds that is at least as long as the measure
    of the state brings the system to a state where the caller has
    returned. *)
Theorem fair_rounds_return (rounds : list (list pid)) (s : state) :
  inv s -> Forall (fair pids) rounds -> mu s <= length rounds ->
  returned (run step (concat rounds) s) = true.
Proof.
  revert s. induction rounds as [|r rounds IH]; simpl; intros s Hs Hf Hmu.
  - destruct (returned s) eqn:R; [reflexivity|].
    destruct (progress s Hs R) as (p & _ & Hp).
    destruct (step_mu p s Hs); [tauto|lia].
  - rewrite run_app. inversion Hf as [|? ? Hr Hrs]; subst.
    destruct (returned s) eqn:R.
    + apply run_returned, run_returned, R.
    + destruct (progress s Hs R) as (p & Hin & Hp).
      apply IH; [apply run_inv, Hs|assumption|].
      pose proof (round_mu r s p Hs (Hr p Hin) Hp). lia.
Qed.
End SchedulerFacts.

(** ** Channels and sources *)

(** Case analysis on the channel operations of a step. *)
#[local] Ltac chan_cases :=
  simpl in *; unfold Chan.send, Chan.recv, Chan.close in *; simpl in *;
  repeat match goal with
  | |- context [Nat.ltb ?a ?b] => destruct (Nat.ltb_spec a b); simpl in *
  | |- context [match ?l with [] => _ | _ :: _ => _ end] =>
      is_var l; destruct l; simpl in *
  | |- context [if ?b then _ else _] => is_var b; destruct b; simpl in *
  end.

(** A step either leaves the state as it is or lowers the measure. *)
#[local] Ltac stutter_or_less :=
  first [ left; reflexivity
        | right; simpl; rewrite ?length_app; simpl; lia ].

(** ** Reduce *)

Section ReduceFacts.
Context {T : Type}.
Variable zero : T.
Variable fn : T -> T -> T.

Lemma reduce_inv_start (xs : list T) (n : nat) :
  reduce_inv zero fn xs n (reduce_start zero xs n).
Proof.
  unfold reduce_inv, source_ok; simpl. repeat split; try lia.
  exists []. simpl. auto.
Qed.

Lemma reduce_inv_step (xs : list T) (n : nat) (p : pid2) (s : @reduce_sys T) :
  reduce_inv zero fn xs n s -> reduce_inv zero fn xs n (reduce_step fn p s).
Proof.
  destruct s as [g [b k cl] m]. unfold reduce_inv, source_ok. simpl.
  intros ((Hcl & Hlen) & Hcap & seen & Hxs & Hm). destruct p; simpl.
  - (* the source goroutine *)
    destruct g as [[|item rest]|]; simpl in *; subst cl;
      unfold Chan.send; simpl; try destruct (Nat.ltb_spec (length b) k); simpl;
      rewrite ?length_app; simpl; (repeat split; auto; try lia);
      exists seen; rewrite <- ?app_assoc; auto.
  - (* the caller of Reduce *)
    destruct m as [result first calls|result err calls]; simpl.
    2:{ repeat split; auto. exists seen. auto. }
    destruct Hm as [Hf Hr]. unfold Chan.recv; simpl.
    destruct b as [|item b]; simpl in *.
    + destruct cl; simpl.
      * destruct g; [discriminate|].
        simpl in Hxs. rewrite app_nil_r in Hxs. subst seen.
        destruct first; simpl; (repeat split; auto; exists xs; simpl;
          rewrite ?app_nil_r; repeat split; auto; rewrite <- Hf; reflexivity).
      * repeat split; auto. exists seen. auto.
    + destruct seen as [|x0 seen0]; simpl in Hf, Hr; subst first;
        inversion Hr; subst result calls; simpl.
      * repeat split; auto; try lia. exists [item]. simpl. auto.
      * repeat split; auto; try lia. exists ((x0 :: seen0) ++ [item]).
        split; [rewrite <- app_assoc; exact Hxs|]. simpl.
        rewrite fold_left_app, length_app. simpl. split; auto. f_equal. lia.
Qed.

Lemma reduce_step_mu (p : pid2) (s : @reduce_sys T) :
  reduce_step fn p s = s \/ reduce_mu (reduce_step fn p s) < reduce_mu s.
Proof.
  destruct s as [g [b k cl] m]. unfold reduce_mu, reduce_returned.
  destruct p; simpl.
  - destruct g as [[|item rest]|]; chan_cases; stutter_or_less.
  - destruct m as [result first calls|]; chan_cases; stutter_or_less.
Qed.

Lemma reduce_progress (xs : list T) (n : nat) (s : @reduce_sys T) :
  xs = [] \/ 0 < n ->
  reduce_inv zero fn xs n s -> reduce_returned s = false ->
  exists p, In p [GSource; GMain] /\ reduce_step fn p s <> s.
Proof.
  intros Hn. destruct s as [g [b k cl] m]. unfold reduce_inv, source_ok, reduce_returned.
  simpl. intros ((Hcl & Hlen) & Hcap & seen & Hxs & Hm) R.
  destruct m as [result first calls|]; [|discriminate].
  destruct b as [|item b].
  - destruct cl.
    + exists GMain. split; [simpl; auto|]. unfold Chan.recv; simpl.
      destruct first; simpl; intros E; inversion E.
    + exists GSource. split; [simpl; auto|].
      destruct g as [[|item rest]|]; simpl.
      * intros E; inversion E.
      * unfold Chan.send; simpl.
        destruct Hn as [->|Hn]; [destruct seen; discriminate|].
        destruct (Nat.ltb_spec 0 k); [|lia]. intros E; inversion E.
      * discriminate.
  - exists GMain. split; [simpl; auto|]. unfold Chan.recv; simpl.
    destruct first; simpl; intros E; inversion E as [[E1 E2]];
      apply (f_equal (@length T)) in E1; simpl in E1; lia.
Qed.

Lemma reduce_returned_step (p : pid2) (s : @reduce_sys T) :
  reduce_returned s = true -> reduce_returned (reduce_step fn p s) = true.
Proof.
  destruct s as [g c m]. unfold reduce_returned. destruct p; simpl.
  - destruct (producer_step g c); simpl; auto.
  - destruct m; simpl; [discriminate|auto].
Qed.

(** [Reduce] returns under every fair schedule. *)
Lemma Reduce_returns (xs : list T) (n : nat) (rounds : list (list pid2)) :
  xs = [] \/ 0 < n ->
  Forall (fair [GSource; GMain]) rounds ->
  2 * length xs + 2 <= length rounds ->
  reduce_returned (run (reduce_step fn) (concat rounds) (reduce_start zero xs n)) = true.
Proof.
  intros Hn Hf Hlen.
  apply (fair_rounds_return (reduce_step fn) (reduce_inv zero fn xs n)
           (reduce_inv_step xs n) reduce_mu reduce_returned [GSource; GMain]); auto.
  - intros p s _. apply reduce_step_mu.
  - intros s. apply reduce_progress, Hn.
  - apply reduce_returned_step.
  - apply reduce_inv_start.
  - unfold reduce_mu; simpl. lia.
Qed.

(** Whatever the schedule, what [Reduce] returns is determined by the
    elements of the source. *)
Lemma Reduce_result (xs : list T) (n : nat) (sched : list pid2)
      (result : T) (err : option error) (calls : nat) :
  r_main (run (reduce_step fn) sched (reduce_start zero xs n)) = RReturn result err calls ->
  (result, calls) = fold_seen zero fn xs /\
  err = (if is_nil xs then Some ErrEmptyStream else None).
Proof.
  intros E.
  pose proof (run_inv (reduce_step fn) (reduce_inv zero fn xs n) (reduce_inv_step xs n)
                sched _ (reduce_inv_start xs n)) as (_ & _ & seen & _ & Hm).
  rewrite E in Hm. tauto.
Qed.
End ReduceFacts.


(** ** ForEach *)

Section ForEachFacts.
Context {T W : Type}.
Variable fn : T -> W -> W.

Lemma foreach_inv_start (xs : list T) (n : nat) (env : W) :
  foreach_inv fn xs n env (foreach_start xs n env).
Proof. unfold foreach_inv, source_ok; simpl. repeat split; auto; lia. Qed.

Lemma foreach_inv_step (xs : list T) (n : nat) (env : W) (p : pid2) (s : @foreach_sys T W) :
  foreach_inv fn xs n env s -> foreach_inv fn xs n env (foreach_step fn p s).
Proof.
  destruct s as [g [b k cl] w calls m]. unfold foreach_inv, source_ok. simpl.
  intros ((Hcl & Hlen) & Hcap & Hxs & Hw & Hm). destruct p; simpl.
  - destruct g as [[|item rest]|]; simpl in *; subst cl;
      unfold Chan.send; simpl; try destruct (Nat.ltb_spec (length b) k); simpl;
      rewrite ?length_app; simpl; rewrite <- ?app_assoc; repeat split; auto; lia.
  - destruct m as [|err]; simpl; [|destruct Hm; repeat split; auto].
    unfold Chan.recv; simpl. destruct b as [|item b]; simpl in *.
    + destruct cl; simpl; repeat split; auto.
      destruct g; [discriminate|]. simpl in Hxs. rewrite app_nil_r in Hxs. exact Hxs.
    + repeat split; auto; try lia.
      * rewrite <- app_assoc. exact Hxs.
      * rewrite fold_left_app. simpl. congruence.
Qed.

Lemma foreach_step_mu (p : pid2) (s : @foreach_sys T W) :
  foreach_step fn p s = s \/ foreach_mu (foreach_step fn p s) < foreach_mu s.
Proof.
  destruct s as [g [b k cl] w calls m]. unfold foreach_mu, foreach_returned.
  destruct p; simpl.
  - destruct g as [[|item rest]|]; chan_cases; stutter_or_less.
  - destruct m as [|err]; chan_cases; stutter_or_less.
Qed.

Lemma foreach_progress (xs : list T) (n : nat) (env : W) (s : @foreach_sys T W) :
  xs = [] \/ 0 < n ->
  foreach_inv fn xs n env s -> foreach_returned s = false ->
  exists p, In p [GSource; GMain] /\ foreach_step fn p s <> s.
Proof.
  intros Hn. destruct s as [g [b k cl] w calls m].
  unfold foreach_inv, source_ok, foreach_returned. simpl.
  intros ((Hcl & Hlen) & Hcap & Hxs & Hw & Hm) R.
  destruct m as [|err]; [|discriminate].
  destruct b as [|item b].
  - destruct cl.
    + exists GMain. split; [simpl; auto|]. unfold Chan.recv; simpl. intros E; inversion E.
    + exists GSource. split; [simpl; auto|].
      destruct g as [[|item rest]|]; simpl; [intros E; inversion E| |discriminate].
      unfold Chan.send; simpl.
      destruct Hn as [->|Hn]; [destruct calls; discriminate|].
      destruct (Nat.ltb_spec 0 k); [|lia]. intros E; inversion E.
  - exists GMain. split; [simpl; auto|]. unfold Chan.recv; simpl.
    intros E; inversion E as [[E1 E2 E3]].
    apply (f_equal (@length T)) in E1; simpl in E1; lia.
Qed.

Lemma foreach_returned_step (p : pid2) (s : @foreach_sys T W) :
  foreach_returned s = true -> foreach_returned (foreach_step fn p s) = true.
Proof.
  destruct s as [g c w calls m]. unfold foreach_returned. destruct p; simpl.
  - destruct (producer_step g c); simpl; auto.
  - destruct m; simpl; [discriminate|auto].
Qed.

(** [ForEach] returns under every fair schedule. *)
Lemma ForEach_returns (xs : list T) (n : nat) (env : W) (rounds : list (list pid2)) :
  xs = [] \/ 0 < n ->
  Forall (fair [GSource; GMain]) rounds ->
  2 * length xs + 2 <= length rounds ->
  foreach_returned (run (foreach_step fn) (concat rounds) (foreach_start xs n env)) = true.
Proof.
  intros Hn Hf Hlen.
  apply (fair_rounds_return (foreach_step fn) (foreach_inv fn xs n env)
           (foreach_inv_step xs n env) foreach_mu foreach_returned [GSource; GMain]); auto.
  - intros p s _. apply foreach_step_mu.
  - intros s. apply foreach_progress, Hn.
  - apply foreach_returned_step.
  - apply foreach_inv_start.
  - unfold foreach_mu; simpl. lia.
Qed.

Lemma ForEach_reachable (xs : list T) (n : nat) (env : W) (sched : list pid2) :
  foreach_inv fn xs n env (run (foreach_step fn) sched (foreach_start xs n env)).
Proof. apply run_inv; [apply foreach_inv_step|apply foreach_inv_start]. Qed.
End ForEachFacts.


(** ** Collect *)

Section CollectFacts.
Context {T : Type}.

Lemma append_not_empty (result : @slice T) (item : T) : append result item <> Some [].
Proof. unfold append. intros E. inversion E as [E1]. destruct (elems result); discriminate. Qed.

Lemma elems_nil (result : @slice T) : result <> Some [] -> elems result = [] -> result = None.
Proof. destruct result as [l|]; simpl; [|reflexivity]. intros H ->. congruence. Qed.

Lemma collect_inv_start (xs : list T) (n : nat) (ctx : context) :
  collect_inv xs n (collect_start xs n ctx).
Proof. unfold collect_inv, source_ok; simpl. repeat split; auto; try lia. Qed.

Lemma collect_inv_step (xs : list T) (n : nat) (p : pid3) (s : @collect_sys T) :
  collect_inv xs n s -> collect_inv xs n (collect_step p s).
Proof.
  destruct s as [g [b k cl] ctx m]. unfold collect_inv, source_ok. simpl.
  intros ((Hcl & Hlen) & Hcap & Hm). destruct p as [|pk|e]; simpl.
  - (* the source goroutine *)
    destruct g as [[|item rest]|]; simpl in *; subst cl;
      unfold Chan.send; simpl; try destruct (Nat.ltb_spec (length b) k); simpl;
      rewrite ?length_app; simpl; (repeat split; auto; try lia);
      destruct m; rewrite <- ?app_assoc; simpl; auto.
  - (* the caller of Collect *)
    destruct m as [result|result err]; simpl; [|auto].
    destruct Hm as [Hxs Hres].
    unfold recv_ready, Collect_case_recv, Collect_case_done, Chan.recv; simpl.
    destruct b as [|item b]; [destruct cl|]; destruct ctx as [e|]; try destruct pk;
      simpl in *; repeat split; auto; try lia;
      try (right; repeat split; reflexivity);
      try apply append_not_empty;
      try (rewrite <- app_assoc; exact Hxs).
    all: destruct g; [discriminate|]; simpl in Hxs; rewrite app_nil_r in Hxs; auto.
  - (* the signal fires *)
    repeat split; auto. destruct m as [result|result err]; [exact Hm|].
    destruct Hm as [Hm|(Hd & He & Hr)]; [left; exact Hm|right].
    destruct ctx; [|discriminate]. auto.
Qed.

Lemma collect_quiet_inv_step (xs : list T) (n : nat) (p : pid2) (s : @collect_sys T) :
  collect_quiet_inv xs n s -> collect_quiet_inv xs n (collect_quiet_step p s).
Proof.
  intros [Hi Hc]. split; [apply collect_inv_step, Hi|].
  destruct s as [g c ctx m]. unfold collect_quiet_step. simpl in *. destruct p; simpl.
  - destruct (producer_step g c); exact Hc.
  - destruct (Collect_step ctx PickRecv m c); exact Hc.
Qed.

Lemma collect_step_mu (p : pid2) (s : @collect_sys T) :
  collect_quiet_step p s = s \/ collect_mu (collect_quiet_step p s) < collect_mu s.
Proof.
  destruct s as [g [b k cl] ctx m]. unfold collect_mu, collect_returned, collect_quiet_step.
  destruct p; simpl.
  - destruct g as [[|item rest]|]; chan_cases; stutter_or_less.
  - destruct m as [result|]; [|left; reflexivity]. simpl.
    unfold recv_ready, Collect_case_recv, Collect_case_done, Chan.recv; simpl.
    destruct b as [|item b]; [destruct cl|]; destruct ctx; simpl; stutter_or_less.
Qed.

Lemma collect_progress (xs : list T) (n : nat) (s : @collect_sys T) :
  xs = [] \/ 0 < n ->
  collect_quiet_inv xs n s -> collect_returned s = false ->
  exists p, In p [GSource; GMain] /\ collect_quiet_step p s <> s.
Proof.
  intros Hn. destruct s as [g [b k cl] ctx m].
  unfold collect_quiet_inv, collect_inv, source_ok, collect_returned, collect_quiet_step.
  simpl. intros (((Hcl & Hlen) & Hcap & Hm) & ->) R.
  destruct m as [result|]; [|discriminate]. destruct Hm as [Hxs Hres].
  destruct b as [|item b].
  - destruct cl.
    + exists GMain. split; [simpl; auto|]. simpl. intros E; inversion E.
    + exists GSource. split; [simpl; auto|].
      destruct g as [[|item rest]|]; simpl; [intros E; inversion E| |discriminate].
      unfold Chan.send; simpl.
      destruct Hn as [->|Hn]; [destruct (elems result); discriminate|].
      destruct (Nat.ltb_spec 0 k); [|lia]. intros E; inversion E.
  - exists GMain. split; [simpl; auto|]. simpl.
    intros E; inversion E as [[E1 E2]].
    apply (f_equal (@length T)) in E1; simpl in E1; lia.
Qed.

Lemma collect_returned_step (p : pid2) (s : @collect_sys T) :
  collect_returned s = true -> collect_returned (collect_quiet_step p s) = true.
Proof.
  destruct s as [g c ctx m]. unfold collect_returned, collect_quiet_step.
  destruct p; simpl.
  - destruct (producer_step g c); simpl; auto.
  - destruct m; simpl; [discriminate|auto].
Qed.

(** With a context that is never done, [Collect] returns under every fair
    schedule. *)
Lemma Collect_returns (xs : list T) (n : nat) (rounds : list (list pid2)) :
  xs = [] \/ 0 < n ->
  Forall (fair [GSource; GMain]) rounds ->
  2 * length xs + 2 <= length rounds ->
  collect_returned
    (run collect_quiet_step (concat rounds) (collect_start xs n Background)) = true.
Proof.
  intros Hn Hf Hlen.
  apply (fair_rounds_return collect_quiet_step (collect_quiet_inv xs n)
           (collect_quiet_inv_step xs n) collect_mu collect_returned [GSource; GMain]); auto.
  - intros p s _. apply collect_step_mu.
  - intros s. apply collect_progress, Hn.
  - apply collect_returned_step.
  - split; [apply collect_inv_start|reflexivity].
  - unfold collect_mu; simpl. lia.
Qed.

Lemma Collect_quiet_reachable (xs : list T) (n : nat) (sched : list pid2) :
  collect_quiet_inv xs n (run collect_quiet_step sched (collect_start xs n Background)).
Proof.
  apply run_inv; [apply collect_quiet_inv_step|].
  split; [apply collect_inv_start|reflexivity].
Qed.

Lemma Collect_reachable (xs : list T) (n : nat) (ctx : context) (sched : list pid3) :
  collect_inv xs n (run collect_step sched (collect_start xs n ctx)).
Proof. apply run_inv; [apply collect_inv_step|apply collect_inv_start]. Qed.
End CollectFacts.


(** ** Map and Filter *)

Lemma pool_split {A : Type} (l : list A) (i : nat) (x : A) :
  l !! i = Some x ->
  exists l1 l2, l = l1 ++ x :: l2 /\ forall y, <[i := y]> l = l1 ++ y :: l2.
Proof.
  revert i. induction l as [|a l IH]; intros [|i]; simpl; try discriminate.
  - intros [= ->]. exists [], l. split; auto.
  - intros H. destruct (IH i H) as (l1 & l2 & -> & Hins).
    exists (a :: l1), l2. split; auto. intros y. simpl. rewrite Hins. reflexivity.
Qed.

Lemma omap_Some_map {A B : Type} (f : A -> B) (l : list A) :
  omap (fun item => Some (f item)) l = map f l.
Proof. induction l as [|a l IH]; csimpl; [reflexivity|]. rewrite IH. reflexivity. Qed.

Lemma omap_if_filter {A : Type} (f : A -> bool) (l : list A) :
  omap (fun item => if f item then Some item else None) l = List.filter f l.
Proof.
  induction l as [|a l IH]; csimpl; [reflexivity|].
  destruct (f a); csimpl; rewrite IH; reflexivity.
Qed.

Section StageFacts.
Context {T R : Type}.
Variable body : T -> option R.

(** What a step of a loop can be: nothing (blocked or finished), the
    receive of an element, the end of the loop, or a send. *)
Lemma worker_step_cases (w : worker R) (up : chan T) (out : chan R) :
  worker_step body w up out = (w, up, out) \/
  (exists item rest,
     w = WRecv /\ Chan.buf up = item :: rest /\
     worker_step body w up out =
       (match body item with Some r => WSend r | None => WRecv end,
        {| Chan.buf := rest; Chan.cap := Chan.cap up; Chan.closed := Chan.closed up |},
        out)) \/
  (w = WRecv /\ drained up /\ worker_step body w up out = (WExit, up, out)) \/
  (exists r,
     w = WSend r /\ Chan.closed out = false /\ length (Chan.buf out) < Chan.cap out /\
     worker_step body w up out =
       (WRecv, up,
        {| Chan.buf := Chan.buf out ++ [r]; Chan.cap := Chan.cap out;
           Chan.closed := Chan.closed out |})).
Proof.
  destruct up as [b c cl], out as [b' c' cl']. unfold drained.
  destruct w as [|r| |]; simpl; auto.
  - unfold Chan.recv; simpl. destruct b as [|item rest]; [destruct cl|]; auto.
    + right. right. left. auto.
    + right. left. exists item, rest. destruct (body item); auto.
  - unfold Chan.send; simpl. destruct cl'; auto.
    destruct (Nat.ltb_spec (length b') c'); auto.
    right. right. right. exists r. auto.
Qed.

Lemma worker_step_mu (w : worker R) (up : chan T) (out : chan R) :
  worker_step body w up out = (w, up, out) \/
  worker_mu (worker_step body w up out).1.1 +
  3 * length (Chan.buf (worker_step body w up out).1.2) +
  length (Chan.buf (worker_step body w up out).2)
  < worker_mu w + 3 * length (Chan.buf up) + length (Chan.buf out).
Proof.
  destruct (worker_step_cases w up out)
    as [E|[(item & rest & -> & Hb & E)|[(-> & _ & E)|(r & -> & _ & _ & E)]]];
    [left; exact E|right; rewrite E; simpl..].
  - rewrite Hb. destruct (body item); simpl; lia.
  - lia.
  - rewrite length_app. simpl. lia.
Qed.

Lemma pool_mu_insert (pool : list (worker R)) (i : nat) (w w' : worker R) :
  pool !! i = Some w ->
  pool_mu (<[i := w']> pool) + worker_mu w = pool_mu pool + worker_mu w'.
Proof.
  intros H. destruct (pool_split pool i w H) as (l1 & l2 & -> & Hins).
  rewrite Hins. unfold pool_mu. rewrite !map_app, !list_sum_app. simpl. lia.
Qed.

Lemma pipe_step_mu (p : pidN) (s : pipe_sys T R) :
  loop_body (p_go s) = body ->
  pipe_step p s = s \/ pipe_mu (pipe_step p s) < pipe_mu s.
Proof.
  destruct s as [g [up n] [bd st] pool wg [out n'] m]. simpl. intros ->.
  unfold pipe_mu, pipe_returned. destruct p as [| |i|]; simpl.
  - (* the source *)
    destruct up as [b c cl].
    destruct g as [[|item rest]|]; chan_cases; stutter_or_less.
  - (* the goroutine of the stage *)
    unfold stage_step, with_stage; simpl. destruct st as [|w|i| |]; simpl.
    + destruct (Z.eqb_spec n 1); simpl; right; lia.
    + pose proof (worker_step_mu w up out) as Hw.
      destruct w as [|r| |]; [| |right; simpl; lia|left; reflexivity];
        (destruct Hw as [E|L]; [left; rewrite E; reflexivity|right]);
        destruct (worker_step body _ up out) as [[w' up'] out']; simpl in *; lia.
    + destruct (Z.ltb_spec i n); simpl; right.
      * unfold pool_mu. rewrite map_app, list_sum_app. simpl. lia.
      * lia.
    + destruct (Nat.eqb_spec wg 0); simpl; [right; lia|left; reflexivity].
    + left. reflexivity.
  - (* a worker *)
    unfold pool_step, with_stage; simpl.
    destruct (pool !! i) as [w|] eqn:Hi; [|left; reflexivity].
    pose proof (worker_step_mu w up out) as Hw.
    destruct w as [|r| |].
    1,2: destruct Hw as [E|L];
         [left; rewrite E; rewrite list_insert_id by exact Hi; reflexivity|right];
         destruct (worker_step body _ up out) as [[w' up'] out']; simpl in *;
         pose proof (pool_mu_insert pool i _ w' Hi); simpl in *; lia.
    + right. pose proof (pool_mu_insert pool i _ WDone Hi). simpl in *. lia.
    + left. simpl. rewrite list_insert_id by exact Hi. reflexivity.
  - (* the caller of Collect *)
    destruct out as [b c cl]. destruct m as [result|]; [|left; reflexivity]. simpl.
    unfold recv_ready, Collect_case_recv, Chan.recv; simpl.
    destruct b as [|item b]; [destruct cl|]; simpl; stutter_or_less.
Qed.
End StageFacts.

Lemma perm_received {A : Type} (a b c l1 l2 o : list A) (r : A) :
  Permutation (a ++ b ++ c ++ (l1 ++ r :: l2) ++ o) (a ++ b ++ c ++ (l1 ++ l2) ++ r :: o).
Proof.
  do 3 apply Permutation_app_head. rewrite <- !app_assoc. apply Permutation_app_head.
  simpl. apply Permutation_middle.
Qed.

Lemma perm_sent {A : Type} (a b c l1 l2 o : list A) (r : A) :
  Permutation (a ++ (b ++ [r]) ++ c ++ (l1 ++ l2) ++ o) (a ++ b ++ c ++ (l1 ++ r :: l2) ++ o).
Proof.
  apply Permutation_app_head. rewrite <- app_assoc. apply Permutation_app_head. simpl.
  etransitivity; [apply Permutation_middle|]. apply Permutation_app_head.
  rewrite <- !app_assoc. simpl. apply Permutation_middle.
Qed.

Section PipelineInvariant.
Context {T R : Type}.
Variable body : T -> option R.
Variable n : Z.
Variable xs : list T.
Variable k : nat.
Hypothesis n_pos : (1 <= n)%Z.

Lemma running_none_done (pool : list (worker R)) :
  length (List.filter running pool) = 0 -> Forall (eq WDone) pool.
Proof.
  induction pool as [|w pool IH]; simpl; [constructor|].
  destruct w; simpl; try discriminate. intros H. constructor; auto.
Qed.

Lemma pipe_inv_source (s : pipe_sys T R) :
  pipe_inv body n xs k s -> pipe_inv body n xs k (pipe_step PSource s).
Proof.
  destruct s as [g [[b c cl] nn] [bd st] pool wg [out n'] m].
  unfold pipe_inv, source_ok, stage_ok, main_ok, contents, drained. simpl.
  intros ((-> & -> & Hk & Hcap) & (Hcl & Hlen) & (Hwg & Hex & Hone & Hst) & Hm & Hperm & Heq).
  destruct g as [[|item rest]|]; simpl in *; subst cl.
  - (* the deferred close *)
    repeat split; auto.
    + eapply Forall_impl; [exact Hex|]. simpl. intros w Hw Hx.
      destruct (Hw Hx); discriminate.
    + destruct st as [|w|i| |]; intuition discriminate.
  - (* a send *)
    unfold Chan.send; simpl. destruct (Nat.ltb_spec (length b) c); simpl.
    2:{ repeat split; auto. }
    rewrite length_app. simpl. rewrite <- !app_assoc. simpl.
    repeat split; auto; try lia.
    + eapply Forall_impl; [exact Hex|]. simpl. intros w Hw Hx.
      destruct (Hw Hx); discriminate.
    + destruct st as [|w|i| |]; intuition discriminate.
  - repeat split; auto.
Qed.
Lemma pipe_inv_main (s : pipe_sys T R) :
  pipe_inv body n xs k s -> pipe_inv body n xs k (pipe_step PMain s).
Proof.
  destruct s as [g [up nn] [bd st] pool wg [[b c cl] n'] m].
  unfold pipe_inv, stage_ok, main_ok, contents. simpl.
  intros ((-> & -> & Hk & Hcap) & Hsrc & (Hwg & Hex & Hone & Hst) & Hm & Hperm & Heq).
  destruct Hsrc as [Hs1 Hs2].
  destruct m as [result|result err]; simpl;
    [|destruct Hm as (? & ? & ?); repeat split; auto].
  unfold recv_ready, Collect_case_recv, Chan.recv; simpl.
  destruct b as [|item b]; [destruct cl|]; simpl in *; repeat split; auto.
  - rewrite <- app_assoc. exact Hperm.
  - rewrite <- app_assoc. exact Heq.
Qed.
Lemma pipe_inv_stage (s : pipe_sys T R) :
  pipe_inv body n xs k s -> pipe_inv body n xs k (pipe_step PStage s).
Proof.
  destruct s as [g [up nn] [bd st] pool wg [out n'] m].
  unfold pipe_inv, source_ok, stage_ok, main_ok, contents. simpl.
  intros ((-> & -> & Hk & Hcap) & (Hs1 & Hs2) & (Hwg & Hex & Hone & Hst) & Hm & Hperm & Heq).
  unfold stage_step, with_stage; simpl.
  destruct st as [|w|i| |]; simpl in *.
  - (* the test s.workers == 1 *)
    destruct Hst as [-> Ho].
    destruct (Z.eqb_spec n 1); simpl; repeat split; auto; try lia; discriminate.
  - (* the sequential loop *)
    destruct Hst as (Hn1 & Ho & Hw & Hdr). pose proof (Hone Hn1) as ->.
    destruct w as [|r| |]; [| | |congruence].
    3:{ (* return: the deferred close *)
        destruct (Hdr eq_refl) as [Hd1 Hd2]. unfold drained in *. simpl.
        repeat split; auto; try congruence.
        destruct m; [exact I|]. destruct Hm as (_ & Hm & _). congruence. }
    all: match goal with |- context [worker_step _ ?w ?u ?o] =>
        destruct (worker_step_cases body w u o)
          as [E|[(item & rest & Hweq & Hb & E)|[(Hweq & Hd & E)|(r' & Hweq & Hc & Hl & E)]]]
      end; rewrite E; clear E; try discriminate; simpl.
    + repeat split; auto; try discriminate.
    + (* an element is received *)
      destruct up as [b c cl]. simpl in *. subst b. simpl in *.
      destruct (body item) as [r|]; simpl in *; repeat split; auto; try lia; discriminate.
    + (* the source is closed *)
      repeat split; auto; apply Hd.
    + repeat split; auto; try discriminate.
    + (* a send *)
      inversion Hweq; subst r'. destruct out as [b c cl]. simpl in *.
      repeat split; auto; try discriminate.
      { destruct m; [exact I|]. destruct Hm as (_ & Hm & _). congruence. }
      { rewrite <- app_assoc. exact Hperm. }
      { rewrite <- app_assoc. exact Heq. }
  - (* the loop that starts the workers *)
    destruct Hst as (Hn1 & Hi & Hlen & Ho).
    destruct (Z.ltb_spec i n); simpl.
    + rewrite List.filter_app, !length_app. simpl. unfold holds in *.
      rewrite flat_map_app. simpl. rewrite app_nil_r.
      repeat split; auto; try lia;
        try (apply Forall_app; split; [exact Hex|]; constructor; [discriminate|constructor]);
        try (intros E; destruct pool; discriminate).
    + repeat split; auto; lia.
  - (* wg.Wait() *)
    destruct Hst as (Hn1 & Hlen & Ho).
    destruct (Nat.eqb_spec wg 0) as [Hz|Hz]; simpl; [|repeat split; auto].
    assert (Hdone : Forall (eq WDone) pool) by (apply running_none_done; lia).
    assert (Hdr : drained up).
    { destruct pool as [|w pool]; [simpl in Hlen; lia|].
      inversion Hdone; subst. inversion Hex; subst. auto. }
    repeat split; auto; try apply Hdr.
    destruct m; [exact I|]. destruct Hm as (_ & Hm & _). congruence.
  - repeat split; auto; apply Hst.
Qed.
Lemma Forall_exited_weaken (up up' : chan T) (pool : list (worker R)) :
  (drained up -> drained up') ->
  Forall (fun w => exited w = true -> drained up) pool ->
  Forall (fun w => exited w = true -> drained up') pool.
Proof. intros H HF. eapply Forall_impl; [exact HF|]. simpl. auto. Qed.

Lemma pipe_inv_worker (i : nat) (s : pipe_sys T R) :
  pipe_inv body n xs k s -> pipe_inv body n xs k (pipe_step (PWorker i) s).
Proof.
  destruct s as [g [up nn] [bd st] pool wg [out n'] m].
  unfold pipe_inv, source_ok, stage_ok, main_ok, contents. simpl.
  intros ((-> & -> & Hk & Hcap) & (Hs1 & Hs2) & (Hwg & Hex & Hone & Hst) & Hm & Hperm & Heq).
  unfold pool_step, with_stage; simpl.
  destruct (pool !! i) as [w|] eqn:Hi; [|repeat split; auto].
  assert (Hw : w = WDone \/ w = WExit \/ w = WRecv \/ exists r, w = WSend r)
    by (destruct w; eauto).
  destruct Hw as [->|Hw].
  { (* a finished worker *)
    simpl. rewrite list_insert_id by exact Hi. repeat split; auto. }
  assert (Hn1 : n <> 1%Z) by (intros E; rewrite (Hone E) in Hi; discriminate).
  assert (Hseq : forall w0, st <> Sequential w0)
    by (intros w0 ->; destruct Hst as [E _]; contradiction).
  destruct (pool_split pool i w Hi) as (l1 & l2 & Hpool & Hins).
  assert (Hcases :
    worker_step body w up out = (w, up, out) \/
    (exists item rest, w = WRecv /\ Chan.buf up = item :: rest /\
       worker_step body w up out =
         (match body item with Some r => WSend r | None => WRecv end,
          {| Chan.buf := rest; Chan.cap := Chan.cap up; Chan.closed := Chan.closed up |},
          out)) \/
    (w = WRecv /\ drained up /\ worker_step body w up out = (WExit, up, out)) \/
    (exists r, w = WSend r /\ Chan.closed out = false /\
       length (Chan.buf out) < Chan.cap out /\
       worker_step body w up out =
         (WRecv, up, {| Chan.buf := Chan.buf out ++ [r]; Chan.cap := Chan.cap out;
                        Chan.closed := Chan.closed out |})))
    by apply worker_step_cases.
  destruct Hw as [->|Hw].
  - (* the deferred wg.Done() *)
    simpl. rewrite Hins. clear Hins Hi Heq Hone Hcases. subst pool.
    rewrite Forall_app, Forall_cons in Hex. destruct Hex as (Hex1 & Hexw & Hex2).
    rewrite List.filter_app, length_app in Hwg. simpl in Hwg.
    unfold holds in *. rewrite flat_map_app in Hperm. simpl in Hperm.
    rewrite List.filter_app, length_app, Forall_app, Forall_cons, flat_map_app. simpl.
    repeat split; auto; try lia; try (intros E; destruct l1; discriminate);
      try apply (Hexw eq_refl).
    destruct st as [|w0|i0| |]; simpl in *.
    + destruct Hst as [E _]. destruct l1; discriminate.
    + destruct (Hseq w0 eq_refl).
    + rewrite length_app in *. simpl in *. exact Hst.
    + rewrite length_app in *. simpl in *. exact Hst.
    + destruct Hst as (_ & _ & Hd & _).
      rewrite Forall_app, Forall_cons in Hd. destruct Hd as (_ & E & _). discriminate.
  - assert (Hnil : forall w', <[i := w']> pool <> [])
      by (intros w'; rewrite Hins; intros E; destruct l1; discriminate).
    destruct Hcases as [E|[(item & rest & Hweq & Hb & E)|[(Hweq & Hd & E)|(r & Hweq & Hc & Hl & E)]]].
    + (* blocked *)
      assert (Hgoal : match w with WExit => False | _ => True end)
        by (destruct Hw as [->|(r & ->)]; exact I).
      destruct w; try contradiction; rewrite E; simpl;
        rewrite list_insert_id by exact Hi; repeat split; auto.
    + (* an element is received *)
      subst w. rewrite E. simpl. rewrite Hins. clear Hins Hi Heq Hone E Hw. subst pool.
      destruct up as [b c cl]. simpl in *. subst b.
      rewrite Forall_app, Forall_cons in Hex. destruct Hex as (Hex1 & _ & Hex2).
      rewrite List.filter_app, length_app in Hwg. simpl in Hwg.
      unfold holds in *. rewrite flat_map_app in Hperm. simpl in Hperm.
      rewrite List.filter_app, length_app, Forall_app, Forall_cons, flat_map_app. simpl.
      assert (Hnd : forall u' : chan T, drained {| Chan.buf := item :: rest; Chan.cap := c;
                                          Chan.closed := cl |} -> drained u')
        by (intros u' [_ Hd]; discriminate).
      assert (Hst' :
        match st with
        | Starting => False
        | Sequential _ => False
        | Spawning i0 =>
            (0 <= i0 <= n)%Z /\ Z.of_nat (length (l1 ++ WRecv :: l2)) = i0 /\
            Chan.closed out = false
        | Waiting => Z.of_nat (length (l1 ++ WRecv :: l2)) = n /\ Chan.closed out = false
        | Returned => False
        end).
      { destruct st as [|w0|i0| |]; simpl in *.
        - destruct Hst as [E _]. destruct l1; discriminate.
        - destruct (Hseq w0 eq_refl).
        - tauto.
        - tauto.
        - destruct Hst as (_ & [_ Hd] & _). discriminate. }
      clear Hst.
      destruct (body item) as [r|]; simpl in *;
        rewrite ?length_app in *; simpl in *;
        (repeat split; auto; try lia; try (intros; discriminate); try congruence;
         try (eapply Forall_exited_weaken; [apply Hnd|eassumption]);
         try (intros E; destruct l1; discriminate));
        try (destruct st; try contradiction; tauto).
      etransitivity; [apply perm_received|exact Hperm].
    + (* the source is closed *)
      subst w. rewrite E. simpl. rewrite Hins. clear Hins Hi Heq Hone E Hw. subst pool.
      rewrite Forall_app, Forall_cons in Hex. destruct Hex as (Hex1 & _ & Hex2).
      rewrite List.filter_app, length_app in Hwg. simpl in Hwg.
      unfold holds in *. rewrite flat_map_app in Hperm. simpl in Hperm.
      rewrite List.filter_app, length_app, Forall_app, Forall_cons, flat_map_app. simpl.
      repeat split; auto; try lia; try apply Hd; try (intros E; destruct l1; discriminate).
      destruct st as [|w0|i0| |]; simpl in *;
        [ destruct Hst as [E _]; destruct l1; discriminate
        | destruct (Hseq w0 eq_refl)
        | rewrite length_app in *; simpl in *; exact Hst
        | rewrite length_app in *; simpl in *; exact Hst
        | destruct Hst as (_ & _ & Hd' & _); rewrite Forall_app, Forall_cons in Hd';
          destruct Hd' as (_ & E & _); discriminate ].
    + (* a send *)
      subst w. rewrite E. simpl. rewrite Hins. clear Hins Hi Heq Hone E Hw. subst pool.
      destruct out as [b c cl]. simpl in *.
      rewrite Forall_app, Forall_cons in Hex. destruct Hex as (Hex1 & _ & Hex2).
      rewrite List.filter_app, length_app in Hwg. simpl in Hwg.
      unfold holds in *. rewrite flat_map_app in Hperm. simpl in Hperm.
      rewrite List.filter_app, length_app, Forall_app, Forall_cons, flat_map_app. simpl.
      repeat split; auto; try lia; try (intros; discriminate);
        try (intros E; destruct l1; discriminate).
      * destruct st as [|w0|i0| |]; simpl in *;
        [ destruct Hst as [E _]; destruct l1; discriminate
        | destruct (Hseq w0 eq_refl)
        | rewrite length_app in *; simpl in *; exact Hst
        | rewrite length_app in *; simpl in *; exact Hst
        | destruct Hst as (_ & _ & Hd' & _); rewrite Forall_app, Forall_cons in Hd';
          destruct Hd' as (_ & E & _); discriminate ].
      * destruct m; [exact I|]. destruct Hm as (_ & Hm & _). congruence.
      * etransitivity; [apply perm_sent|exact Hperm].
Qed.

Lemma pipe_inv_step (p : pidN) (s : pipe_sys T R) :
  pipe_inv body n xs k s -> pipe_inv body n xs k (pipe_step p s).
Proof.
  destruct p as [| |i|].
  - apply pipe_inv_source.
  - apply pipe_inv_stage.
  - apply pipe_inv_worker.
  - apply pipe_inv_main.
Qed.
Lemma pipe_inv_start : pipe_inv body n xs k (pipe_start body n xs k).
Proof.
  unfold pipe_inv, source_ok, stage_ok, main_ok, contents. simpl.
  repeat split; auto; lia.
Qed.

Lemma pending_step (p : pidN) (s : pipe_sys T R) :
  length (pending (p_src (pipe_step p s))) <= length (pending (p_src s)).
Proof.
  destruct s as [g [up nn] [bd st] pool wg [out n'] m]. destruct p as [| |i|]; simpl.
  - destruct up as [b c cl]. destruct g as [[|item rest]|]; chan_cases; lia.
  - unfold stage_step, with_stage; simpl.
    repeat (match goal with |- context [match ?x with _ => _ end] => destruct x end; simpl);
      lia.
  - unfold pool_step, with_stage; simpl.
    repeat (match goal with |- context [match ?x with _ => _ end] => destruct x end; simpl);
      lia.
  - destruct (Collect_step Background PickRecv m out); simpl; lia.
Qed.

Lemma pipe_live_inv_step (p : pidN) (s : pipe_sys T R) :
  pipe_live_inv body n xs k s -> pipe_live_inv body n xs k (pipe_step p s).
Proof.
  intros [Hi Hp]. split; [apply pipe_inv_step, Hi|].
  pose proof (pending_step p s). lia.
Qed.

Lemma pipe_live_inv_start : pipe_live_inv body n xs k (pipe_start body n xs k).
Proof. split; [apply pipe_inv_start|simpl; lia]. Qed.

Lemma holds_done (pool : list (worker R)) : Forall (eq WDone) pool -> holds pool = [].
Proof.
  induction 1 as [|w pool <- _ IH]; simpl; [reflexivity|exact IH].
Qed.

(** Once the downstream channel is closed the stage has returned, every
    worker it started has finished, and the upstream channel is closed and
    empty. *)
Lemma pipe_closed (s : pipe_sys T R) :
  pipe_inv body n xs k s -> Chan.closed (source (p_m s)) = true ->
  control (p_go s) = Returned /\ drained (source (p_s s)) /\
  Forall (eq WDone) (p_pool s) /\ (n <> 1%Z -> Z.of_nat (length (p_pool s)) = n) /\
  p_src s = Finished.
Proof.
  destruct s as [g [up nn] [bd st] pool wg [out n'] m].
  unfold pipe_inv, source_ok, stage_ok. simpl.
  intros (_ & (Hs1 & _) & (_ & _ & _ & Hst) & _) Hc.
  destruct st as [|w|i| |].
  - destruct Hst as (_ & Ho). congruence.
  - destruct Hst as (_ & Ho & _). congruence.
  - destruct Hst as (_ & _ & _ & Ho). congruence.
  - destruct Hst as (_ & _ & Ho). congruence.
  - destruct Hst as (_ & Hd & Hp & Hl). repeat split; auto; try apply Hd.
    destruct Hd as [Hd _]. rewrite Hd in Hs1. destruct g; [discriminate|reflexivity].
Qed.

Lemma pipe_result (s : pipe_sys T R) (result : slice) (err : option error) :
  pipe_inv body n xs k s -> p_main s = CReturn result err ->
  err = None /\ Permutation (elems result) (omap body xs) /\
  (n = 1%Z -> elems result = omap body xs).
Proof.
  intros Hinv Hm. pose proof Hinv as (_ & _ & (_ & _ & Hone & _) & Hmain & Hperm & Heq).
  unfold main_ok in Hmain. rewrite Hm in Hmain. destruct Hmain as (-> & Hc & Hb).
  destruct (pipe_closed s Hinv Hc) as (Hst & (_ & Hup) & Hpool & _ & Hg).
  unfold contents in *. rewrite Hm, Hb, Hst, Hup, Hg, (holds_done _ Hpool) in *.
  simpl in *. rewrite app_nil_r in *. auto.
Qed.
Lemma running_exists (pool : list (worker R)) :
  length (List.filter running pool) <> 0 ->
  exists i w, pool !! i = Some w /\ w <> WDone.
Proof.
  induction pool as [|w pool IH]; simpl; [congruence|].
  destruct w; simpl; try (intros _; eexists 0, _; split; [reflexivity|discriminate]).
  intros H. destruct (IH H) as (i & w & Hi & Hw). exists (S i), w. auto.
Qed.

Lemma worker_step_dec (w : worker R) (up : chan T) (out : chan R) :
  worker_step body w up out = (w, up, out) \/ worker_step body w up out <> (w, up, out).
Proof.
  destruct (worker_step_cases body w up out)
    as [E|[(item & rest & -> & Hb & E)|[(-> & _ & E)|(r & -> & _ & _ & E)]]];
    [left; exact E|right; rewrite E; intros E'; inversion E' as [[E1 E2]]..].
  rewrite <- E2 in Hb. simpl in Hb.
  apply (f_equal (@length T)) in Hb. simpl in Hb. lia.
Qed.

Lemma worker_blocked (w : worker R) (up : chan T) (out : chan R) :
  worker_step body w up out = (w, up, out) ->
  w = WExit \/ w = WDone \/
  (w = WRecv /\ Chan.buf up = [] /\ Chan.closed up = false) \/
  (exists r, w = WSend r /\
     (Chan.closed out = true \/ Chan.cap out <= length (Chan.buf out))).
Proof.
  destruct up as [b c cl], out as [b' c' cl']. destruct w as [|r| |]; simpl; auto.
  - unfold Chan.recv; simpl. destruct b as [|item rest]; [destruct cl|].
    + discriminate.
    + intros _. right. right. left. auto.
    + intros E. exfalso. destruct (body item); inversion E as [E1].
      apply (f_equal (@length T)) in E1. simpl in E1. lia.
  - unfold Chan.send; simpl. intros E. right. right. right. exists r. split; auto.
    destruct cl'; auto. destruct (Nat.ltb_spec (length b') c'); auto. discriminate.
Qed.

Lemma source_enabled (g : producer T) (up : chan T) :
  Chan.closed up = finished g -> Chan.closed up = false -> Chan.buf up = [] ->
  pending g = [] \/ 0 < Chan.cap up ->
  producer_step g up <> (g, up).
Proof.
  destruct up as [b c cl]. simpl. intros -> Hf -> Hc.
  destruct g as [[|item rest]|]; simpl in *; try discriminate.
  unfold Chan.send; simpl. destruct Hc as [Hc|Hc]; [discriminate|].
  destruct (Nat.ltb_spec 0 c); [discriminate|lia].
Qed.
Lemma worker_eq_dec_exit (w : worker R) : w = WExit \/ w <> WExit.
Proof. destruct w; auto; right; discriminate. Qed.

Lemma worker_stuck (w : worker R) (up : chan T) :
  let out := {| Chan.buf := []; Chan.cap := Z.to_nat n; Chan.closed := false |} in
  w <> WExit -> w <> WDone ->
  worker_step body w up out = (w, up, out) ->
  Chan.buf up = [] /\ Chan.closed up = false.
Proof.
  intros out H1 H2 E. apply worker_blocked in E.
  destruct E as [E|[E|[(_ & Hb & Hc)|(r & _ & [E|E])]]]; try contradiction; auto.
  - discriminate.
  - simpl in E. lia.
Qed.

Lemma worker_in_pids (i : nat) (len : nat) :
  n <> 1%Z -> i < len -> Z.of_nat len = n -> In (PWorker i) (pipe_pids n).
Proof.
  intros Hn Hi Hlen. unfold pipe_pids. apply in_or_app. right.
  destruct (Z.eqb_spec n 1); [contradiction|].
  apply in_map, in_seq. lia.
Qed.

Lemma pipe_progress (s : pipe_sys T R) :
  xs = [] \/ 0 < k ->
  pipe_live_inv body n xs k s -> pipe_returned s = false ->
  exists p, In p (pipe_pids n) /\ pipe_step p s <> s.
Proof.
  intros Hk. destruct s as [g [up nn] [bd st] pool wg [[b c cl] n'] m].
  unfold pipe_live_inv, pipe_inv, source_ok, stage_ok, main_ok, pipe_returned. simpl.
  intros (((-> & -> & Hcapu & Hcap) & (Hs1 & Hs2) & (Hwg & Hex & Hone & Hst) & Hm & _) & Hpend) Hret.
  destruct m as [result|]; [clear Hret Hm|discriminate].
  match goal with |- exists p, _ /\ pipe_step p ?s0 <> _ =>
    assert (Hsrc : Chan.buf up = [] -> Chan.closed up = false ->
                   exists p, In p (pipe_pids n) /\ pipe_step p s0 <> s0)
  end.
  { intros Hb Hc. exists PSource. split; [simpl; auto|]. simpl. intros E'.
    apply (source_enabled g up Hs1 Hc Hb).
    - destruct Hk as [->|Hk]; [left|right; lia].
      destruct (pending g); [reflexivity|simpl in Hpend; lia].
    - destruct (producer_step g up) as [g' up']. inversion E'. reflexivity. }
  match goal with |- exists p, _ /\ pipe_step p ?s0 <> _ =>
    assert (Hmain : b <> [] \/ cl = true ->
                    exists p, In p (pipe_pids n) /\ pipe_step p s0 <> s0)
  end.
  { intros Hb. exists PMain. split; [simpl; auto|]. simpl.
    unfold recv_ready, Collect_case_recv, Chan.recv; simpl.
    destruct b as [|item b]; [destruct cl; [|destruct Hb; congruence]|]; simpl.
    - intros E; inversion E.
    - intros E; inversion E as [[E1 E2]].
      apply (f_equal (@length R)) in E1. simpl in E1. lia. }
  destruct b as [|item b]; [|apply Hmain; left; discriminate].
  destruct cl; [apply Hmain; right; reflexivity|]. clear Hmain.
  simpl in Hcap. subst c.
  assert (Hsend : ~ (false = true \/ Z.to_nat n <= @length R [])).
  { intros [E|E]; [discriminate|simpl in E; lia]. }
  destruct st as [|w|i| |].
  - (* the test s.workers == 1 *)
    exists PStage. split; [simpl; auto|]. simpl. unfold stage_step, with_stage; simpl.
    destruct (Z.eqb_spec n 1); intros E; inversion E.
  - (* the sequential loop *)
    destruct Hst as (_ & _ & Hw & _).
    destruct (worker_eq_dec_exit w) as [->|Hx].
    { exists PStage. split; [simpl; auto|]. simpl. intros E; inversion E. }
    destruct (worker_step_dec w up {| Chan.buf := []; Chan.cap := Z.to_nat n;
                                      Chan.closed := false |}) as [E|E].
    { destruct (worker_stuck w up Hx Hw E). apply Hsrc; assumption. }
    exists PStage. split; [simpl; auto|]. simpl. unfold stage_step, with_stage; simpl.
    destruct w; try congruence;
      match goal with |- context [worker_step ?b ?w ?u ?o] =>
        destruct (worker_step b w u o) as [[w' up'] out'] end;
      simpl; intros E'; inversion E'; subst; apply E; reflexivity.
  - (* the loop that starts the workers *)
    exists PStage. split; [simpl; auto|]. simpl. unfold stage_step, with_stage; simpl.
    destruct (Z.ltb_spec i n); intros E; inversion E. lia.
  - (* wg.Wait() *)
    destruct Hst as (Hn1 & Hlen & _).
    destruct (Nat.eq_dec wg 0) as [Hz|Hz].
    { exists PStage. split; [simpl; auto|]. simpl. unfold stage_step, with_stage; simpl.
      subst wg. rewrite Hz. simpl. intros E; inversion E. }
    destruct (running_exists pool) as (i & w & Hi & Hw); [congruence|].
    assert (Hin : In (PWorker i) (pipe_pids n))
      by (apply (worker_in_pids i (length pool));
          [assumption|eapply lookup_lt_Some; eassumption|assumption]).
    destruct (worker_eq_dec_exit w) as [->|Hx].
    { exists (PWorker i). split; [exact Hin|]. simpl. unfold pool_step, with_stage; simpl.
      rewrite Hi. intros E; inversion E. lia. }
    destruct (worker_step_dec w up {| Chan.buf := []; Chan.cap := Z.to_nat n;
                                      Chan.closed := false |}) as [E|E].
    { destruct (worker_stuck w up Hx Hw E). apply Hsrc; assumption. }
    exists (PWorker i). split; [exact Hin|]. simpl. unfold pool_step, with_stage; simpl.
    rewrite Hi.
    destruct w; try congruence;
      match goal with |- context [worker_step ?b ?w ?u ?o] =>
        destruct (worker_step b w u o) as [[w' up'] out'] end;
      simpl; intros E'; inversion E' as [[E1 E2 E3]]; subst; apply E;
      match goal with H : <[i := ?w1]> pool = pool |- _ =>
        pose proof (list_lookup_insert_eq pool i w1 (lookup_lt_Some _ _ _ Hi)) as Hl;
        rewrite H in Hl
      end;
      rewrite Hi in Hl; inversion Hl; reflexivity.
  - destruct Hst as (Ho & _). discriminate.
Qed.
Lemma pipe_returned_step (p : pidN) (s : pipe_sys T R) :
  pipe_returned s = true -> pipe_returned (pipe_step p s) = true.
Proof.
  destruct s as [g [up nn] [bd st] pool wg [out n'] m]. unfold pipe_returned.
  destruct m as [|result err]; [discriminate|]. intros _. destruct p as [| |i|]; simpl.
  - destruct (producer_step g up); reflexivity.
  - unfold stage_step, with_stage; simpl.
    destruct st as [|w|i| |]; simpl; try reflexivity.
    + destruct (nn =? 1)%Z; reflexivity.
    + destruct w; try reflexivity;
        match goal with |- context [worker_step ?b ?w ?u ?o] =>
          destruct (worker_step b w u o) as [[? ?] ?] end; reflexivity.
    + destruct (i <? nn)%Z; reflexivity.
    + destruct (Nat.eqb wg 0); reflexivity.
  - unfold pool_step, with_stage; simpl.
    destruct (pool !! i) as [w|]; [|reflexivity].
    destruct w; try reflexivity;
      match goal with |- context [worker_step ?b ?w ?u ?o] =>
        destruct (worker_step b w u o) as [[? ?] ?] end; reflexivity.
  - reflexivity.
Qed.

(** A pipeline returns under every fair schedule. *)
Lemma pipe_returns (rounds : list (list pidN)) :
  xs = [] \/ 0 < k ->
  Forall (fair (pipe_pids n)) rounds ->
  4 * length xs + 3 * Z.to_nat n + 5 <= length rounds ->
  pipe_returned (run pipe_step (concat rounds) (pipe_start body n xs k)) = true.
Proof.
  intros Hk Hf Hlen.
  apply (fair_rounds_return pipe_step (pipe_live_inv body n xs k) pipe_live_inv_step
           pipe_mu pipe_returned (pipe_pids n)); auto.
  - intros p s [Hi _]. apply (pipe_step_mu body). apply Hi.
  - intros s. apply pipe_progress, Hk.
  - apply pipe_returned_step.
  - apply pipe_live_inv_start.
  - unfold pipe_mu, pool_mu; simpl. lia.
Qed.

Lemma pipe_reachable (sched : list pidN) :
  pipe_inv body n xs k (run pipe_step sched (pipe_start body n xs k)).
Proof. apply run_inv; [apply pipe_inv_step|apply pipe_inv_start]. Qed.
End PipelineInvariant.

(** A stage with [n > 1] workers between a slice source and [Collect]. *)
Lemma parallel_stage {T R : Type} (body : T -> option R) (S : list T) (n : Z) :
  (1 < n)%Z ->
  let start := pipe_start body n S (length S) in
  (forall rounds : list (list pidN),
     Forall (fair (pipe_pids n)) rounds ->
     4 * length S + 3 * Z.to_nat n + 5 <= length rounds ->
     pipe_returned (run pipe_step (concat rounds) start) = true) /\
  (forall (sched : list pidN) (result : slice) (err : option error),
     p_main (run pipe_step sched start) = CReturn result err ->
     Permutation (elems result) (omap body S) /\ err = None) /\
  (forall sched : list pidN,
     Chan.closed (source (p_m (run pipe_step sched start))) = true ->
     Z.of_nat (length (p_pool (run pipe_step sched start))) = n /\
     Forall (eq WDone) (p_pool (run pipe_step sched start)) /\
     drained (source (p_s (run pipe_step sched start)))).
Proof.
  intros Hn start.
  assert (Hk : S = [] \/ 0 < length S) by (destruct S; simpl; [left|right; lia]; auto).
  assert (Hn1 : (1 <= n)%Z) by lia.
  split; [|split].
  - intros rounds Hf Hlen. apply pipe_returns; auto.
  - intros sched result err E.
    pose proof (pipe_reachable body n S (length S) Hn1 sched) as Hinv.
    destruct (pipe_result _ _ _ _ _ result err Hinv E) as (He & Hp & _). auto.
  - intros sched Hc.
    pose proof (pipe_reachable body n S (length S) Hn1 sched) as Hinv.
    destruct (pipe_closed _ _ _ _ _ Hinv Hc) as (_ & Hd & Hp & Hl & _).
    repeat split; auto; try apply Hd. apply Hl. lia.
Qed.

Lemma sequential_stage {T R : Type} (body : T -> option R) (S : list T)
      (sched : list pidN) (result : slice) (err : option error) :
  p_main (run pipe_step sched (pipe_start body 1 S (length S))) = CReturn result err ->
  elems result = omap body S.
Proof.
  intros E.
  pose proof (pipe_reachable body 1 S (length S) (Z.le_refl 1) sched) as Hinv.
  destruct (pipe_result _ _ _ _ _ result err Hinv E) as (_ & _ & Heq). auto.
Qed.

Lemma parallel_slice_start {T R : Type} (S : list T) (n : Z)
      (method : stream (chan T) -> goroutine T R * stream (chan R)) (body : T -> option R) :
  (1 < n)%Z ->
  (forall s, method s =
     ({| loop_body := body; control := Starting |},
      {| source := Chan.make (Z.to_nat (workers s)); workers := workers s |})) ->
  pipeline (parallel_slice S n) method = pipe_start body n S (length S).
Proof.
  intros Hn Hm. unfold pipeline, parallel_slice, Parallel. simpl. rewrite Hm. simpl.
  destruct (Z.leb_spec n 0); [lia|]. reflexivity.
Qed.


(** ** Generator *)

Section GeneratorFacts.
Context {T G : Type}.
Variable gen : G -> T * bool * G.
Variable vs : list T.

Lemma gen_inv_start (g : G) : yields gen g vs -> gen_inv gen vs (gen_start g).
Proof.
  intros Hy. unfold gen_inv; simpl. repeat split; auto. exists vs. simpl. auto.
Qed.

Lemma gen_inv_step (p : pid2) (s : @gen_sys T G) :
  gen_inv gen vs s -> gen_inv gen vs (gen_step gen p s).
Proof.
  destruct s as [g calls go [b c cl] m]. unfold gen_inv. simpl.
  intros (Hcap & (todo & Hvs & Hgo) & Hm). destruct p; simpl.
  - (* the goroutine of Generator *)
    unfold generator_step; simpl. destruct go as [|item| |]; simpl in *.
    + destruct Hgo as (Hy & Hc & Hcl).
      destruct (gen g) as [[item ok] g'] eqn:Eg. simpl.
      destruct todo as [|v todo]; simpl in Hy; rewrite Eg in Hy; simpl in Hy.
      * subst ok. simpl in *. repeat split; auto.
        exists []. repeat split; auto. lia.
      * destruct Hy as [Hv Hy]. inversion Hv; subst. simpl in *.
        repeat split; auto. exists todo. repeat split; auto. lia.
    + destruct Hgo as (Hy & Hc & Hcl). subst cl.
      unfold Chan.send; simpl. destruct (Nat.ltb_spec (length b) c); simpl.
      * repeat split; auto.
        { exists todo. rewrite <- app_assoc. simpl. auto. }
        { destruct m; [exact I|]. destruct Hm as (_ & E & _). discriminate. }
      * repeat split; auto. exists todo. auto.
    + destruct Hgo as (-> & Hc & Hcl). repeat split; auto.
      * exists []. auto.
      * destruct m; [exact I|]. tauto.
    + repeat split; auto. exists todo. auto.
  - (* the caller of Collect *)
    destruct m as [result|result err]; simpl.
    2:{ repeat split; auto; try apply Hm. exists todo. auto. }
    unfold recv_ready, Collect_case_recv, Chan.recv; simpl.
    destruct b as [|item b]; [destruct cl|]; simpl in *; repeat split; auto;
      exists todo; rewrite <- ?app_assoc; auto.
Qed.

Lemma gen_step_mu (p : pid2) (s : @gen_sys T G) :
  gen_inv gen vs s ->
  gen_step gen p s = s \/ gen_mu vs (gen_step gen p s) < gen_mu vs s.
Proof.
  destruct s as [g calls go [b c cl] m]. unfold gen_inv, gen_mu, gen_returned. simpl.
  intros (Hcap & (todo & Hvs & Hgo) & Hm). destruct p; simpl.
  - unfold generator_step; simpl. destruct go as [|item| |]; simpl in *.
    + right. destruct (gen g) as [[item ok] g']. simpl.
      destruct ok; simpl; lia.
    + unfold Chan.send; simpl. destruct cl; [left; reflexivity|].
      destruct (Nat.ltb_spec (length b) c); [right|left; reflexivity].
      simpl. rewrite length_app. simpl. lia.
    + right. lia.
    + left. reflexivity.
  - destruct m as [result|]; [|left; reflexivity]. simpl.
    unfold recv_ready, Collect_case_recv, Chan.recv; simpl.
    destruct b as [|item b]; [destruct cl|]; simpl; stutter_or_less.
Qed.

Lemma gen_progress (s : @gen_sys T G) :
  gen_inv gen vs s -> gen_returned s = false ->
  exists p, In p [GSource; GMain] /\ gen_step gen p s <> s.
Proof.
  destruct s as [g calls go [b c cl] m]. unfold gen_inv, gen_returned. simpl.
  intros (Hcap & (todo & Hvs & Hgo) & Hm) Hret.
  destruct m as [result|]; [|discriminate].
  destruct b as [|item b].
  - destruct cl.
    + exists GMain. split; [simpl; auto|]. simpl. intros E; inversion E.
    + exists GSource. split; [simpl; auto|]. simpl. unfold generator_step; simpl.
      destruct go as [|item| |]; simpl in *.
      * destruct (gen g) as [[item ok] g']. intros E; inversion E. lia.
      * unfold Chan.send; simpl. subst c. simpl. intros E; inversion E.
      * intros E; inversion E.
      * destruct Hgo as (_ & _ & E). discriminate.
  - exists GMain. split; [simpl; auto|]. simpl.
    intros E; inversion E as [[E1 E2]].
    apply (f_equal (@length T)) in E1. simpl in E1. lia.
Qed.

Lemma gen_returned_step (p : pid2) (s : @gen_sys T G) :
  gen_returned s = true -> gen_returned (gen_step gen p s) = true.
Proof.
  destruct s as [g calls go c m]. unfold gen_returned. simpl.
  destruct m as [|result err]; [discriminate|]. intros _. destruct p; simpl; auto.
  unfold generator_step; simpl. destruct go; simpl; auto.
  - destruct (gen g) as [[item ok] g']. reflexivity.
  - destruct (Chan.send c item); reflexivity.
Qed.

(** With a generator that yields [vs], [Collect] returns under every fair
    schedule. *)
Lemma Generator_returns (g : G) (rounds : list (list pid2)) :
  yields gen g vs ->
  Forall (fair [GSource; GMain]) rounds ->
  3 * length vs + 4 <= length rounds ->
  gen_returned (run (gen_step gen) (concat rounds) (gen_start g)) = true.
Proof.
  intros Hy Hf Hlen.
  apply (fair_rounds_return (gen_step gen) (gen_inv gen vs) gen_inv_step
           (gen_mu vs) gen_returned [GSource; GMain]); auto.
  - apply gen_step_mu.
  - apply gen_progress.
  - apply gen_returned_step.
  - apply gen_inv_start, Hy.
  - unfold gen_mu; simpl. lia.
Qed.

Lemma Generator_result (g : G) (sched : list pid2) (result : slice) (err : option error) :
  yields gen g vs ->
  n_main (run (gen_step gen) sched (gen_start g)) = CReturn result err ->
  elems result = vs /\ err = None /\
  n_calls (run (gen_step gen) sched (gen_start g)) = S (length vs) /\
  n_go (run (gen_step gen) sched (gen_start g)) = GFinished.
Proof.
  intros Hy E.
  pose proof (run_inv (gen_step gen) (gen_inv gen vs) gen_inv_step sched _
                (gen_inv_start g Hy)) as (_ & (todo & Hvs & Hgo) & Hm).
  rewrite E in *. simpl in *. destruct Hm as (-> & Hc & Hb). rewrite Hb in Hvs.
  destruct (n_go (run (gen_step gen) sched (gen_start g))) as [|item| |];
    try (destruct Hgo as (_ & _ & Hcl); congruence).
  destruct Hgo as (-> & Hcalls & _). simpl in Hvs. rewrite app_nil_r in Hvs. auto.
Qed.

(** The calls of [gen] never exceed one more than the values it yields. *)
Lemma Generator_calls (g : G) (sched : list pid2) :
  yields gen g vs ->
  n_calls (run (gen_step gen) sched (gen_start g)) <= S (length vs).
Proof.
  intros Hy.
  pose proof (run_inv (gen_step gen) (gen_inv gen vs) gen_inv_step sched _
                (gen_inv_start g Hy)) as (_ & (todo & Hvs & Hgo) & Hm).
  destruct (n_go (run (gen_step gen) sched (gen_start g))); lia || (destruct Hgo; lia)
    || (destruct Hgo as (_ & ? & _); lia).
Qed.
End GeneratorFacts.


(** ** The tests of [chain_test.go], under a round-robin schedule *)

Example TestNewSliceStream :
  c_main (run collect_quiet_step (round_robin [GSource; GMain] 12)
            (collect_start [1; 2; 3; 4; 5]%Z 5 Background))
  = CReturn (Some [1; 2; 3; 4; 5]%Z) None.
Proof. reflexivity. Qed.

Example TestMap :
  p_main (run pipe_step (round_robin [PSource; PStage; PMain] 28)
            (pipeline (NewSliceStream [1; 2; 3; 4; 5]%Z) (fun s => Map s (fun x => x * 2)%Z)))
  = CReturn (Some [2; 4; 6; 8; 10]%Z) None.
Proof. reflexivity. Qed.

Example TestFilter :
  p_main (run pipe_step (round_robin [PSource; PStage; PMain] 28)
            (pipeline (NewSliceStream [1; 2; 3; 4; 5]%Z) (fun s => Filter s Z.even)))
  = CReturn (Some [2; 4]%Z) None.
Proof. reflexivity. Qed.

Example TestReduce :
  r_main (run (reduce_step Z.add) (round_robin [GSource; GMain] 12)
            (reduce_slice 0%Z [1; 2; 3; 4; 5]%Z))
  = RReturn 15%Z None 4.
Proof. reflexivity. Qed.

Example TestEmptyStreamReduce :
  r_main (run (reduce_step Z.add) (round_robin [GSource; GMain] 2) (reduce_slice 0%Z []))
  = RReturn 0%Z (Some ErrEmptyStream) 0.
Proof. reflexivity. Qed.

Example TestParallel :
  p_main (run pipe_step (round_robin (pipe_pids 3) 34)
            (pipeline (parallel_slice [1; 2; 3; 4; 5]%Z 3) (fun s => Map s (fun x => x * 2)%Z)))
  = CReturn (Some [2; 4; 6; 8; 10]%Z) None.
Proof. reflexivity. Qed.

Example TestGenerator :
  n_main (run (gen_step count_to_three) (round_robin [GSource; GMain] 13) (gen_start 0%Z))
  = CReturn (Some [1; 2; 3]%Z) None.
Proof. reflexivity. Qed.

(** * Main results *)

(** C3: [Reduce] fails with [ErrEmptyStream] exactly when the source yields
    no element, the value returned with that error is the zero value of the
    element type, and on a source that yields at least one element the
    error is nil.  The source yields [xs] through a channel of capacity
    [n]; [Reduce] returns under every fair schedule, and what it returns is
    the same under every schedule. *)
Theorem Reduce_empty_stream_iff {T : Type} (zero : T) (fn : T -> T -> T)
        (xs : list T) (n : nat) :
  xs = [] \/ 0 < n ->
  (forall rounds : list (list pid2),
     Forall (fair [GSource; GMain]) rounds -> 2 * length xs + 2 <= length rounds ->
     reduce_returned (run (reduce_step fn) (concat rounds) (reduce_start zero xs n)) = true) /\
  (forall (sched : list pid2) (result : T) (err : option error) (calls : nat),
     r_main (run (reduce_step fn) sched (reduce_start zero xs n)) = RReturn result err calls ->
     (err = Some ErrEmptyStream <-> xs = []) /\
     (err = Some ErrEmptyStream -> result = zero) /\
     (xs <> [] -> err = None)).
Proof.
  intros Hn. split.
  - intros rounds Hf Hlen. apply Reduce_returns; assumption.
  - intros sched result err calls E.
    destruct (Reduce_result zero fn xs n sched result err calls E) as [Hr He].
    destruct xs as [|x rest]; simpl in *; subst err.
    + inversion Hr. repeat split; auto; congruence.
    + repeat split; auto; try discriminate.
Qed.

Lemma Reduce_empty_stream_iff_witness :
  (@nil Z = [] \/ 0 < 0) /\
  reduce_returned (run (reduce_step Z.add) [GSource; GMain; GMain; GSource]
                     (reduce_start 0%Z [] 0)) = true /\
  ((Some ErrEmptyStream = Some ErrEmptyStream <-> @nil Z = []) /\
   (Some ErrEmptyStream = Some ErrEmptyStream -> 0%Z = 0%Z) /\
   (@nil Z <> [] -> Some ErrEmptyStream = None)).
Proof.
  pose proof (Reduce_empty_stream_iff 0%Z Z.add [] 0 (or_introl eq_refl)) as [Hret Hres].
  split; [left; reflexivity|]. split.
  - apply (Hret [[GSource; GMain]; [GMain; GSource]]).
    + constructor; [|constructor; [|constructor]];
        intros p Hp; simpl in *; intuition.
    + simpl. lia.
  - apply (Hres [GSource; GMain] 0%Z (Some ErrEmptyStream) 0). reflexivity.
Defined.

(** C4: on a source that yields [x1 .. xn], [Reduce] returns the left fold
    [fn (.. (fn (fn x1 x2) x3) ..) xn]: the first element is the initial
    accumulator, [fn] is applied once for each further element, so a
    source of one element gives that element back with no application of
    [fn]. *)
Theorem Reduce_left_fold {T : Type} (zero : T) (fn : T -> T -> T)
        (x : T) (rest : list T) (n : nat) :
  0 < n ->
  (forall rounds : list (list pid2),
     Forall (fair [GSource; GMain]) rounds ->
     2 * length (x :: rest) + 2 <= length rounds ->
     reduce_returned
       (run (reduce_step fn) (concat rounds) (reduce_start zero (x :: rest) n)) = true) /\
  (forall (sched : list pid2) (result : T) (err : option error) (calls : nat),
     r_main (run (reduce_step fn) sched (reduce_start zero (x :: rest) n))
       = RReturn result err calls ->
     result = fold_left fn rest x /\ err = None /\ calls = length rest /\
     (rest = [] -> result = x /\ calls = 0)).
Proof.
  intros Hn. split.
  - intros rounds Hf Hlen. apply Reduce_returns; auto.
  - intros sched result err calls E.
    destruct (Reduce_result zero fn (x :: rest) n sched result err calls E) as [Hr He].
    simpl in *. inversion Hr. subst. split; [|split; [|split]]; auto.
    intros ->. split; reflexivity.
Qed.

Lemma Reduce_left_fold_witness :
  0 < 1 /\
  r_main (run (reduce_step Z.sub) [GSource; GMain; GSource; GMain; GSource; GSource; GMain; GMain]
            (reduce_start 0%Z [10; 3; 2]%Z 1)) = RReturn 5%Z None 2 /\
  (5%Z = fold_left Z.sub [3; 2]%Z 10%Z /\ @None error = None /\ 2 = length [3; 2]%Z /\
   ([3; 2]%Z = [] -> 5%Z = 10%Z /\ 2 = 0)).
Proof.
  pose proof (Reduce_left_fold 0%Z Z.sub 10%Z [3; 2]%Z 1 Nat.lt_0_1) as [_ Hres].
  split; [lia|]. split; [reflexivity|].
  apply (Hres [GSource; GMain; GSource; GMain; GSource; GSource; GMain; GMain]).
  reflexivity.
Defined.

(** C9: [ForEach] invokes [fn] exactly once per element, in the order of
    arrival, and returns a nil error once the source is closed, whatever
    the source yields (the empty source included): under every fair
    schedule it returns, the error it returns is nil, and at that point the
    invocations of [fn] are the elements of the source in order.  Before it
    returns, the invocations are a prefix of them. *)
Theorem ForEach_once_per_element {T W : Type} (fn : T -> W -> W)
        (xs : list T) (n : nat) (env : W) :
  xs = [] \/ 0 < n ->
  (forall rounds : list (list pid2),
     Forall (fair [GSource; GMain]) rounds -> 2 * length xs + 2 <= length rounds ->
     foreach_returned (run (foreach_step fn) (concat rounds) (foreach_start xs n env)) = true) /\
  (forall sched : list pid2,
     let s := run (foreach_step fn) sched (foreach_start xs n env) in
     (exists todo, f_calls s ++ todo = xs) /\
     f_env s = fold_left (fun w item => fn item w) (f_calls s) env /\
     (forall err, f_main s = FReturn err -> err = None /\ f_calls s = xs)).
Proof.
  intros Hn. split.
  - intros rounds Hf Hlen. apply ForEach_returns; assumption.
  - intros sched s. subst s.
    destruct (ForEach_reachable fn xs n env sched) as (_ & _ & Hxs & Hw & Hm).
    split; [eexists; exact Hxs|]. split; [exact Hw|].
    intros err E. rewrite E in Hm. exact Hm.
Qed.

Lemma ForEach_once_per_element_witness :
  let sched := [GSource; GSource; GMain; GSource; GMain; GSource; GMain; GMain] in
  let s := run (foreach_step (fun (x : Z) (w : list Z) => x :: w)) sched
             (foreach_start [1; 2; 3]%Z 2 []) in
  (@nil Z = [] \/ 0 < 2) /\
  f_main s = FReturn None /\ f_env s = [3; 2; 1]%Z /\ f_calls s = [1; 2; 3]%Z.
Proof.
  intros sched s.
  pose proof (ForEach_once_per_element (fun (x : Z) (w : list Z) => x :: w)
                [1; 2; 3]%Z 2 [] (or_intror (Nat.lt_0_succ 1))) as [_ Hs].
  destruct (Hs sched) as (_ & Hw & Hret).
  destruct (Hret None eq_refl) as [_ Hcalls].
  split; [right; lia|]. split; [reflexivity|]. split; [|exact Hcalls].
  unfold s. rewrite Hw, Hcalls. reflexivity.
Defined.

(** C10: when the signal never fires and the source is closed without
    having yielded an element, [Collect] returns a nil slice and a nil
    error: it returns under every fair schedule, and nothing else can be
    returned under any schedule. *)
Theorem Collect_empty_source_ok {T : Type} (n : nat) :
  (forall rounds : list (list pid2),
     Forall (fair [GSource; GMain]) rounds -> 2 <= length rounds ->
     collect_returned
       (run collect_quiet_step (concat rounds) (collect_start (@nil T) n Background)) = true) /\
  (forall (sched : list pid2) (result : slice) (err : option error),
     c_main (run collect_quiet_step sched (collect_start (@nil T) n Background))
       = CReturn result err ->
     result = None /\ err = None).
Proof.
  split.
  - intros rounds Hf Hlen. apply Collect_returns; auto.
  - intros sched result err E.
    destruct (Collect_quiet_reachable (@nil T) n sched) as [(_ & _ & Hm) Hctx].
    rewrite E in Hm. destruct Hm as [(He & Hel & Hne)|(Hd & _)].
    + split; [apply elems_nil; assumption|assumption].
    + rewrite Hctx in Hd. discriminate.
Qed.

Lemma Collect_empty_source_ok_witness :
  c_main (run collect_quiet_step [GMain; GSource; GMain] (collect_start (@nil Z) 0 Background))
    = CReturn None None /\
  (@None (list Z) = None /\ @None error = None).
Proof.
  destruct (@Collect_empty_source_ok Z 0) as [_ H].
  split; [reflexivity|]. apply (H [GMain; GSource; GMain]). reflexivity.
Defined.

(** C2, as stated, fails: the signal fires after the first element has been
    received and before the source is closed; the next [select] finds both
    the closed source and [ctx.Done()] ready, takes the receive case, and
    [Collect] returns the element with a nil error. *)
Lemma Collect_cancel_race :
  let s1 := run collect_step [CSource; CMain PickRecv; CFire Cancel]
              (collect_start [7%Z] 1 None) in
  c_ctx s1 = Some Cancel /\ c_main s1 = CLoop (Some [7%Z]) /\
  Chan.closed (c_chan s1) = false /\
  c_main (run collect_step [CSource; CMain PickRecv] s1) = CReturn (Some [7%Z]) None.
Proof. repeat split. Qed.

(** C2, amended: whenever [Collect] returns an error, the error is that of
    the context ([Canceled] or [DeadlineExceeded]) and the slice returned
    is nil, whatever had been accumulated; and once the signal has fired,
    an iteration of [Collect] whose [select] takes the case of
    [ctx.Done()], the only one it can take when the source has nothing
    ready, returns that error and the nil slice at once. *)
Theorem Collect_cancelled_no_partial {T : Type} (xs : list T) (n : nat)
        (ctx : context) (sched : list pid3) :
  let s := run collect_step sched (collect_start xs n ctx) in
  (forall (result : slice) (err : error),
     c_main s = CReturn result (Some err) ->
     result = None /\ ctx_Err (c_ctx s) = Some err /\ is_ctx_error err = true) /\
  (forall (result : slice) (pk : pick),
     c_main s = CLoop result -> done_ready (c_ctx s) = true ->
     pk = PickDone \/ recv_ready (c_chan s) = false ->
     exists err, ctx_Err (c_ctx s) = Some err /\ is_ctx_error err = true /\
       c_main (collect_step (CMain pk) s) = CReturn None (Some err)).
Proof.
  intros s. pose proof (Collect_reachable xs n ctx sched) as (_ & _ & Hm).
  fold s in Hm. split.
  - intros result err E. rewrite E in Hm.
    destruct Hm as [(He & _)|(Hd & He & Hr)]; [discriminate|].
    split; [exact Hr|]. split; [congruence|].
    destruct (c_ctx s) as [[|]|]; inversion He; reflexivity.
  - intros result pk E Hd Hpk. destruct s as [g c cx m]. simpl in *. subst m.
    destruct cx as [e|]; [|discriminate].
    exists (match e with Cancel => Canceled | Deadline => DeadlineExceeded end).
    split; [destruct e; reflexivity|]. split; [destruct e; reflexivity|].
    destruct Hpk as [->|Hr]; simpl.
    + destruct (recv_ready c); destruct e; reflexivity.
    + rewrite Hr. destruct e; reflexivity.
Qed.

Lemma Collect_cancelled_no_partial_witness :
  let s := run collect_step [CSource; CMain PickRecv; CFire Deadline; CSource]
             (collect_start [7; 8]%Z 1 None) in
  c_main s = CLoop (Some [7%Z]) /\ recv_ready (c_chan s) = true /\
  c_main (collect_step (CMain PickDone) s) = CReturn None (Some DeadlineExceeded).
Proof.
  intros s.
  pose proof (Collect_cancelled_no_partial [7; 8]%Z 1 None
                [CSource; CMain PickRecv; CFire Deadline; CSource]) as [_ H].
  destruct (H (Some [7%Z]) PickDone eq_refl eq_refl (or_introl eq_refl))
    as (err & He & _ & Hstep).
  split; [reflexivity|]. split; [reflexivity|].
  inversion He; subst err. exact Hstep.
Defined.

(** C1: [NewSliceStream(S).Map(f).Collect(context.Background())], with the
    worker count 1 that [NewSliceStream] gives, returns [f x] for each [x]
    of [S], in the order of [S], and a nil error: it returns under every
    fair schedule of the three goroutines, and that is the only result it
    can return under any schedule. *)
Theorem Map_sequential_collect {T R : Type} (S : list T) (f : T -> R) :
  let start := pipeline (NewSliceStream S) (fun s => Map s f) in
  (forall rounds : list (list pidN),
     Forall (fair [PSource; PStage; PMain]) rounds -> 4 * length S + 8 <= length rounds ->
     pipe_returned (run pipe_step (concat rounds) start) = true) /\
  (forall (sched : list pidN) (result : slice) (err : option error),
     p_main (run pipe_step sched start) = CReturn result err ->
     elems result = map f S /\ err = None).
Proof.
  intros start.
  change start with (pipe_start (fun item => Some (f item)) 1 S (length S)).
  assert (Hk : S = [] \/ 0 < length S) by (destruct S; simpl; [left|right; lia]; auto).
  split.
  - intros rounds Hf Hlen. apply pipe_returns; auto; simpl; lia.
  - intros sched result err E.
    pose proof (pipe_reachable (fun item => Some (f item)) 1 S (length S)
                  (Z.le_refl 1) sched) as Hinv.
    destruct (pipe_result _ _ _ _ _ result err Hinv E) as (He & _ & Heq).
    rewrite <- omap_Some_map. auto.
Qed.

Lemma Map_sequential_collect_witness :
  let sched := [PSource; PSource; PSource; PSource; PStage; PStage; PStage; PMain;
                PStage; PStage; PMain; PStage; PStage; PMain; PStage; PStage; PMain] in
  p_main (run pipe_step sched
            (pipeline (NewSliceStream [1; 2; 3]%Z) (fun s => Map s (fun x => x * 2)%Z)))
    = CReturn (Some [2; 4; 6]%Z) None /\
  (elems (Some [2; 4; 6]%Z) = map (fun x => x * 2)%Z [1; 2; 3]%Z /\ @None error = None).
Proof.
  intros sched.
  pose proof (Map_sequential_collect [1; 2; 3]%Z (fun x => x * 2)%Z) as H.
  cbv zeta in H. destruct H as [_ H].
  split; [reflexivity|]. apply (H sched). reflexivity.
Defined.

(** C5: [NewSliceStream(S).Filter(p).Collect(context.Background())], with
    worker count 1, returns the elements of [S] that satisfy [p], in the
    order of [S], and a nil error, under every schedule; and it returns
    under every fair schedule. *)
Theorem Filter_sequential_collect {T : Type} (S : list T) (p : T -> bool) :
  let start := pipeline (NewSliceStream S) (fun s => Filter s p) in
  (forall rounds : list (list pidN),
     Forall (fair [PSource; PStage; PMain]) rounds -> 4 * length S + 8 <= length rounds ->
     pipe_returned (run pipe_step (concat rounds) start) = true) /\
  (forall (sched : list pidN) (result : slice) (err : option error),
     p_main (run pipe_step sched start) = CReturn result err ->
     elems result = List.filter p S /\ err = None).
Proof.
  intros start.
  change start
    with (pipe_start (fun item => if p item then Some item else None) 1 S (length S)).
  assert (Hk : S = [] \/ 0 < length S) by (destruct S; simpl; [left|right; lia]; auto).
  split.
  - intros rounds Hf Hlen. apply pipe_returns; auto; simpl; lia.
  - intros sched result err E.
    pose proof (pipe_reachable (fun item => if p item then Some item else None) 1 S
                  (length S) (Z.le_refl 1) sched) as Hinv.
    destruct (pipe_result _ _ _ _ _ result err Hinv E) as (He & _ & Heq).
    rewrite <- omap_if_filter. auto.
Qed.

Lemma Filter_sequential_collect_witness :
  let sched := [PSource; PSource; PSource; PSource; PStage; PStage; PStage; PMain;
                PStage; PStage; PMain; PStage; PStage; PMain; PStage; PStage; PMain] in
  p_main (run pipe_step sched
            (pipeline (NewSliceStream [1; 2; 3]%Z) (fun s => Filter s Z.odd)))
    = CReturn (Some [1; 3]%Z) None /\
  (elems (Some [1; 3]%Z) = List.filter Z.odd [1; 2; 3]%Z /\ @None error = None).
Proof.
  intros sched.
  pose proof (Filter_sequential_collect [1; 2; 3]%Z Z.odd) as H.
  cbv zeta in H. destruct H as [_ H].
  split; [reflexivity|]. apply (H sched). reflexivity.
Defined.

(** C6: with a worker count [N > 1], the elements a [Map] or [Filter] stage
    produces are, as a multiset, those the same stage produces with worker
    count 1 (nothing is lost or duplicated), whatever the two schedules;
    the parallel pipelines return under every fair schedule; and in every
    reachable state in which the downstream channel is closed, [N] workers
    have been started, all of them have finished, and the upstream
    channel is closed and empty. *)
Theorem Parallel_stage_multiset {T R : Type} (S : list T) (f : T -> R) (p : T -> bool)
        (N : Z) :
  (1 < N)%Z ->
  let par_map := pipeline (parallel_slice S N) (fun s => Map s f) in
  let seq_map := pipeline (NewSliceStream S) (fun s => Map s f) in
  let par_filter := pipeline (parallel_slice S N) (fun s => Filter s p) in
  let seq_filter := pipeline (NewSliceStream S) (fun s => Filter s p) in
  (forall rounds : list (list pidN),
     Forall (fair (pipe_pids N)) rounds ->
     4 * length S + 3 * Z.to_nat N + 5 <= length rounds ->
     pipe_returned (run pipe_step (concat rounds) par_map) = true /\
     pipe_returned (run pipe_step (concat rounds) par_filter) = true) /\
  (forall (sched sched1 : list pidN) (result result1 : slice) (err err1 : option error),
     p_main (run pipe_step sched par_map) = CReturn result err ->
     p_main (run pipe_step sched1 seq_map) = CReturn result1 err1 ->
     Permutation (elems result) (elems result1)) /\
  (forall (sched sched1 : list pidN) (result result1 : slice) (err err1 : option error),
     p_main (run pipe_step sched par_filter) = CReturn result err ->
     p_main (run pipe_step sched1 seq_filter) = CReturn result1 err1 ->
     Permutation (elems result) (elems result1)) /\
  (forall sched : list pidN,
     let s := run pipe_step sched par_map in
     Chan.closed (source (p_m s)) = true ->
     Z.of_nat (length (p_pool s)) = N /\ Forall (eq WDone) (p_pool s) /\
     drained (source (p_s s))) /\
  (forall sched : list pidN,
     let s := run pipe_step sched par_filter in
     Chan.closed (source (p_m s)) = true ->
     Z.of_nat (length (p_pool s)) = N /\ Forall (eq WDone) (p_pool s) /\
     drained (source (p_s s))).
Proof.
  intros HN par_map seq_map par_filter seq_filter.
  assert (Em : par_map = pipe_start (fun item => Some (f item)) N S (length S))
    by (apply parallel_slice_start; auto).
  assert (Ef : par_filter =
               pipe_start (fun item => if p item then Some item else None) N S (length S))
    by (apply parallel_slice_start; auto).
  destruct (parallel_stage (fun item => Some (f item)) S N HN) as (Lm & Pm & Cm).
  destruct (parallel_stage (fun item => if p item then Some item else None) S N HN)
    as (Lf & Pf & Cf).
  clearbody par_map par_filter. subst par_map par_filter.
  split; [|split; [|split; [|split]]].
  - intros rounds Hf Hlen. split; [apply Lm|apply Lf]; assumption.
  - intros sched sched1 result result1 err err1 E E1.
    rewrite (sequential_stage (fun item => Some (f item)) S sched1 result1 err1 E1).
    eapply Pm; eassumption.
  - intros sched sched1 result result1 err err1 E E1.
    rewrite (sequential_stage (fun item => if p item then Some item else None) S
               sched1 result1 err1 E1).
    eapply Pf; eassumption.
  - intros sched s. apply Cm.
  - intros sched s. apply Cf.
Qed.

Lemma Parallel_stage_multiset_witness :
  let sched := [PSource; PSource; PSource; PStage; PStage; PStage; PStage; PStage;
                PWorker 2; PWorker 0; PWorker 1; PWorker 1; PWorker 2; PWorker 0;
                PMain; PMain; PMain; PSource; PWorker 0; PWorker 1; PWorker 2;
                PWorker 0; PWorker 1; PWorker 2; PStage; PMain] in
  let sched1 := [PSource; PSource; PSource; PSource; PStage; PStage; PStage; PMain;
                 PStage; PStage; PMain; PStage; PStage; PMain; PStage; PStage; PMain] in
  (1 < 3)%Z /\
  p_main (run pipe_step sched
            (pipeline (parallel_slice [1; 2; 3]%Z 3) (fun s => Map s (Z.mul 2))))
    = CReturn (Some [6; 2; 4]%Z) None /\
  p_main (run pipe_step sched1
            (pipeline (NewSliceStream [1; 2; 3]%Z) (fun s => Map s (Z.mul 2))))
    = CReturn (Some [2; 4; 6]%Z) None /\
  Permutation [6; 2; 4]%Z [2; 4; 6]%Z.
Proof.
  intros sched sched1.
  assert (H3 : (1 < 3)%Z) by lia.
  pose proof (Parallel_stage_multiset [1; 2; 3]%Z (Z.mul 2) Z.even 3 H3) as (_ & Hm & _).
  split; [exact H3|]. split; [reflexivity|]. split; [reflexivity|].
  apply (Hm sched sched1 (Some [6; 2; 4]%Z) (Some [2; 4; 6]%Z) None None); reflexivity.
Defined.

(** C8: for a generator that returns the values [vs] with has-more true and
    then has-more false, [Generator(gen).Collect(context.Background())]
    returns exactly [vs], in the order of the calls, with a nil error: the
    value that comes with has-more false is not among them.  [gen] has
    then been called once more than there are values, and in no reachable
    state has it been called more often than that. *)
Theorem Generator_collect {T G : Type} (gen : G -> T * bool * G) (g : G) (vs : list T) :
  yields gen g vs ->
  (forall rounds : list (list pid2),
     Forall (fair [GSource; GMain]) rounds -> 3 * length vs + 4 <= length rounds ->
     gen_returned (run (gen_step gen) (concat rounds) (gen_start g)) = true) /\
  (forall (sched : list pid2) (result : slice) (err : option error),
     n_main (run (gen_step gen) sched (gen_start g)) = CReturn result err ->
     elems result = vs /\ err = None /\
     n_calls (run (gen_step gen) sched (gen_start g)) = S (length vs)) /\
  (forall sched : list pid2,
     n_calls (run (gen_step gen) sched (gen_start g)) <= S (length vs)).
Proof.
  intros Hy. split; [|split].
  - intros rounds Hf Hlen. apply (Generator_returns gen vs); assumption.
  - intros sched result err E.
    destruct (Generator_result gen vs g sched result err Hy E) as (? & ? & ? & _). auto.
  - intros sched. apply (Generator_calls gen vs g sched Hy).
Qed.

Lemma Generator_collect_witness :
  let sched := [GSource; GSource; GMain; GSource; GSource; GSource; GMain; GMain;
                GSource; GSource; GSource; GSource; GMain; GMain] in
  yields count_to_three 0%Z [1; 2; 3]%Z /\
  n_main (run (gen_step count_to_three) sched (gen_start 0%Z))
    = CReturn (Some [1; 2; 3]%Z) None /\
  n_calls (run (gen_step count_to_three) sched (gen_start 0%Z)) = 4.
Proof.
  intros sched.
  assert (Hy : yields count_to_three 0%Z [1; 2; 3]%Z) by (simpl; auto).
  destruct (Generator_collect count_to_three 0%Z [1; 2; 3]%Z Hy) as (_ & Hres & _).
  split; [exact Hy|]. split; [reflexivity|].
  destruct (Hres sched (Some [1; 2; 3]%Z) None eq_refl) as (_ & _ & Hcalls).
  exact Hcalls.
Defined.

(** C7: [Parallel(w)] stores 1 in the worker count of the stream when [w]
    is not positive and [w] otherwise, and returns the pointer it was
    called on: the struct is updated in place, its channel is the one it
    had, no channel is made and no struct allocated.  [Map] and [Filter]
    on the same stream make a channel that no struct held before and
    return a pointer to a new struct holding it, leaving the struct of the
    receiver as it was. *)
Theorem Parallel_in_place (h : Handle.heap) (s : Handle.ptr)
        (st : stream Handle.chan_ref) (w : Z) :
  Handle.wf h -> Handle.objs h !! s = Some st ->
  (exists h',
     Handle.Parallel s w h = Some (s, h') /\
     Handle.objs h' !! s =
       Some {| source := source st; workers := if (w <=? 0)%Z then 1%Z else w |} /\
     (forall q, q <> s -> Handle.objs h' !! q = Handle.objs h !! q) /\
     length (Handle.objs h') = length (Handle.objs h) /\
     Handle.chans h' = Handle.chans h) /\
  (forall method, method = Handle.Map \/ method = Handle.Filter ->
     exists m hm,
       method s h = Some (m, hm) /\ m <> s /\
       Handle.chans hm = S (Handle.chans h) /\
       Handle.objs hm !! s = Some st /\
       Handle.objs hm !! m = Some {| source := Handle.chans h; workers := workers st |} /\
       Forall (fun st0 => source st0 <> Handle.chans h) (Handle.objs h)).
Proof.
  intros Hwf Hs. pose proof (lookup_lt_Some _ _ _ Hs) as Hlt. split.
  - unfold Handle.Parallel. rewrite Hs. eexists. split; [reflexivity|]. simpl.
    repeat split.
    + rewrite list_lookup_insert_eq by exact Hlt. reflexivity.
    + intros q Hq. apply list_lookup_insert_ne. congruence.
    + apply length_insert.
  - intros method Hm.
    assert (method s h =
            Some (length (Handle.objs h),
                  {| Handle.chans := S (Handle.chans h);
                     Handle.objs := Handle.objs h ++
                       [{| source := Handle.chans h; workers := workers st |}] |})) as ->
      by (destruct Hm as [->| ->]; [unfold Handle.Map|unfold Handle.Filter];
          rewrite Hs; reflexivity).
    do 2 eexists. split; [reflexivity|]. simpl. repeat split.
    + lia.
    + rewrite lookup_app_l by exact Hlt. exact Hs.
    + rewrite lookup_app_r by apply Nat.le_refl. rewrite Nat.sub_diag. reflexivity.
    + eapply Forall_impl; [exact Hwf|]. simpl. intros st0 H0. lia.
Qed.

Lemma Parallel_in_place_witness :
  let '(s, h) := Handle.NewSliceStream {| Handle.chans := 0; Handle.objs := [] |} in
  Handle.wf h /\ Handle.objs h !! s = Some {| source := 0; workers := 1 |} /\
  Handle.Parallel s (-2) h = Some (s, h) /\
  Handle.Parallel s 3 h =
    Some (s, {| Handle.chans := 1; Handle.objs := [{| source := 0; workers := 3 |}] |}) /\
  exists m hm, Handle.Map s h = Some (m, hm) /\ m <> s.
Proof.
  simpl.
  assert (Hwf : Handle.wf {| Handle.chans := 1;
                             Handle.objs := [{| source := 0; workers := 1 |}] |})
    by (repeat constructor).
  destruct (Parallel_in_place _ 0 {| source := 0; workers := 1 |} 3 Hwf eq_refl)
    as (_ & Hm).
  destruct (Hm Handle.Map (or_introl eq_refl)) as (m & hm & E & Hne & _).
  split; [exact Hwf|]. split; [reflexivity|]. split; [reflexivity|].
  split; [reflexivity|]. exists m, hm. auto.
Defined.

(** * Further properties of the code *)

(** ** Collect *)

(** X1: with a context that is never done, [Collect] on a source that
    yields [xs] returns exactly [xs], in the order of arrival, with a nil
    error; the slice is nil exactly when the source yielded nothing.  It
    returns under every fair schedule. *)
Theorem Collect_in_order {T : Type} (xs : list T) (n : nat) :
  xs = [] \/ 0 < n ->
  (forall rounds : list (list pid2),
     Forall (fair [GSource; GMain]) rounds -> 2 * length xs + 2 <= length rounds ->
     collect_returned
       (run collect_quiet_step (concat rounds) (collect_start xs n Background)) = true) /\
  (forall (sched : list pid2) (result : slice) (err : option error),
     c_main (run collect_quiet_step sched (collect_start xs n Background))
       = CReturn result err ->
     result = (if is_nil xs then None else Some xs) /\ err = None).
Proof.
  intros Hn. split.
  - intros rounds Hf Hlen. apply Collect_returns; assumption.
  - intros sched result err E.
    destruct (Collect_quiet_reachable xs n sched) as [(_ & _ & Hm) Hctx].
    rewrite E in Hm. destruct Hm as [(He & Hel & Hne)|(Hd & _)].
    + split; [|exact He]. destruct result as [l|]; simpl in Hel; subst xs.
      * destruct l; [congruence|reflexivity].
      * reflexivity.
    + rewrite Hctx in Hd. discriminate.
Qed.

Lemma Collect_in_order_witness :
  (([1; 2; 3]%Z = [] \/ 0 < 1) /\
   c_main (run collect_quiet_step
             [GSource; GMain; GSource; GSource; GMain; GMain; GSource; GMain; GSource; GMain]
             (collect_start [1; 2; 3]%Z 1 Background))
     = CReturn (Some [1; 2; 3]%Z) None) /\
  (Some [1; 2; 3]%Z = Some [1; 2; 3]%Z /\ @None error = None).
Proof.
  assert (Hn : [1; 2; 3]%Z = [] \/ 0 < 1) by (right; lia).
  destruct (Collect_in_order [1; 2; 3]%Z 1 Hn) as [_ H].
  split; [split; [exact Hn|reflexivity]|].
  apply (H [GSource; GMain; GSource; GSource; GMain; GMain; GSource; GMain; GSource; GMain]). reflexivity.
Defined.

(** X2: whatever the context does, a nil error from [Collect] means the
    whole sequence: if [Collect] returns a nil error, the slice it returns
    holds every element the source yields, in order, also when the
    signal fired during the drain. *)
Theorem Collect_nil_error_complete {T : Type} (xs : list T) (n : nat) (ctx : context)
        (sched : list pid3) (result : slice) :
  c_main (run collect_step sched (collect_start xs n ctx)) = CReturn result None ->
  elems result = xs.
Proof.
  intros E. pose proof (Collect_reachable xs n ctx sched) as (_ & _ & Hm).
  rewrite E in Hm. destruct Hm as [(_ & Hel & _)|(Hd & He & _)]; [exact Hel|].
  destruct (c_ctx (run collect_step sched (collect_start xs n ctx))) as [[|]|];
    discriminate.
Qed.

Lemma Collect_nil_error_complete_witness :
  let sched := [CSource; CSource; CMain PickRecv; CFire Cancel; CMain PickRecv; CSource;
                CMain PickRecv] in
  c_main (run collect_step sched (collect_start [4; 5]%Z 2 None))
    = CReturn (Some [4; 5]%Z) None /\
  elems (Some [4; 5]%Z) = [4; 5]%Z.
Proof.
  intros sched. split; [reflexivity|].
  apply (Collect_nil_error_complete [4; 5]%Z 2 None sched). reflexivity.
Defined.

Lemma collect_main_returned {T : Type} (picks : list pick) (s : @collect_sys T)
      (result : slice) (err : option error) :
  c_main s = CReturn result err ->
  c_main (run collect_step (map CMain picks) s) = CReturn result err.
Proof.
  revert s. induction picks as [|pk picks IH]; intros s E; simpl; [exact E|].
  apply IH. destruct s as [g c ctx m]. simpl in *. subst m. reflexivity.
Qed.

Lemma collect_cancel_drain {T : Type} (picks : list pick) (s : @collect_sys T)
      (e : cause) (result : slice) :
  c_ctx s = Some e -> Chan.closed (c_chan s) = false -> c_main s = CLoop result ->
  length (Chan.buf (c_chan s)) < length picks ->
  c_main (run collect_step (map CMain picks) s) = CReturn None (ctx_Err (Some e)).
Proof.
  revert s result. induction picks as [|pk picks IH]; intros s result Hc Hcl Hm Hlen;
    simpl in *; [lia|].
  destruct s as [g [b k cl] ctx m]. simpl in *. subst ctx cl m.
  destruct b as [|item b]; simpl in *.
  - apply collect_main_returned. reflexivity.
  - destruct pk.
    + apply (IH _ (append result item)); simpl; auto. lia.
    + apply collect_main_returned. reflexivity.
Qed.

(** X3: once the signal has fired, if the source stays idle and has not
    closed its channel, [Collect] returns the error of the context and a
    nil slice after at most one iteration more than there are elements
    waiting in the channel, whichever cases its [select] takes. *)
Theorem Collect_cancel_bounded {T : Type} (xs : list T) (n : nat) (ctx : context)
        (sched : list pid3) (picks : list pick) (e : cause) (result : slice) :
  let s := run collect_step sched (collect_start xs n ctx) in
  c_ctx s = Some e -> c_main s = CLoop result -> Chan.closed (c_chan s) = false ->
  length (Chan.buf (c_chan s)) < length picks ->
  exists err, ctx_Err (Some e) = Some err /\ is_ctx_error err = true /\
    c_main (run collect_step (map CMain picks) s) = CReturn None (Some err).
Proof.
  intros s Hc Hm Hcl Hlen.
  exists (match e with Cancel => Canceled | Deadline => DeadlineExceeded end).
  split; [destruct e; reflexivity|]. split; [destruct e; reflexivity|].
  rewrite (collect_cancel_drain picks s e result Hc Hcl Hm Hlen). destruct e; reflexivity.
Qed.

Lemma Collect_cancel_bounded_witness :
  let sched := [CSource; CSource; CSource; CMain PickRecv; CFire Deadline] in
  let s := run collect_step sched (collect_start [1; 2; 3; 4]%Z 4 None) in
  (c_ctx s = Some Deadline /\ c_main s = CLoop (Some [1%Z]) /\
   Chan.closed (c_chan s) = false /\ length (Chan.buf (c_chan s)) < 3) /\
  c_main (run collect_step (map CMain [PickRecv; PickRecv; PickRecv]) s)
    = CReturn None (Some DeadlineExceeded).
Proof.
  intros sched s.
  assert (H : c_ctx s = Some Deadline /\ c_main s = CLoop (Some [1%Z]) /\
              Chan.closed (c_chan s) = false /\ length (Chan.buf (c_chan s)) < 3)
    by (repeat split; simpl; lia).
  split; [exact H|]. destruct H as (Hc & Hm & Hcl & Hlen).
  destruct (Collect_cancel_bounded [1; 2; 3; 4]%Z 4 None sched
              [PickRecv; PickRecv; PickRecv] Deadline (Some [1%Z]) Hc Hm Hcl Hlen)
    as (err & He & _ & Hret).
  inversion He; subst err. exact Hret.
Defined.

(** ** Map and Filter with any worker count *)

Lemma coerced_pos (w : Z) : (1 <= coerced w)%Z.
Proof. unfold coerced. destruct (Z.leb_spec w 0); lia. Qed.

Lemma Map_Collect_start {T R : Type} (S : list T) (w : Z) (f : T -> R) :
  Map_Collect S w f = pipe_start (fun item => Some (f item)) (coerced w) S (length S).
Proof. reflexivity. Qed.

Lemma Filter_Collect_start {T : Type} (S : list T) (w : Z) (p : T -> bool) :
  Filter_Collect S w p =
  pipe_start (fun item => if p item then Some item else None) (coerced w) S (length S).
Proof. reflexivity. Qed.

Lemma slice_has_room {T : Type} (S : list T) : S = [] \/ 0 < length S.
Proof. destruct S; simpl; [left; reflexivity|right; lia]. Qed.

Lemma running_lookup {R : Type} (pool : list (worker R)) (i : nat) (w : worker R) :
  pool !! i = Some w -> running w = true -> 0 < length (List.filter running pool).
Proof.
  intros Hi Hw. destruct (pool_split pool i w Hi) as (l1 & l2 & -> & _).
  rewrite List.filter_app, length_app. simpl. rewrite Hw. simpl. lia.
Qed.

Lemma pipe_disciplined {T R : Type} (body : T -> option R) (n : Z) (xs : list T) (k : nat)
      (s : pipe_sys T R) :
  pipe_inv body n xs k s -> disciplined s.
Proof.
  intros Hinv. pose proof (pipe_closed body n xs k s Hinv) as Hclosed.
  destruct Hinv as (_ & (Hs1 & _) & (Hwg & _ & _ & Hst) & _).
  unfold disciplined. repeat split.
  - rewrite Hs1. destruct (p_src s); [reflexivity|congruence].
  - destruct (control (p_go s)) as [|w|i| |]; try exact I.
    + destruct w; try exact I; apply Hst.
    + apply Hst.
  - intros i r Hi. destruct (Chan.closed (source (p_m s))) eqn:E; [|reflexivity].
    destruct (Hclosed eq_refl) as (_ & _ & Hd & _).
    rewrite Forall_forall in Hd.
    assert (WDone = WSend r) by (apply Hd; eapply list_elem_of_lookup_2, Hi).
    discriminate.
  - intros i Hi. rewrite Hwg. eapply running_lookup; [exact Hi|reflexivity].
Qed.

Lemma pipe_pool_bounded {T R : Type} (body : T -> option R) (n : Z) (xs : list T) (k : nat)
      (s : pipe_sys T R) :
  (1 <= n)%Z -> pipe_inv body n xs k s -> pool_bounded n s.
Proof.
  intros Hn (_ & _ & (_ & _ & Hone & Hst) & _). unfold pool_bounded.
  split; [exact Hone|].
  destruct (control (p_go s)) as [|w|i| |].
  - destruct Hst as [-> _]. simpl. split; [lia|]. intros _ [E|E]; discriminate.
  - destruct Hst as (Hn1 & _). rewrite (Hone Hn1). simpl. split; [lia|].
    intros _ [E|E]; discriminate.
  - destruct Hst as (Hn1 & Hi & Hlen & _). split; [lia|]. intros _ [E|E]; discriminate.
  - destruct Hst as (Hn1 & Hlen & _). split; [lia|]. intros _ _. exact Hlen.
  - destruct Hst as (_ & _ & _ & Hlen). destruct (Z.eq_dec n 1%Z) as [E|E].
    + rewrite (Hone E). simpl. split; [lia|]. contradiction.
    + rewrite (Hlen E). split; [lia|]. reflexivity.
Qed.

(** X4: in no reachable state of a [Map] or [Filter] pipeline, whatever the
    worker count given to [Parallel], is a goroutine about to panic: the
    source and the stage send on and close only open channels (each
    channel is closed once, by its producer, after its last send), and
    [wg.Done()] never makes the counter negative. *)
Theorem Stage_never_panics {T R : Type} (S : list T) (w : Z) (f : T -> R) (p : T -> bool)
        (sched : list pidN) :
  disciplined (run pipe_step sched (Map_Collect S w f)) /\
  disciplined (run pipe_step sched (Filter_Collect S w p)).
Proof.
  split.
  - rewrite Map_Collect_start. eapply pipe_disciplined.
    apply pipe_reachable, coerced_pos.
  - rewrite Filter_Collect_start. eapply pipe_disciplined.
    apply pipe_reachable, coerced_pos.
Qed.

(** X5: a stage never starts more goroutines than its worker count: none
    when the count is 1 (the stage goroutine does the work itself), at
    most [w] otherwise, and exactly [w] by the time it waits for them. *)
Theorem Stage_worker_bound {T R : Type} (S : list T) (w : Z) (f : T -> R) (p : T -> bool)
        (sched : list pidN) :
  pool_bounded (coerced w) (run pipe_step sched (Map_Collect S w f)) /\
  pool_bounded (coerced w) (run pipe_step sched (Filter_Collect S w p)).
Proof.
  split.
  - rewrite Map_Collect_start. eapply pipe_pool_bounded; [apply coerced_pos|].
    apply pipe_reachable, coerced_pos.
  - rewrite Filter_Collect_start. eapply pipe_pool_bounded; [apply coerced_pos|].
    apply pipe_reachable, coerced_pos.
Qed.

Lemma stage_any_workers {T R : Type} (body : T -> option R) (S : list T) (w : Z) :
  let start := pipe_start body (coerced w) S (length S) in
  (forall rounds : list (list pidN),
     Forall (fair (pipe_pids (coerced w))) rounds ->
     4 * length S + 3 * Z.to_nat (coerced w) + 5 <= length rounds ->
     pipe_returned (run pipe_step (concat rounds) start) = true) /\
  (forall (sched : list pidN) (result : slice) (err : option error),
     p_main (run pipe_step sched start) = CReturn result err ->
     err = None /\ Permutation (elems result) (omap body S) /\
     ((w <= 1)%Z -> elems result = omap body S)).
Proof.
  intros start. pose proof (coerced_pos w) as Hn. split.
  - intros rounds Hf Hlen. apply pipe_returns; auto. apply slice_has_room.
  - intros sched result err E.
    pose proof (pipe_reachable body (coerced w) S (length S) Hn sched) as Hinv.
    destruct (pipe_result _ _ _ _ _ result err Hinv E) as (He & Hp & Heq).
    repeat split; auto. intros Hw. apply Heq.
    unfold coerced. destruct (Z.leb_spec w 0); lia.
Qed.

(** X6: for every integer [w], also a non-positive one,
    [NewSliceStream(S).Parallel(w).Map(f).Collect(context.Background())]
    returns under every fair schedule, with a nil error and a slice that
    holds the values [f x] for [x] in [S], each as often as in [map f S],
    so as many elements as [S] has; when [w <= 1] they are in the order of
    [S]. *)
Theorem Map_any_worker_count {T R : Type} (S : list T) (w : Z) (f : T -> R) :
  (forall rounds : list (list pidN),
     Forall (fair (pipe_pids (coerced w))) rounds ->
     4 * length S + 3 * Z.to_nat (coerced w) + 5 <= length rounds ->
     pipe_returned (run pipe_step (concat rounds) (Map_Collect S w f)) = true) /\
  (forall (sched : list pidN) (result : slice) (err : option error),
     p_main (run pipe_step sched (Map_Collect S w f)) = CReturn result err ->
     err = None /\ Permutation (elems result) (map f S) /\
     length (elems result) = length S /\
     ((w <= 1)%Z -> elems result = map f S)).
Proof.
  rewrite Map_Collect_start.
  destruct (stage_any_workers (fun item => Some (f item)) S w) as [Hret Hres].
  split; [exact Hret|]. intros sched result err E.
  destruct (Hres sched result err E) as (He & Hp & Heq).
  rewrite omap_Some_map in *. repeat split; auto.
  rewrite (Permutation_length Hp). apply length_map.
Qed.

Lemma Map_any_worker_count_witness :
  let sched := [PSource; PSource; PSource; PSource; PStage; PStage; PStage; PMain;
                PStage; PStage; PMain; PStage; PStage; PMain; PStage; PStage; PMain] in
  p_main (run pipe_step sched (Map_Collect [1; 2; 3]%Z (-4) Z.opp))
    = CReturn (Some [-1; -2; -3]%Z) None /\
  elems (Some [-1; -2; -3]%Z) = map Z.opp [1; 2; 3]%Z.
Proof.
  intros sched. split; [reflexivity|].
  destruct (Map_any_worker_count [1; 2; 3]%Z (-4) Z.opp) as [_ H].
  destruct (H sched (Some [-1; -2; -3]%Z) None eq_refl) as (_ & _ & _ & Heq).
  apply Heq. lia.
Defined.

(** X7: for every integer [w],
    [NewSliceStream(S).Parallel(w).Filter(p).Collect(context.Background())]
    returns under every fair schedule, with a nil error and a slice that
    holds the elements of [S] that satisfy [p], each as often as in [S]:
    no rejected element gets through and no accepted one is lost; when
    [w <= 1] they are in the order of [S]. *)
Theorem Filter_any_worker_count {T : Type} (S : list T) (w : Z) (p : T -> bool) :
  (forall rounds : list (list pidN),
     Forall (fair (pipe_pids (coerced w))) rounds ->
     4 * length S + 3 * Z.to_nat (coerced w) + 5 <= length rounds ->
     pipe_returned (run pipe_step (concat rounds) (Filter_Collect S w p)) = true) /\
  (forall (sched : list pidN) (result : slice) (err : option error),
     p_main (run pipe_step sched (Filter_Collect S w p)) = CReturn result err ->
     err = None /\ Permutation (elems result) (List.filter p S) /\
     Forall (fun x => p x = true) (elems result) /\
     ((w <= 1)%Z -> elems result = List.filter p S)).
Proof.
  rewrite Filter_Collect_start.
  destruct (stage_any_workers (fun item => if p item then Some item else None) S w)
    as [Hret Hres].
  split; [exact Hret|]. intros sched result err E.
  destruct (Hres sched result err E) as (He & Hp & Heq).
  rewrite omap_if_filter in *. repeat split; auto.
  apply Forall_forall. intros x Hx. apply list_elem_of_In in Hx.
  apply (Permutation_in _ Hp), filter_In in Hx. apply Hx.
Qed.

Lemma Filter_any_worker_count_witness :
  let sched := round_robin (pipe_pids 2) 25 in
  p_main (run pipe_step sched (Filter_Collect [1; 2; 3; 4]%Z 2 Z.even))
    = CReturn (Some [2; 4]%Z) None /\
  Forall (fun x => Z.even x = true) (elems (Some [2; 4]%Z)).
Proof.
  intros sched. split; [reflexivity|].
  destruct (Filter_any_worker_count [1; 2; 3; 4]%Z 2 Z.even) as [_ H].
  apply (H sched (Some [2; 4]%Z) None eq_refl).
Defined.

(** ** Stream handles *)

Lemma api_ok_new (h : Handle.heap) (n : Z) :
  (1 <= n)%Z -> api_ok h ->
  api_ok {| Handle.chans := S (Handle.chans h);
            Handle.objs := Handle.objs h ++ [{| source := Handle.chans h; workers := n |}] |}.
Proof.
  intros Hn [Hs Hw]. split; cbn [Handle.objs Handle.chans].
  - rewrite map_app, Hs, seq_S. reflexivity.
  - apply Forall_app. split; [exact Hw|]. constructor; [exact Hn|constructor].
Qed.

Lemma api_ok_lookup (h : Handle.heap) (s : Handle.ptr) (st : stream Handle.chan_ref) :
  api_ok h -> Handle.objs h !! s = Some st -> (1 <= workers st)%Z.
Proof.
  intros [_ Hw] Hs. rewrite Forall_forall in Hw. apply Hw.
  eapply list_elem_of_lookup_2, Hs.
Qed.

Lemma api_ok_step (h : Handle.heap) (c : api_call) : api_ok h -> api_ok (api_step h c).
Proof.
  intros Hok. destruct c as [| | |s w|s|s]; simpl.
  - apply api_ok_new; [lia|exact Hok].
  - apply api_ok_new; [lia|exact Hok].
  - apply api_ok_new; [lia|exact Hok].
  - unfold Handle.Parallel. destruct (Handle.objs h !! s) as [st|] eqn:Hs; [|exact Hok].
    simpl. destruct (pool_split _ s st Hs) as (l1 & l2 & Hobjs & Hins).
    destruct Hok as [Hsrc Hw]. unfold api_ok. simpl. rewrite Hins.
    rewrite Hobjs in Hsrc, Hw. rewrite map_app in *. simpl in *.
    split; [exact Hsrc|].
    rewrite Forall_app, Forall_cons in *. repeat split; try apply Hw.
    apply coerced_pos.
  - unfold Handle.Map. destruct (Handle.objs h !! s) as [st|] eqn:Hs; [|exact Hok].
    simpl. apply api_ok_new; [eapply api_ok_lookup; eassumption|exact Hok].
  - unfold Handle.Filter. destruct (Handle.objs h !! s) as [st|] eqn:Hs; [|exact Hok].
    simpl. apply api_ok_new; [eapply api_ok_lookup; eassumption|exact Hok].
Qed.

Lemma api_exec_ok (calls : list api_call) : api_ok (api_exec calls).
Proof.
  unfold api_exec.
  assert (H0 : api_ok {| Handle.chans := 0; Handle.objs := [] |})
    by (split; [reflexivity|constructor]).
  revert H0. generalize {| Handle.chans := 0; Handle.objs := [] |}.
  induction calls as [|c calls IH]; intros h Hh; simpl; [exact Hh|].
  apply IH, api_ok_step, Hh.
Qed.

(** X8: after any sequence of constructor, [Parallel], [Map] and [Filter]
    calls, every stream has a worker count of at least 1 (so the capacity
    given to [make] by [Map] and [Filter] is positive), every stream holds
    a channel that has been made, and no two streams hold the same
    channel. *)
Theorem Streams_own_their_channels (calls : list api_call) :
  let h := api_exec calls in
  Forall (fun st => (1 <= workers st)%Z) (Handle.objs h) /\
  Handle.wf h /\
  NoDup (map source (Handle.objs h)) /\
  length (Handle.objs h) = Handle.chans h.
Proof.
  intros h. destruct (api_exec_ok calls) as [Hs Hw]. fold h in Hs, Hw.
  split; [exact Hw|]. split; [|split].
  - unfold Handle.wf. apply Forall_forall. intros st Hst.
    assert (Hin : In (source st) (map source (Handle.objs h)))
      by (apply in_map, list_elem_of_In, Hst).
    rewrite Hs in Hin. apply in_seq in Hin. lia.
  - rewrite Hs. apply NoDup_ListNoDup, seq_NoDup.
  - rewrite <- (length_map source), Hs. apply length_seq.
Qed.

Lemma chain_inherits (ks : list stage_kind) (s : Handle.ptr) (h : Handle.heap)
      (st : stream Handle.chan_ref) :
  Handle.objs h !! s = Some st ->
  exists m h' stm,
    chain ks s h = Some (m, h') /\ Handle.objs h' !! m = Some stm /\
    workers stm = workers st.
Proof.
  revert s h st. induction ks as [|k ks IH]; intros s h st Hs; simpl.
  - exists s, h, st. auto.
  - assert (E : (match k with KMap => Handle.Map s h | KFilter => Handle.Filter s h end) =
                Some (length (Handle.objs h),
                      {| Handle.chans := S (Handle.chans h);
                         Handle.objs := Handle.objs h ++
                           [{| source := Handle.chans h; workers := workers st |}] |}))
      by (destruct k; [unfold Handle.Map|unfold Handle.Filter]; rewrite Hs; reflexivity).
    rewrite E.
    destruct (IH (length (Handle.objs h))
                {| Handle.chans := S (Handle.chans h);
                   Handle.objs := Handle.objs h ++
                     [{| source := Handle.chans h; workers := workers st |}] |}
                {| source := Handle.chans h; workers := workers st |})
      as (m & h' & stm & Hc & Hm & Hw).
    { simpl. rewrite lookup_app_r by apply Nat.le_refl. rewrite Nat.sub_diag. reflexivity. }
    exists m, h', stm. auto.
Qed.

(** X9: the worker count that [Parallel(w)] stores is inherited by every
    stream derived from it: after [s.Parallel(w)], whatever chain of [Map]
    and [Filter] calls follows, the stream at its end has the worker count
    1 if [w] is not positive and [w] otherwise. *)
Theorem Parallel_inherited (h : Handle.heap) (s : Handle.ptr)
        (st : stream Handle.chan_ref) (w : Z) (ks : list stage_kind) :
  Handle.objs h !! s = Some st ->
  exists h1 m h2 stm,
    Handle.Parallel s w h = Some (s, h1) /\
    chain ks s h1 = Some (m, h2) /\
    Handle.objs h2 !! m = Some stm /\
    workers stm = (if (w <=? 0)%Z then 1%Z else w).
Proof.
  intros Hs. unfold Handle.Parallel. rewrite Hs. eexists.
  destruct (chain_inherits ks s
              {| Handle.chans := Handle.chans h;
                 Handle.objs := <[s := Parallel st w]> (Handle.objs h) |}
              (Parallel st w)) as (m & h2 & stm & Hc & Hm & Hw).
  { simpl. apply list_lookup_insert_eq. eapply lookup_lt_Some, Hs. }
  exists m, h2, stm. repeat split; auto.
Qed.

Lemma Parallel_inherited_witness :
  let '(s, h) := Handle.NewSliceStream {| Handle.chans := 0; Handle.objs := [] |} in
  Handle.objs h !! s = Some {| source := 0; workers := 1 |} /\
  exists h1 m h2,
    Handle.Parallel s 3 h = Some (s, h1) /\
    chain [KFilter; KMap; KFilter] s h1 = Some (m, h2) /\
    Handle.objs h2 !! m = Some {| source := 3; workers := 3 |}.
Proof.
  simpl. split; [reflexivity|].
  destruct (Parallel_inherited {| Handle.chans := 1;
                                  Handle.objs := [{| source := 0; workers := 1 |}] |}
              0 {| source := 0; workers := 1 |} 3 [KFilter; KMap; KFilter] eq_refl)
    as (h1 & m & h2 & stm & Hp & Hc & Hm & Hw).
  exists h1, m, h2. split; [exact Hp|]. split; [exact Hc|].
  inversion Hp; subst h1. inversion Hc; subst m h2. reflexivity.
Defined.


(** ** NewChanStream *)

Lemma relay_inv_start {T : Type} (xs : list T) (k : nat) :
  pipe_live_inv (fun item => Some item) 1 xs k (relay_start xs k).
Proof.
  split; [|simpl; lia].
  unfold pipe_inv, source_ok, stage_ok, main_ok, contents. simpl.
  repeat split; auto; try lia; discriminate.
Qed.

Lemma omap_Some_id {T : Type} (xs : list T) : omap (fun item => Some item) xs = xs.
Proof. rewrite (omap_Some_map (fun item => item)). apply map_id. Qed.

Lemma relay_reachable {T : Type} (xs : list T) (k : nat) (sched : list pidN) :
  pipe_inv (fun item => Some item) 1 xs k (run pipe_step sched (relay_start xs k)).
Proof.
  apply run_inv; [apply pipe_inv_step; lia|apply relay_inv_start].
Qed.



(** ** Chains of sequential stages

    A network that delivers [ys], with a caller that consumes what it
    receives. *)

Section SysFacts.
Context {T : Type} (N : network T) (D : consumer T).
Variable V : net_view N.
Variable w_inv : list T -> con_state D -> Prop.
Variable ys : list T.
Hypothesis HN : delivers N V ys.
Hypothesis HD : consumes D w_inv.

Lemma sys_inv_start : sys_inv V w_inv ys (sys_start N D).
Proof.
  destruct HN as ((Hi & Hb & Hp) & _). destruct HD as ((Hw & Hr) & _).
  unfold sys_inv, sys_start. split; [exact Hi|].
  exists []. rewrite Hb, Hp. repeat split; auto. rewrite Hr. discriminate.
Qed.

Lemma sys_inv_step (p : option (net_pid N)) (s : net_state N * chan T * con_state D) :
  sys_inv V w_inv ys s -> sys_inv V w_inv ys (sys_step N D p s).
Proof.
  destruct HN as (_ & Hstep & Hpop & Hclosed & _). destruct HD as (_ & _ & Hcon).
  destruct s as [[x c] d]. simpl. intros (Hinv & seen & Hw & Hys & Hret).
  destruct p as [q|].
  - (* a goroutine of the network *)
    destruct (Hstep q x c Hinv) as [Hinv' Hok].
    destruct (net_step N q x c) as [x' c']. simpl in *. split; [exact Hinv'|].
    exists seen. split; [exact Hw|]. split; [|exact Hret].
    destruct Hok as [[-> ->]|(_ & [[-> E]|[(item & E & _ & ->)|(E & E' & _ & ->)]])];
      simpl; rewrite ?E, ?E' in *; auto.
    rewrite <- Hys, <- !app_assoc. reflexivity.
  - (* the caller *)
    destruct (Hcon seen d c Hw)
      as [[E _]|[(Hr & item & rest & Hb & Hc & Hw' & Hr')|(Hr & Hb & Hcl & Hc & Hr' & Hw')]].
    + rewrite E. split; [exact Hinv|]. exists seen. auto.
    + destruct (con_step D d c) as [d' c']. simpl in *. subst c'.
      split; [eapply Hpop; eassumption|].
      exists (seen ++ [item]). split; [exact Hw'|]. split.
      * rewrite <- Hys, Hb, <- app_assoc. reflexivity.
      * rewrite Hr'. discriminate.
    + destruct (con_step D d c) as [d' c']. simpl in *. subst c'.
      split; [exact Hinv|]. exists seen. split; [exact Hw'|]. split; [exact Hys|].
      intros _. rewrite <- Hys, Hb, (Hclosed x c Hinv Hcl). simpl. rewrite app_nil_r.
      reflexivity.
Qed.

Lemma sys_step_mu (p : option (net_pid N)) (s : net_state N * chan T * con_state D) :
  sys_inv V w_inv ys s ->
  sys_step N D p s = s \/ sys_mu V (sys_step N D p s) < sys_mu V s.
Proof.
  destruct HN as (_ & Hstep & _). destruct HD as (_ & _ & Hcon).
  destruct s as [[x c] d]. simpl. intros (Hinv & seen & Hw & Hys & Hret).
  destruct p as [q|].
  - destruct (Hstep q x c Hinv) as [_ Hok].
    destruct (net_step N q x c) as [x' c']. simpl in *.
    destruct Hok as [[-> ->]|(Hlt & _)]; [left; reflexivity|right; lia].
  - destruct (Hcon seen d c Hw)
      as [[E _]|[(Hr & item & rest & Hb & Hc & Hw' & Hr')|(Hr & Hb & Hcl & Hc & Hr' & Hw')]].
    + left. rewrite E. reflexivity.
    + right. destruct (con_step D d c) as [d' c']. simpl in *. subst c'.
      rewrite Hr, Hr', Hb. simpl. lia.
    + right. destruct (con_step D d c) as [d' c']. simpl in *. subst c'.
      rewrite Hr, Hr'. lia.
Qed.

Lemma sys_progress (s : net_state N * chan T * con_state D) :
  sys_inv V w_inv ys s -> sys_returned N D s = false ->
  exists p, In p (sys_pids N) /\ sys_step N D p s <> s.
Proof.
  destruct HN as (_ & _ & _ & _ & Hprog). destruct HD as (_ & _ & Hcon).
  destruct s as [[x c] d]. unfold sys_returned. simpl.
  intros (Hinv & seen & Hw & Hys & _) Hr.
  assert (Hmain : Chan.buf c <> [] \/ Chan.closed c = true ->
                  sys_step N D None (x, c, d) <> (x, c, d)).
  { intros Hready. simpl.
    destruct (Hcon seen d c Hw)
      as [[_ [E|[E1 E2]]]|[(_ & item & rest & Hb & Hc & _)|(_ & _ & _ & _ & Hr' & _)]].
    - congruence.
    - destruct Hready; congruence.
    - destruct (con_step D d c) as [d' c']. simpl in *. subst c'.
      intros E; inversion E as [[E1 E2]]. apply (f_equal Chan.buf) in E1.
      rewrite Hb in E1. simpl in E1. apply (f_equal (@length T)) in E1. simpl in E1. lia.
    - destruct (con_step D d c) as [d' c']. simpl in *.
      intros E; inversion E; subst. congruence. }
  destruct (Chan.buf c) as [|item rest] eqn:Hb.
  - destruct (Chan.closed c) eqn:Hcl.
    + exists None. split; [left; reflexivity|]. apply Hmain. auto.
    + destruct (Hprog x c Hinv Hcl Hb) as (q & Hin & Hq).
      exists (Some q). split; [right; apply in_map, Hin|]. simpl.
      destruct (net_step N q x c) as [x' c']. intros E; inversion E; subst.
      apply Hq. reflexivity.
  - exists None. split; [left; reflexivity|]. apply Hmain. left. discriminate.
Qed.

Lemma sys_returned_step (p : option (net_pid N)) (s : net_state N * chan T * con_state D) :
  sys_returned N D s = true -> sys_returned N D (sys_step N D p s) = true.
Proof.
  destruct HD as (_ & Hidle & _). destruct s as [[x c] d]. unfold sys_returned. simpl.
  intros Hr. destruct p as [q|].
  - destruct (net_step N q x c). exact Hr.
  - rewrite (Hidle d c Hr). exact Hr.
Qed.

(** The caller returns under every fair schedule. *)
Lemma sys_returns (rounds : list (list (option (net_pid N)))) :
  Forall (fair (sys_pids N)) rounds ->
  v_mu V (net_init N) + 1 <= length rounds ->
  sys_returned N D (run (sys_step N D) (concat rounds) (sys_start N D)) = true.
Proof.
  intros Hf Hlen.
  apply (fair_rounds_return (sys_step N D) (sys_inv V w_inv ys) sys_inv_step
           (sys_mu V) (sys_returned N D) (sys_pids N)); auto.
  - apply sys_step_mu.
  - apply sys_progress.
  - apply sys_returned_step.
  - apply sys_inv_start.
  - destruct HN as ((_ & Hb & _) & _). destruct HD as ((_ & Hr) & _).
    unfold sys_mu, sys_start. rewrite Hb, Hr. simpl. lia.
Qed.

(** Every reachable state satisfies the invariant. *)
Lemma sys_reachable (sched : list (option (net_pid N))) :
  sys_inv V w_inv ys (run (sys_step N D) sched (sys_start N D)).
Proof.
  apply (run_inv (sys_step N D) (sys_inv V w_inv ys) sys_inv_step). apply sys_inv_start.
Qed.

(** What the caller has received so far is a prefix of [ys]. *)
Lemma sys_prefix (sched : list (option (net_pid N))) :
  exists seen todo, w_inv seen (run (sys_step N D) sched (sys_start N D)).2 /\
                    seen ++ todo = ys.
Proof.
  pose proof (sys_reachable sched) as Hinv.
  destruct (run (sys_step N D) sched (sys_start N D)) as [[x c] d]. simpl in *.
  destruct Hinv as (_ & seen & Hw & Hys & _). eauto.
Qed.

(** When the caller has returned, it has received exactly [ys]. *)
Lemma sys_result (sched : list (option (net_pid N))) :
  con_returned D (run (sys_step N D) sched (sys_start N D)).2 = true ->
  w_inv ys (run (sys_step N D) sched (sys_start N D)).2.
Proof.
  pose proof (run_inv (sys_step N D) (sys_inv V w_inv ys) sys_inv_step sched _
                sys_inv_start) as Hinv.
  destruct (run (sys_step N D) sched (sys_start N D)) as [[x c] d]. simpl in *.
  destruct Hinv as (_ & seen & Hw & _ & Hret). intros Hr. rewrite <- (Hret Hr). exact Hw.
Qed.
End SysFacts.

(** The goroutine of [NewSliceStream(data)] delivers [data]. *)
Lemma slice_delivers {T : Type} (data : list T) :
  delivers (slice_net data) (slice_view data) data.
Proof.
  unfold delivers. simpl. split; [|split; [|split; [|split]]].
  - repeat split; auto. destruct data; simpl; [left; reflexivity|right; lia].
  - intros _ g [b k cl] [Hcl Hcap]. simpl in *. subst cl. unfold net_step_ok. simpl.
    destruct g as [[|item rest]|]; simpl in *.
    + split; [auto|]. right. split; [lia|]. right. right. auto.
    + unfold Chan.send; simpl. destruct (Nat.ltb_spec (length b) k); simpl.
      * split; [split; [reflexivity|right; lia]|]. right. rewrite length_app. simpl.
        split; [lia|]. right. left. exists item. auto.
      * split; auto.
    + split; auto.
  - intros g c item rest [Hcl Hcap] _. simpl. auto.
  - intros g c [Hcl _] Hc. rewrite Hc in Hcl. destruct g; [discriminate|reflexivity].
  - intros g [b k cl] [Hcl Hcap] Hc Hb. simpl in *. subst cl b.
    exists tt. split; [left; reflexivity|].
    destruct g as [[|item rest]|]; simpl in *; try discriminate.
    unfold Chan.send; simpl. destruct Hcap as [E|Hk]; [discriminate|].
    destruct (Nat.ltb_spec 0 k); [|lia]. discriminate.
Qed.

(** A sequential stage after a network that delivers [ys] delivers what
    its loop body makes of [ys]. *)
Section StageDelivers.
Context {T R : Type} (N : network T).
Variable method : stream (chan T) -> goroutine T R * stream (chan R).
Variable V : net_view N.
Variable ys : list T.
Hypothesis HN : delivers N V ys.

Variable body : T -> option R.
Variable out0 : chan R.
Hypothesis Hbody : loop_body (method {| source := net_chan N; workers := 1 |}).1 = body.
Hypothesis Hstart : control (method {| source := net_chan N; workers := 1 |}).1 = Starting.
Hypothesis Hchan : source (method {| source := net_chan N; workers := 1 |}).2 = out0.
Hypothesis Hout : Chan.buf out0 = [] /\ Chan.closed out0 = false /\ 0 < Chan.cap out0.

Lemma stage_delivers :
  delivers (stage_net N method) (stage_view N method V) (omap body ys).
Proof.
  destruct HN as ((Hi & Hb & Hp) & Hstep & Hpop & Hclosed & Hprog).
  destruct Hout as (Hob & Hoc & Hok).
  unfold delivers. split; [|split; [|split; [|split]]].
  - (* the start *)
    simpl. rewrite Hbody, Hstart, Hchan, Hb, Hp. simpl. repeat split; auto.
  - (* the steps *)
    intros p [[y up] st] out. simpl. rewrite ?Hbody.
    intros (Hinv & Hcap & Hst). destruct p as [q|].
    + (* a goroutine of the network upstream *)
      destruct (Hstep q y up Hinv) as [Hinv' Hstepok].
      destruct (net_step N q y up) as [y' up']. simpl in *.
      unfold net_step_ok in *. simpl. rewrite ?Hbody.
      destruct Hstepok as [[-> ->]|(Hlt & Hcase)]; [split; auto|].
      assert (Hdr : drained up -> up' = up).
      { intros [Hd1 Hd2].
        destruct Hcase as [[-> _]|[(item & _ & E & _)|(_ & _ & E & _)]]; congruence. }
      assert (Hsame : Chan.buf up' ++ v_pend V y' = Chan.buf up ++ v_pend V y).
      { destruct Hcase as [[-> ->]|[(item & -> & _ & ->)|(-> & -> & _ & ->)]]; simpl; auto.
        rewrite <- app_assoc. reflexivity. }
      split.
      * repeat split; auto.
        destruct st as [|w|i| |]; auto.
        -- destruct w; auto. destruct Hst as [Ho Hd]. rewrite (Hdr Hd). auto.
        -- destruct Hst as [Ho Hd]. rewrite (Hdr Hd). auto.
      * right. split; [lia|]. left. rewrite Hsame. auto.
    + (* the goroutine of the stage *)
      unfold sequential_step. destruct st as [|w|i| |]; simpl; try contradiction.
      * (* the test s.workers == 1 *)
        unfold net_step_ok. simpl. rewrite ?Hbody. split; [auto|]. right. split; [lia|]. left. auto.
      * destruct w as [|r| |]; try contradiction.
        -- (* before a receive *)
           destruct (worker_step_cases body WRecv up out)
             as [E|[(item & rest & _ & Hbuf & E)|[(_ & Hd & E)|(r' & Hw & _)]]];
             [| | |discriminate]; rewrite E; simpl; unfold net_step_ok; simpl; rewrite ?Hbody.
           ++ split; auto.
           ++ split.
              ** repeat split; auto; [eapply Hpop; eassumption|].
                 destruct (body item); exact Hst.
              ** right. rewrite Hbuf. csimpl. rewrite ?Hbody.
                 destruct (body item) as [r|]; simpl; (split; [lia|]); left; auto.
           ++ split; [repeat split; auto; apply Hd|].
              right. split; [lia|]. left. auto.
        -- (* before a send *)
           destruct (worker_step_cases body (WSend r) up out)
             as [E|[(item & rest & Hw & _)|[(Hw & _)|(r' & Hw & Hcl & Hl & E)]]];
             try discriminate; rewrite E; simpl; unfold net_step_ok; simpl; rewrite ?Hbody.
           ++ split; auto.
           ++ inversion Hw; subst r'. split; [auto|]. right. rewrite length_app. simpl.
              split; [lia|]. right. left. exists r. rewrite Hcl. auto.
        -- (* the deferred close *)
           destruct Hst as [Ho [Hd1 Hd2]]. unfold net_step_ok. simpl. rewrite ?Hbody.
           split; [unfold drained; auto|].
           right. rewrite Hd2, (Hclosed y up Hinv Hd1). simpl.
           split; [lia|]. right. right. auto.
      * unfold net_step_ok. auto.
  - (* a receive from the channel of the stage *)
    intros [[y up] st] out item rest. simpl. auto.
  - (* the channel of the stage is closed *)
    intros [[y up] st] out. simpl. rewrite ?Hbody.
    intros (Hinv & _ & Hst) Hc.
    destruct st as [|w|i| |]; try contradiction; try congruence.
    + destruct w; try contradiction; try congruence. destruct Hst; congruence.
    + destruct Hst as [_ [Hd1 Hd2]]. rewrite Hd2, (Hclosed y up Hinv Hd1). reflexivity.
  - (* progress *)
    intros [[y up] st] out. simpl. rewrite ?Hbody.
    intros (Hinv & Hcap & Hst) Hc Hbo.
    assert (Hnone : forall st' up' out',
              sequential_step body st up out = (st', up', out') ->
              (st', up', out') <> (st, up, out) ->
              exists p : option (net_pid N), In p (None :: map Some (net_pids N)) /\
                stage_net_step N body p (y, up, st) out <> (y, up, st, out)).
    { intros st' up' out' E Hne. exists None. split; [left; reflexivity|]. simpl.
      rewrite E. intros E'. inversion E'; subst. apply Hne. reflexivity. }
    destruct st as [|w|i| |]; try contradiction.
    + eapply Hnone; [reflexivity|]. discriminate.
    + destruct w as [|r| |]; try contradiction.
      * destruct (worker_step_dec body WRecv up out) as [E|E].
        -- apply worker_blocked in E.
           destruct E as [E|[E|[(_ & Hbu & Hcu)|(r' & E & _)]]]; try discriminate.
           destruct (Hprog y up Hinv Hcu Hbu) as (q & Hin & Hq).
           exists (Some q). split; [right; apply in_map, Hin|]. simpl.
           destruct (net_step N q y up) as [y' up']. intros E; inversion E; subst.
           apply Hq. reflexivity.
        -- destruct (worker_step body WRecv up out) as [[w' up'] out'] eqn:Ew.
           eapply Hnone; [unfold sequential_step; rewrite Ew; reflexivity|].
           intros E'. inversion E'; subst. apply E. reflexivity.
      * destruct (worker_step_dec body (WSend r) up out) as [E|E].
        -- apply worker_blocked in E.
           destruct E as [E|[E|[(E & _)|(r' & _ & [E|E])]]]; try discriminate.
           ++ congruence.
           ++ rewrite Hbo in E. simpl in E. lia.
        -- destruct (worker_step body (WSend r) up out) as [[w' up'] out'] eqn:Ew.
           eapply Hnone; [unfold sequential_step; rewrite Ew; reflexivity|].
           intros E'. inversion E'; subst. apply E. reflexivity.
      * eapply Hnone; [reflexivity|]. discriminate.
    + destruct Hst. congruence.
Qed.
End StageDelivers.

(** The callers of [Collect], [Reduce] and [ForEach]. *)
Lemma Collect_consumes {T : Type} : consumes (@Collect_con T) collect_seen.
Proof.
  unfold consumes. simpl. split; [|split].
  - repeat split; auto; discriminate.
  - intros [result|result err] c; [discriminate|reflexivity].
  - intros seen [result|result err] [b k cl]; simpl.
    2:{ intros _. left. auto. }
    intros [Hel Hne]. unfold recv_ready, Collect_case_recv, Chan.recv; simpl.
    destruct b as [|item rest]; [destruct cl|]; simpl.
    + right. right. repeat split; auto.
    + left. auto.
    + right. left. split; [reflexivity|]. exists item, rest. repeat split; auto.
      * unfold append. simpl. rewrite Hel. reflexivity.
      * apply append_not_empty.
Qed.

Lemma Reduce_consumes {T : Type} (zero : T) (fn : T -> T -> T) :
  consumes (Reduce_con zero fn) (reduce_seen zero fn).
Proof.
  unfold consumes. simpl. split; [|split].
  - repeat split; auto.
  - intros [result first calls|result err calls] c; [discriminate|reflexivity].
  - intros seen [result first calls|result err calls] [b k cl]; simpl.
    2:{ intros _. left. auto. }
    intros [Hf Hr]. unfold Chan.recv; simpl.
    destruct b as [|item rest]; [destruct cl|]; simpl.
    + right. right. destruct first; simpl; repeat split; auto; rewrite <- Hf; reflexivity.
    + left. auto.
    + right. left. split; [reflexivity|]. exists item, rest.
      destruct seen as [|x0 seen0]; simpl in Hf, Hr; subst first;
        inversion Hr; subst result calls; cbn [fst snd app is_nil fold_seen];
        repeat split; auto.
      * unfold fold_seen. rewrite fold_left_app, length_app. simpl. f_equal. lia.
Qed.

Lemma ForEach_consumes {T W : Type} (fn : T -> W -> W) (env : W) :
  consumes (ForEach_con fn env) (foreach_seen fn env).
Proof.
  unfold consumes. simpl. split; [|split].
  - repeat split; auto.
  - intros [[[|err] w] calls] c; simpl; [discriminate|reflexivity].
  - intros seen [[[|err] w] calls] [b k cl]; simpl.
    2:{ intros _. left. auto. }
    intros (Hc & Hw & _). unfold Chan.recv; simpl.
    destruct b as [|item rest]; [destruct cl|]; simpl.
    + right. right. repeat split; auto.
    + left. auto.
    + right. left. split; [reflexivity|]. exists item, rest. subst calls w.
      repeat split; auto. rewrite fold_left_app. reflexivity.
Qed.

(** [Map], [Filter] and chains of them. *)
Lemma Map_delivers {T R : Type} (N : network T) (V : net_view N) (ys : list T) (f : T -> R) :
  delivers N V ys ->
  delivers (Map_net N f) (stage_view N (fun s => Map s f) V) (map f ys).
Proof.
  intros HN. rewrite <- omap_Some_map.
  apply (stage_delivers N (fun s => Map s f) V ys HN (fun item => Some (f item))
           (Chan.make 1)); simpl; auto.
Qed.

Lemma Filter_delivers {T : Type} (N : network T) (V : net_view N) (ys : list T)
      (p : T -> bool) :
  delivers N V ys ->
  delivers (Filter_net N p) (stage_view N (fun s => Filter s p) V) (List.filter p ys).
Proof.
  intros HN. rewrite <- omap_if_filter.
  apply (stage_delivers N (fun s => Filter s p) V ys HN
           (fun item => if p item then Some item else None) (Chan.make 1)); simpl; auto.
Qed.

Lemma chain_delivers {T : Type} (ms : list (method T)) (N : network T) (V : net_view N)
      (ys : list T) :
  delivers N V ys -> delivers (chain_net N ms) (chain_view N V ms) (chain_spec ms ys).
Proof.
  revert N V ys. induction ms as [|[f|p] ms IH]; intros N V ys HN; simpl.
  - exact HN.
  - apply IH, Map_delivers, HN.
  - apply IH, Filter_delivers, HN.
Qed.

Lemma chain_measure {T : Type} (ms : list (method T)) (N : network T) (V : net_view N) :
  Chan.buf (net_chan N) = [] ->
  v_mu (chain_view N V ms) (net_init (chain_net N ms)) = chain_bound ms (v_mu V (net_init N)).
Proof.
  revert N V. induction ms as [|[f|p] ms IH]; intros N V Hb; simpl.
  - reflexivity.
  - rewrite IH by reflexivity. simpl. rewrite Hb. simpl. f_equal. lia.
  - rewrite IH by reflexivity. simpl. rewrite Hb. simpl. f_equal. lia.
Qed.

Lemma drop_cons_S {T : Type} (n : nat) (l : list T) (v : T) (rest : list T) :
  drop n l = v :: rest -> drop (S n) l = rest /\ n < length l.
Proof.
  revert l. induction n as [|n IH]; intros [|x l]; simpl; try discriminate.
  - intros E. inversion E. split; [apply drop_0|lia].
  - intros E. destruct (IH l E) as [E' Hlt]. split; [exact E'|lia].
Qed.

Lemma drop_nil_length {T : Type} (n : nat) (l : list T) :
  drop n l = [] -> length l <= n.
Proof.
  revert l. induction n as [|n IH]; intros [|x l]; simpl; try discriminate; try lia.
  intros E. specialize (IH l E). lia.
Qed.

(** The goroutine of [Generator(gen)] delivers what the closure yields. *)
Lemma generator_delivers {T G : Type} (gen : G -> T * bool * G) (g : G) (vs : list T) :
  yields gen g vs -> delivers (generator_net gen g) (generator_view gen g vs) vs.
Proof.
  intros Hy. unfold delivers. simpl. split; [|split; [|split; [|split]]].
  - repeat split; auto. lia.
  - intros _ [[g0 calls] go] [b k cl] [Hcap Hgo]. simpl in *. subst k.
    unfold net_step_ok. simpl. destruct go as [|item| |]; simpl in *.
    + destruct Hgo as (Hy0 & Hle & Hcl). subst cl.
      destruct (gen g0) as [[item ok] g'] eqn:Eg. simpl.
      destruct (drop calls vs) as [|v rest] eqn:Ed; simpl in Hy0; rewrite Eg in Hy0;
        simpl in Hy0.
      * subst ok. simpl. apply drop_nil_length in Ed.
        split; [repeat split; auto; lia|]. right. split; [lia|]. left. auto.
      * destruct Hy0 as [Hv Hy0]. inversion Hv; subst item ok. simpl.
        destruct (drop_cons_S _ _ _ _ Ed) as [Ed' Hlt]. rewrite Ed'.
        split; [repeat split; auto; lia|]. right. split; [lia|]. left. auto.
    + destruct Hgo as (Hy0 & Hle & Hcl). subst cl.
      unfold Chan.send; simpl. destruct (Nat.ltb_spec (length b) 1); simpl.
      * split; [repeat split; auto|]. right. rewrite length_app. simpl.
        split; [lia|]. right. left. exists item. auto.
      * split; [repeat split; auto|]. left. auto.
    + destruct Hgo as [Hc Hcl]. subst cl. split; [auto|].
      right. split; [lia|]. right. right. auto.
    + split; auto.
  - intros [[g0 calls] go] c item rest [Hcap Hgo] _. simpl in *. auto.
  - intros [[g0 calls] go] c [Hcap Hgo] Hc. simpl in *.
    destruct go; simpl in *; auto; destruct Hgo as (_ & _ & Hcl) || destruct Hgo as (_ & Hcl);
      congruence.
  - intros [[g0 calls] go] [b k cl] [Hcap Hgo] Hc Hb. simpl in *. subst k cl b.
    exists tt. split; [left; reflexivity|].
    destruct go as [|item| |]; simpl in *.
    + destruct (gen g0) as [[item ok] g']. intros E. inversion E. lia.
    + unfold Chan.send; simpl. discriminate.
    + discriminate.
    + discriminate.
Qed.

(** *** The stages and sources on their own, and in a pipeline *)

(** The goroutine of a stage taken on its own runs as the stage of a
    pipeline whose receiver has worker count 1. *)
Lemma sequential_step_stage_step {T R : Type} (s : @pipe_sys T R) :
  workers (p_s s) = 1%Z ->
  (forall i, control (p_go s) <> Spawning i) -> control (p_go s) <> Waiting ->
  stage_step s =
  let '(st', up', out') :=
    sequential_step (loop_body (p_go s)) (control (p_go s)) (source (p_s s))
                    (source (p_m s)) in
  with_stage s up' st' (p_pool s) (p_wg s) out'.
Proof.
  destruct s as [src [up w] [body st] pool wg [out wm] m]. simpl.
  intros -> Hsp Hw. unfold stage_step, with_stage. simpl.
  destruct st as [|wk|i| |]; simpl; try reflexivity.
  - destruct wk; simpl; try reflexivity.
    + destruct (Chan.recv up) as [item up'| |]; try reflexivity.
      destruct (body item); reflexivity.
    + destruct (Chan.send out r); reflexivity.
  - destruct (Hsp i eq_refl).
  - destruct (Hw eq_refl).
Qed.

(** The goroutine of [Generator] taken on its own runs as the one of
    [Generator(gen).Collect(ctx)]. *)
Lemma generating_step_generator_step {T G : Type} (gen : G -> T * bool * G)
      (s : @gen_sys T G) :
  generator_step gen s =
  let '(g', calls', go', c') :=
    generating_step gen (n_gen s, n_calls s, n_go s) (n_chan s) in
  {| n_gen := g'; n_calls := calls'; n_go := go'; n_chan := c'; n_main := n_main s |}.
Proof.
  destruct s as [g calls go c m]. unfold generator_step, generating_step. simpl.
  destruct go as [|item| |]; simpl; try reflexivity.
  - destruct (gen g) as [[item ok] g']. reflexivity.
  - destruct (Chan.send c item); reflexivity.
Qed.

(** A stage keeps the worker count 1 of its receiver, so that the next
    stage of a chain runs its sequential loop as well. *)
Lemma stage_workers_one {T : Type} (m : method T) (c : chan T) :
  workers (match m with
           | MMap f => Map {| source := c; workers := 1 |} f
           | MFilter p => Filter {| source := c; workers := 1 |} p
           end).2 = 1%Z.
Proof. destruct m; reflexivity. Qed.

Section ChainFacts.
Context {T : Type} (N : network T) (D : consumer T).
Variable V : net_view N.
Variable w_inv : list T -> con_state D -> Prop.
Variable ys : list T.
Variable ms : list (method T).
Hypothesis HN : delivers N V ys.
Hypothesis HD : consumes D w_inv.

Lemma chain_returns (rounds : list (list (option (net_pid (chain_net N ms))))) :
  Forall (fair (sys_pids (chain_net N ms))) rounds ->
  chain_bound ms (v_mu V (net_init N)) + 1 <= length rounds ->
  sys_returned (chain_net N ms) D
    (run (sys_step (chain_net N ms) D) (concat rounds) (sys_start (chain_net N ms) D)) = true.
Proof.
  intros Hf Hlen.
  apply (sys_returns (chain_net N ms) D (chain_view N V ms) w_inv (chain_spec ms ys)
           (chain_delivers ms N V ys HN) HD rounds Hf).
  rewrite chain_measure; [exact Hlen|]. apply HN.
Qed.

Lemma chain_result (sched : list (option (net_pid (chain_net N ms)))) :
  con_returned D (run (sys_step (chain_net N ms) D) sched
                    (sys_start (chain_net N ms) D)).2 = true ->
  w_inv (chain_spec ms ys)
    (run (sys_step (chain_net N ms) D) sched (sys_start (chain_net N ms) D)).2.
Proof.
  apply (sys_result (chain_net N ms) D (chain_view N V ms) w_inv (chain_spec ms ys)
           (chain_delivers ms N V ys HN) HD).
Qed.

Lemma chain_prefix (sched : list (option (net_pid (chain_net N ms)))) :
  exists seen todo,
    w_inv seen (run (sys_step (chain_net N ms) D) sched (sys_start (chain_net N ms) D)).2 /\
    seen ++ todo = chain_spec ms ys.
Proof.
  apply (sys_prefix (chain_net N ms) D (chain_view N V ms) w_inv (chain_spec ms ys)
           (chain_delivers ms N V ys HN) HD).
Qed.
End ChainFacts.

Lemma collect_seen_returned {T : Type} (ys : list T) (result : slice) (err : option error) :
  collect_seen ys (CReturn result err) ->
  elems result = ys /\ err = None /\ (result = None <-> ys = []).
Proof.
  simpl. intros (He & Hne & Herr). split; [exact He|]. split; [exact Herr|].
  destruct result as [l|]; simpl in *; subst ys.
  - split; [discriminate|]. intros ->. destruct Hne. reflexivity.
  - split; reflexivity.
Qed.

Lemma reduce_seen_returned {T : Type} (zero : T) (fn : T -> T -> T) (ys : list T)
      (result : T) (err : option error) (calls : nat) :
  reduce_seen zero fn ys (RReturn result err calls) ->
  (err = Some ErrEmptyStream <-> ys = []) /\
  (ys = [] -> result = zero) /\
  (forall y rest, ys = y :: rest ->
     result = fold_left fn rest y /\ err = None /\ calls = length rest).
Proof.
  simpl. intros [Hr He]. destruct ys as [|y rest]; simpl in *; subst err; inversion Hr.
  - repeat split; auto; discriminate.
  - split; [split; discriminate|]. split; [discriminate|].
    intros y0 rest0 E. inversion E. subst. auto.
Qed.

(** X11: a chain of [Map] and [Filter] calls on [NewSliceStream(data)], no
    [Parallel] among them, ended by [Collect(context.Background())]:
    [Collect] returns under every fair schedule of the goroutines, and
    under every schedule what it returns is what the stages make of
    [data], one after the other, in order, with a nil error; the slice is
    nil exactly when no element gets through the chain. *)
Theorem Chain_collect {T : Type} (data : list T) (ms : list (method T)) :
  let N := chain_net (slice_net data) ms in
  (forall rounds : list (list (option (net_pid N))),
     Forall (fair (sys_pids N)) rounds ->
     chain_bound ms (S (2 * length data)) + 1 <= length rounds ->
     sys_returned N Collect_con
       (run (sys_step N Collect_con) (concat rounds) (sys_start N Collect_con)) = true) /\
  (forall (sched : list (option (net_pid N))) (result : slice) (err : option error),
     (run (sys_step N Collect_con) sched (sys_start N Collect_con)).2 = CReturn result err ->
     elems result = chain_spec ms data /\ err = None /\
     (result = None <-> chain_spec ms data = [])).
Proof.
  intros N. split.
  - intros rounds Hf Hlen.
    apply (chain_returns (slice_net data) Collect_con (slice_view data) collect_seen data ms
             (slice_delivers data) Collect_consumes rounds Hf). exact Hlen.
  - intros sched result err E. apply collect_seen_returned.
    pose proof (chain_result (slice_net data) Collect_con (slice_view data) collect_seen data
                  ms (slice_delivers data) Collect_consumes sched) as H.
    fold N in H. rewrite E in H. apply H. reflexivity.
Qed.

Lemma Chain_collect_witness :
  let N := chain_net (slice_net [1; 2; 3; 4; 5; 6]%Z)
                     [MFilter Z.even; MMap (fun x => x * 10)%Z] in
  let sched := round_robin (sys_pids N) 30 in
  (run (sys_step N Collect_con) sched (sys_start N Collect_con)).2
    = CReturn (Some [20; 40; 60]%Z) None /\
  (elems (Some [20; 40; 60]%Z)
     = chain_spec [MFilter Z.even; MMap (fun x => x * 10)%Z] [1; 2; 3; 4; 5; 6]%Z /\
   @None error = None /\
   (Some [20; 40; 60]%Z = None <->
    chain_spec [MFilter Z.even; MMap (fun x => x * 10)%Z] [1; 2; 3; 4; 5; 6]%Z = [])).
Proof.
  intros N sched.
  pose proof (Chain_collect [1; 2; 3; 4; 5; 6]%Z
                [MFilter Z.even; MMap (fun x => x * 10)%Z]) as H.
  cbv zeta in H. destruct H as [_ H].
  split; [vm_compute; reflexivity|]. apply (H sched). vm_compute. reflexivity.
Defined.

(** X12: the same chain ended by [Reduce(fn)]: [Reduce] returns under
    every fair schedule, and under every schedule it returns the left fold
    of what the stages make of [data]; the error is [ErrEmptyStream], with
    the zero value, exactly when no element gets through the chain (a
    [Filter] that rejects every element of a non-empty slice included). *)
Theorem Chain_reduce {T : Type} (zero : T) (fn : T -> T -> T) (data : list T)
        (ms : list (method T)) :
  let N := chain_net (slice_net data) ms in
  let D := Reduce_con zero fn in
  (forall rounds : list (list (option (net_pid N))),
     Forall (fair (sys_pids N)) rounds ->
     chain_bound ms (S (2 * length data)) + 1 <= length rounds ->
     sys_returned N D (run (sys_step N D) (concat rounds) (sys_start N D)) = true) /\
  (forall (sched : list (option (net_pid N))) (result : T) (err : option error)
          (calls : nat),
     (run (sys_step N D) sched (sys_start N D)).2 = RReturn result err calls ->
     (err = Some ErrEmptyStream <-> chain_spec ms data = []) /\
     (chain_spec ms data = [] -> result = zero) /\
     (forall y rest, chain_spec ms data = y :: rest ->
        result = fold_left fn rest y /\ err = None /\ calls = length rest)).
Proof.
  intros N D. split.
  - intros rounds Hf Hlen.
    apply (chain_returns (slice_net data) D (slice_view data) (reduce_seen zero fn) data ms
             (slice_delivers data) (Reduce_consumes zero fn) rounds Hf). exact Hlen.
  - intros sched result err calls E. apply reduce_seen_returned.
    pose proof (chain_result (slice_net data) D (slice_view data) (reduce_seen zero fn) data
                  ms (slice_delivers data) (Reduce_consumes zero fn) sched) as H.
    fold N in H. rewrite E in H. apply H. reflexivity.
Qed.

Lemma Chain_reduce_witness :
  let N := chain_net (slice_net [1; 2; 3]%Z) [MMap (fun x => x + 1)%Z; MFilter (Z.ltb 9)] in
  let D := Reduce_con 0%Z Z.add in
  let sched := round_robin (sys_pids N) 20 in
  (run (sys_step N D) sched (sys_start N D)).2 = RReturn 0%Z (Some ErrEmptyStream) 0 /\
  ((Some ErrEmptyStream = Some ErrEmptyStream <->
    chain_spec [MMap (fun x => x + 1)%Z; MFilter (Z.ltb 9)] [1; 2; 3]%Z = []) /\
   (chain_spec [MMap (fun x => x + 1)%Z; MFilter (Z.ltb 9)] [1; 2; 3]%Z = [] -> 0%Z = 0%Z) /\
   (forall y rest,
      chain_spec [MMap (fun x => x + 1)%Z; MFilter (Z.ltb 9)] [1; 2; 3]%Z = y :: rest ->
      0%Z = fold_left Z.add rest y /\ Some ErrEmptyStream = None /\ 0 = length rest)).
Proof.
  intros N D sched.
  pose proof (Chain_reduce 0%Z Z.add [1; 2; 3]%Z
                [MMap (fun x => x + 1)%Z; MFilter (Z.ltb 9)]) as H.
  cbv zeta in H. destruct H as [_ H].
  split; [vm_compute; reflexivity|]. apply (H sched). vm_compute. reflexivity.
Defined.

(** X13: the same chain ended by [ForEach(fn)]: [ForEach] returns under
    every fair schedule; at every moment the invocations of [fn] are a
    prefix of what the stages make of [data], in order, and when it
    returns, with a nil error, they are all of it. *)
Theorem Chain_foreach {T W : Type} (fn : T -> W -> W) (env : W) (data : list T)
        (ms : list (method T)) :
  let N := chain_net (slice_net data) ms in
  let D := ForEach_con fn env in
  (forall rounds : list (list (option (net_pid N))),
     Forall (fair (sys_pids N)) rounds ->
     chain_bound ms (S (2 * length data)) + 1 <= length rounds ->
     sys_returned N D (run (sys_step N D) (concat rounds) (sys_start N D)) = true) /\
  (forall sched : list (option (net_pid N)),
     let '(st, w, calls) := (run (sys_step N D) sched (sys_start N D)).2 in
     (exists todo, calls ++ todo = chain_spec ms data) /\
     w = fold_left (fun w item => fn item w) calls env /\
     (forall err, st = FReturn err -> err = None /\ calls = chain_spec ms data)).
Proof.
  intros N D. split.
  - intros rounds Hf Hlen.
    apply (chain_returns (slice_net data) D (slice_view data) (foreach_seen fn env) data ms
             (slice_delivers data) (ForEach_consumes fn env) rounds Hf). exact Hlen.
  - intros sched.
    pose proof (chain_prefix (slice_net data) D (slice_view data) (foreach_seen fn env) data
                  ms (slice_delivers data) (ForEach_consumes fn env) sched) as Hp.
    pose proof (chain_result (slice_net data) D (slice_view data) (foreach_seen fn env) data
                  ms (slice_delivers data) (ForEach_consumes fn env) sched) as Hr.
    fold N in Hp, Hr.
    destruct (run (sys_step N D) sched (sys_start N D)) as [[x c] [[st w] calls]].
    simpl in *. destruct Hp as (seen & todo & (Hc & Hw & _) & Hys). subst seen.
    split; [eauto|]. split; [exact Hw|].
    intros err ->. destruct (Hr eq_refl) as (Hc' & _ & He). auto.
Qed.

Lemma Chain_foreach_witness :
  let ms := [MFilter Z.even; MMap (fun x => x * 10)%Z] in
  let N := chain_net (slice_net [1; 2; 3; 4; 5; 6]%Z) ms in
  let D := ForEach_con (fun item w => w + item)%Z 0%Z in
  let sched := round_robin (sys_pids N) 30 in
  (run (sys_step N D) sched (sys_start N D)).2
    = (FReturn None, 120%Z, [20; 40; 60]%Z) /\
  ((exists todo, [20; 40; 60]%Z ++ todo = chain_spec ms [1; 2; 3; 4; 5; 6]%Z) /\
   120%Z = fold_left (fun w item => w + item)%Z [20; 40; 60]%Z 0%Z /\
   (forall err, FReturn None = FReturn err ->
      err = None /\ [20; 40; 60]%Z = chain_spec ms [1; 2; 3; 4; 5; 6]%Z)).
Proof.
  intros ms N D sched.
  assert (E : (run (sys_step N D) sched (sys_start N D)).2
              = (FReturn None, 120%Z, [20; 40; 60]%Z)) by (vm_compute; reflexivity).
  pose proof (Chain_foreach (fun item w => w + item)%Z 0%Z [1; 2; 3; 4; 5; 6]%Z ms) as H.
  cbv zeta in H. destruct H as [_ H]. specialize (H sched).
  fold N D in H. rewrite E in H. split; [exact E|exact H].
Defined.

(** X14: a chain of [Map] and [Filter] calls on [Generator(gen)], ended by
    [Collect(context.Background())], for a closure that yields [vs] and
    then reports no more: [Collect] returns under every fair schedule, and
    under every schedule it returns what the stages make of [vs], in
    order, with a nil error. *)
Theorem Generator_chain_collect {T G : Type} (gen : G -> T * bool * G) (g : G)
        (vs : list T) (ms : list (method T)) :
  yields gen g vs ->
  let N := chain_net (generator_net gen g) ms in
  (forall rounds : list (list (option (net_pid N))),
     Forall (fair (sys_pids N)) rounds ->
     chain_bound ms (3 * (length vs + 1)) + 1 <= length rounds ->
     sys_returned N Collect_con
       (run (sys_step N Collect_con) (concat rounds) (sys_start N Collect_con)) = true) /\
  (forall (sched : list (option (net_pid N))) (result : slice) (err : option error),
     (run (sys_step N Collect_con) sched (sys_start N Collect_con)).2 = CReturn result err ->
     elems result = chain_spec ms vs /\ err = None /\
     (result = None <-> chain_spec ms vs = [])).
Proof.
  intros Hy N. split.
  - intros rounds Hf Hlen.
    apply (chain_returns (generator_net gen g) Collect_con (generator_view gen g vs)
             collect_seen vs ms (generator_delivers gen g vs Hy) Collect_consumes rounds Hf).
    replace (v_mu (generator_view gen g vs) (net_init (generator_net gen g)))
      with (3 * (length vs + 1)) by (simpl; lia).
    exact Hlen.
  - intros sched result err E. apply collect_seen_returned.
    pose proof (chain_result (generator_net gen g) Collect_con (generator_view gen g vs)
                  collect_seen vs ms (generator_delivers gen g vs Hy) Collect_consumes sched)
      as H.
    fold N in H. rewrite E in H. apply H. reflexivity.
Qed.

Lemma Generator_chain_collect_witness :
  let ms := [MFilter (Z.ltb 1); MMap (fun x => x * 2)%Z] in
  let N := chain_net (generator_net count_to_three 0%Z) ms in
  let sched := round_robin (sys_pids N) 30 in
  yields count_to_three 0%Z [1; 2; 3]%Z /\
  (run (sys_step N Collect_con) sched (sys_start N Collect_con)).2
    = CReturn (Some [4; 6]%Z) None /\
  (elems (Some [4; 6]%Z) = chain_spec ms [1; 2; 3]%Z /\ @None error = None /\
   (Some [4; 6]%Z = None <-> chain_spec ms [1; 2; 3]%Z = [])).
Proof.
  intros ms N sched.
  assert (Hy : yields count_to_three 0%Z [1; 2; 3]%Z) by (simpl; repeat split).
  pose proof (Generator_chain_collect count_to_three 0%Z [1; 2; 3]%Z ms Hy) as H.
  cbv zeta in H. destruct H as [_ H].
  split; [exact Hy|]. split; [vm_compute; reflexivity|]. apply (H sched).
  vm_compute. reflexivity.
Defined.
